(** * A relational database engine: storage layer, index use and query parser

    Shallow embedding of [DatabaseManager.cpp], [database_manager.h] and
    [query_parser.cpp].

    Conventions of the embedding:
    - a C++ [int] is a [Z] (32-bit two's complement where it is written to
      disk), a [float] is its IEEE-754 binary32 bit pattern (a [Z] below
      [2^32]), a byte of a file is a [Z] in [0, 255];
    - [std::string] is [string]; [std::map<std::string, T>] is
      [gmap string T]; [std::vector<T>] is [list T];
    - a C++ function that can throw (or run into undefined behaviour) returns
      an [option] or an explicit outcome, [None] standing for the exception;
    - the engine state is passed explicitly: catalog, index handles, the
      files on disk, the lines written to [std::cerr];
    - [catalog.h], [bptree.h] and [query_parser.h] are not among the
      sources: the types they declare are taken from their use, the B+ tree
      is modelled from the specification, and the members of
      [DatabaseManager] defined elsewhere are parameters. *)

From Stdlib Require Import ZArith List String Ascii Bool Lia.
From stdpp Require Import gmap strings list fin_maps pretty.

Local Open Scope Z_scope.

(** ** Bytes and fixed-width scalars *)

Module Bytes.

(** [char] buffer of a [std::string]. *)
Definition of_string (s : string) : list Z :=
  map (fun a => Z.of_N (N_of_ascii a)) (list_ascii_of_string s).

Definition to_string (bs : list Z) : string :=
  string_of_list_ascii (map (fun b => ascii_of_N (Z.to_N b)) bs).

(** The four bytes of a 32-bit object, least significant first. *)
Definition le32 (v : Z) : list Z :=
  [ Z.land v 255;
    Z.land (Z.shiftr v 8) 255;
    Z.land (Z.shiftr v 16) 255;
    Z.land (Z.shiftr v 24) 255 ].

(** The unsigned 32-bit value held by four bytes. *)
Definition unsigned32 (bs : list Z) : Z :=
  match bs with
  | [b0; b1; b2; b3] =>
      Z.lor b0 (Z.lor (Z.shiftl b1 8) (Z.lor (Z.shiftl b2 16) (Z.shiftl b3 24)))
  | _ => 0
  end.

(** The same four bytes read as an [int]. *)
Definition signed32 (bs : list Z) : Z :=
  let u := unsigned32 bs in
  if Z.testbit u 31 then u - 2 ^ 32 else u.

(** [istream::read(buf, n)]: the next [n] bytes and the rest of the stream;
    [None] when fewer than [n] bytes are left (the stream fails and the
    buffer is not filled). *)
Definition read (n : nat) (input : list Z) : option (list Z * list Z) :=
  if (n <=? List.length input)%nat
  then Some (firstn n input, skipn n input)
  else None.

(** [std::string::resize(n, '\0')] on the byte buffer. *)
Definition resize (n : nat) (bs : list Z) : list Z :=
  firstn n bs ++ repeat 0 (n - List.length bs).

End Bytes.

(** ** Field values ([database_manager.h]) *)

(** [using FieldValue = std::variant<int, float, std::string, bool>]. *)
Inductive FieldValue :=
| FInt (i : Z)
| FFloat (bits : Z)
| FStr (s : string)
| FBool (b : bool).

(** [std::variant::index]. *)
Definition index (v : FieldValue) : nat :=
  match v with
  | FInt _ => 0%nat
  | FFloat _ => 1%nat
  | FStr _ => 2%nat
  | FBool _ => 3%nat
  end.

(** [using Record = std::map<std::string, FieldValue>]. *)
Abbreviation Rec := (gmap string FieldValue).

(** IEEE-754 binary32 comparisons, on bit patterns. *)
Module Float32.

Definition is_nan (bits : Z) : bool :=
  (Z.land bits 2139095040 =? 2139095040) && negb (Z.land bits 8388607 =? 0).

(** Sign and magnitude as one integer; both zeros map to [0]. *)
Definition key (bits : Z) : Z :=
  let m := Z.land bits 2147483647 in
  if Z.testbit bits 31 then - m else m.

Definition ordered (a b : Z) : bool := negb (is_nan a) && negb (is_nan b).

Definition eqb (a b : Z) : bool := ordered a b && (key a =? key b).
Definition ltb (a b : Z) : bool := ordered a b && (key a <? key b).
Definition leb (a b : Z) : bool := ordered a b && (key a <=? key b).
Definition gtb (a b : Z) : bool := ltb b a.
Definition geb (a b : Z) : bool := leb b a.

End Float32.

(** [operator==(const FieldValue&, const FieldValue&)]. *)
Definition FieldValue_eq (lhs rhs : FieldValue) : bool :=
  match lhs, rhs with
  | FInt a, FInt b => a =? b
  | FFloat a, FFloat b => Float32.eqb a b
  | FStr a, FStr b => String.eqb a b
  | FBool a, FBool b => Bool.eqb a b
  | _, _ => false
  end.

(** [operator!=]. *)
Definition FieldValue_ne (lhs rhs : FieldValue) : bool :=
  negb (FieldValue_eq lhs rhs).

(** ** Catalog types (declared in [catalog.h], used as the code uses them) *)

Module Column.

(** [Column::Type]. *)
Inductive Type_ := INT | FLOAT | STRING | CHAR | BOOL.

Record t := mk {
  name : string;
  type : Type_;
  length : Z;
  is_primary_key : bool;
  is_foreign_key : bool;
  references_table : string;
  references_column : string
}.

End Column.

Module TableSchema.

Record t := mk {
  name : string;
  columns : list Column.t;
  data_file_path : string;
  index_file_path : string
}.

(** The default-constructed schema. *)
Definition empty : t := mk "" [] "" "".

End TableSchema.

(** ** Field codec ([DatabaseManager::serializeField], [deserializeField]) *)

(** [std::string::resize] and the [std::string(n, c)] constructor take a
    [size_t]: a negative [int] length converts to a size above [max_size]
    and the call throws [std::length_error]. *)
Definition size_of_int (n : Z) : option nat :=
  if n <? 0 then None else Some (Z.to_nat n).

(** The bytes [serializeField] writes; [None] when [std::get] throws
    [std::bad_variant_access] or [resize] throws. *)
Definition serializeField (value : FieldValue) (column : Column.t) : option (list Z) :=
  match Column.type column with
  | Column.INT =>
      match value with
      | FInt val => Some (Bytes.le32 val)
      | _ => None
      end
  | Column.FLOAT =>
      match value with
      | FFloat val => Some (Bytes.le32 val)
      | _ => None
      end
  | Column.STRING =>
      match value with
      | FStr s =>
          match size_of_int (Column.length column) with
          | Some n =>
              let val := Bytes.resize n (Bytes.of_string s) in
              let len := Z.of_nat (List.length val) in
              Some (Bytes.le32 len ++ firstn (Z.to_nat len) val)
          | None => None
          end
      | _ => None
      end
  | Column.CHAR =>
      match value with
      | FStr s =>
          match size_of_int (Column.length column) with
          | Some n => Some (firstn n (Bytes.resize n (Bytes.of_string s)))
          | None => None
          end
      | _ => None
      end
  | Column.BOOL =>
      match value with
      | FBool val => Some [if val then 1 else 0]
      | _ => None
      end
  end.

(** The value [deserializeField] reads at the head of the stream, and the
    rest of the stream. [None] stands for a failed read (fewer bytes left
    than asked for) and for a throwing string constructor. *)
Definition deserializeField (input : list Z) (column : Column.t)
  : option (FieldValue * list Z) :=
  match Column.type column with
  | Column.INT =>
      '(bs, rest) ← Bytes.read 4 input;
      Some (FInt (Bytes.signed32 bs), rest)
  | Column.FLOAT =>
      '(bs, rest) ← Bytes.read 4 input;
      Some (FFloat (Bytes.unsigned32 bs), rest)
  | Column.STRING =>
      '(bs, rest) ← Bytes.read 4 input;
      n ← size_of_int (Bytes.signed32 bs);
      '(val, rest') ← Bytes.read n rest;
      Some (FStr (Bytes.to_string val), rest')
  | Column.CHAR =>
      n ← size_of_int (Column.length column);
      '(val, rest) ← Bytes.read n input;
      Some (FStr (Bytes.to_string val), rest)
  | Column.BOOL =>
      '(bs, rest) ← Bytes.read 1 input;
      Some (FBool (negb (hd 0 bs =? 0)), rest)
  end.

(** [DatabaseManager::getFieldSize]. *)
Definition getFieldSize (column : Column.t) : Z :=
  match Column.type column with
  | Column.INT => 4
  | Column.FLOAT => 4
  | Column.STRING => 4 + Column.length column
  | Column.CHAR => Column.length column
  | Column.BOOL => 1
  end.

(** ** Records on disk ([DatabaseManager::saveRecord], [loadRecord]) *)

(** The default written for a column the record does not mention (the
    [switch] of [saveRecord]). *)
Definition default_value (ty : Column.Type_) : FieldValue :=
  match ty with
  | Column.INT => FInt 0
  | Column.FLOAT => FFloat 0
  | Column.STRING | Column.CHAR => FStr ""
  | Column.BOOL => FBool false
  end.

(** The value [saveRecord] hands to [serializeField] for one column. *)
Definition field_to_write (record : Rec) (column : Column.t) : FieldValue :=
  match record !! Column.name column with
  | Some v => v
  | None => default_value (Column.type column)
  end.

(** [saveRecord]: the bytes written for the columns in schema order. The flag
    is [false] when a column made [serializeField] throw; the bytes of the
    columns before it have been written by then. *)
Fixpoint saveRecord (record : Rec) (columns : list Column.t) : list Z * bool :=
  match columns with
  | [] => ([], true)
  | column :: rest =>
      match serializeField (field_to_write record column) column with
      | None => ([], false)
      | Some bytes =>
          let '(more, ok) := saveRecord record rest in (bytes ++ more, ok)
      end
  end.

(** [loadRecord]: one value per column, in schema order, from the head of
    the stream. *)
Fixpoint loadRecord_from (record : Rec) (input : list Z) (columns : list Column.t)
  : option (Rec * list Z) :=
  match columns with
  | [] => Some (record, input)
  | column :: rest =>
      '(v, input') ← deserializeField input column;
      loadRecord_from (<[Column.name column := v]> record) input' rest
  end.

Definition loadRecord (input : list Z) (schema : TableSchema.t) : option (Rec * list Z) :=
  loadRecord_from ∅ input (TableSchema.columns schema).

(** ** Comparison of field values ([compareValues]) *)

Definition compareValues (left right : FieldValue) (op : string) : bool :=
  if negb (index left =? index right)%nat then false
  else if String.eqb op "=" then FieldValue_eq left right
  else if String.eqb op "!=" then FieldValue_ne left right
  else if String.eqb op ">" then
    match left, right with
    | FInt a, FInt b => a >? b
    | FFloat a, FFloat b => Float32.gtb a b
    | FStr a, FStr b => String.ltb b a
    | _, _ => false
    end
  else if String.eqb op "<" then
    match left, right with
    | FInt a, FInt b => a <? b
    | FFloat a, FFloat b => Float32.ltb a b
    | FStr a, FStr b => String.ltb a b
    | _, _ => false
    end
  else if String.eqb op ">=" then
    match left, right with
    | FInt a, FInt b => a >=? b
    | FFloat a, FFloat b => Float32.geb a b
    | FStr a, FStr b => String.leb b a
    | _, _ => false
    end
  else if String.eqb op "<=" then
    match left, right with
    | FInt a, FInt b => a <=? b
    | FFloat a, FFloat b => Float32.leb a b
    | FStr a, FStr b => String.leb a b
    | _, _ => false
    end
  else false.

(** ** The primary-key index ([bptree.h]) *)

Module BPlusTree.

(** Modelled from the spec: [bptree.h] and its implementation are not part
    of the sources at hand. A tree maps an [int] key to [int] offsets;
    duplicate keys are permitted and a lookup returns all matching offsets
    in ascending insertion order. The model keeps the entries in insertion
    order. *)
Definition t := list (Z * Z).

(** Modelled from the spec: a newly created index file holds one empty
    leaf. *)
Definition empty : t := [].

(** Modelled from the spec: [insert(key, offset)]. *)
Definition insert (key value : Z) (tree : t) : t := tree ++ [(key, value)].

(** Modelled from the spec: [search(key)], the offsets stored under [key]
    (may be empty). *)
Definition search (key : Z) (tree : t) : list Z :=
  map snd (List.filter (fun e => fst e =? key) tree).

End BPlusTree.

(** ** State of the engine *)

(** Changes of the directory made through [std::filesystem]. *)
Inductive FsEvent :=
| Renamed (from to : string)
| Removed (path : string).

(** The members of [DatabaseManager] the operations use ([catalog_path],
    [catalog.tables], [indexes]) together with the files they act on and the
    lines sent to [std::cerr]. An index handle ([BPlusTree*]) is the path of
    the index file it has open. Byte files and index files are kept in two
    stores: the code never opens one path as both. Reading a present file
    and writing the temporary file of a rewrite always succeed; what can
    happen to the stream [insertRecord] appends to is a [Stream]. *)
Record State := mkState {
  catalog_path : string;
  catalog : list TableSchema.t;
  indexes : gmap string string;
  files : gmap string (list Z);
  index_files : gmap string BPlusTree.t;
  cerr : list string;
  fs_log : list FsEvent
}.

Definition set_catalog (f : list TableSchema.t -> list TableSchema.t) (st : State) : State :=
  mkState (catalog_path st) (f (catalog st)) (indexes st) (files st) (index_files st)
          (cerr st) (fs_log st).

Definition set_indexes (f : gmap string string -> gmap string string) (st : State) : State :=
  mkState (catalog_path st) (catalog st) (f (indexes st)) (files st) (index_files st)
          (cerr st) (fs_log st).

Definition set_files (f : gmap string (list Z) -> gmap string (list Z)) (st : State) : State :=
  mkState (catalog_path st) (catalog st) (indexes st) (f (files st)) (index_files st)
          (cerr st) (fs_log st).

Definition set_index_files (f : gmap string BPlusTree.t -> gmap string BPlusTree.t)
    (st : State) : State :=
  mkState (catalog_path st) (catalog st) (indexes st) (files st) (f (index_files st))
          (cerr st) (fs_log st).

(** [std::cerr << line << std::endl]. *)
Definition report (line : string) (st : State) : State :=
  mkState (catalog_path st) (catalog st) (indexes st) (files st) (index_files st)
          (cerr st ++ [line]) (fs_log st).

Definition record_event (e : FsEvent) (st : State) : State :=
  mkState (catalog_path st) (catalog st) (indexes st) (files st) (index_files st)
          (cerr st) (fs_log st ++ [e]).

(** How a call ends:
    - [Returned a st]: it returns [a] and leaves the engine in [st];
    - [NullHandle st]: it goes through a null [BPlusTree*] in state [st];
    - [Failed]: no value the model describes: an exception leaves the
      function ([std::bad_variant_access], [std::length_error]), a read runs
      past the end of the file, a [std::vector] is indexed out of range or a
      loop does not terminate. *)
Inductive result (A : Type) :=
| Returned (a : A) (st : State)
| NullHandle (st : State)
| Failed.
Arguments Returned {A} a st.
Arguments NullHandle {A} st.
Arguments Failed {A}.

(** [std::filesystem::rename] on byte files; [None] when it throws
    [filesystem_error] (the source does not exist). *)
Definition rename_file (from to : string) (st : State) : option State :=
  match files st !! from with
  | Some content =>
      Some (record_event (Renamed from to)
              (set_files (fun fs => <[to := content]> (delete from fs)) st))
  | None => None
  end.

(** [std::filesystem::rename] on index files. *)
Definition rename_index_file (from to : string) (st : State) : option State :=
  match index_files st !! from with
  | Some tree =>
      Some (record_event (Renamed from to)
              (set_index_files (fun fs => <[to := tree]> (delete from fs)) st))
  | None => None
  end.

(** [std::filesystem::remove]. *)
Definition remove_file (path : string) (st : State) : State :=
  record_event (Removed path) (set_files (delete path) st).

(** Modelled from the spec: the [BPlusTree(path)] constructor opens the index
    file at [path] and creates it with an empty tree when it does not
    exist. *)
Definition open_tree (path : string) (st : State) : State :=
  match index_files st !! path with
  | Some _ => st
  | None => set_index_files (<[path := BPlusTree.empty]>) st
  end.

(** The tree behind a handle. *)
Definition tree_of (handle : string) (st : State) : BPlusTree.t :=
  default BPlusTree.empty (index_files st !! handle).

(** [handle->insert(key, value)]. *)
Definition tree_insert (handle : string) (key value : Z) (st : State) : State :=
  set_index_files (<[handle := BPlusTree.insert key value (tree_of handle st)]>) st.

(** ** Catalog lookups *)

(** The loop [for (table : catalog.tables) if (table.name == table_name)]. *)
Definition find_table (tables : list TableSchema.t) (table_name : string)
  : option TableSchema.t :=
  List.find (fun table => String.eqb (TableSchema.name table) table_name) tables.

(** [DatabaseManager::getTableSchema]. *)
Definition getTableSchema (st : State) (table_name : string) : TableSchema.t :=
  default TableSchema.empty (find_table (catalog st) table_name).

(** [DatabaseManager::listTables]. *)
Definition listTables (st : State) : list string :=
  map TableSchema.name (catalog st).

(** The first column flagged as primary key. *)
Definition find_primary_key (schema : TableSchema.t) : option Column.t :=
  List.find Column.is_primary_key (TableSchema.columns schema).

(** The local [primary_key_column] of the operations: the name of that
    column, or the empty string. *)
Definition primary_key_column (schema : TableSchema.t) : string :=
  match find_primary_key schema with
  | Some column => Column.name column
  | None => ""
  end.

(** [DatabaseManager::createIndex]. *)
Definition createIndex (schema : TableSchema.t) (st : State) : State :=
  match find_primary_key schema with
  | None =>
      report ("No primary key found for table '" +:+ TableSchema.name schema +:+ "'") st
  | Some _ =>
      set_indexes (<[TableSchema.name schema := TableSchema.index_file_path schema]>)
        (open_tree (TableSchema.index_file_path schema) st)
  end.

(** ** Insertion ([DatabaseManager::insertRecord]) *)

(** What the loop over the columns decides about the primary key. *)
Inductive key_check :=
| KeyValue (primary_key_value : Z)
| KeyMissing (primary_key_column : string)
| KeyNotInt
| KeyBadAccess.

(** The loop "Get the primary key value". *)
Definition check_primary_key (schema : TableSchema.t) (record : Rec) : key_check :=
  match find_primary_key schema with
  | None => KeyValue 0
  | Some column =>
      match record !! Column.name column with
      | None => KeyMissing (Column.name column)
      | Some v =>
          match Column.type column with
          | Column.INT =>
              match v with
              | FInt k => KeyValue k
              | _ => KeyBadAccess
              end
          | _ => KeyNotInt
          end
      end
  end.

(** "Ensure the index exists". *)
Definition ensure_index (table_name : string) (schema : TableSchema.t) (st : State) : State :=
  match indexes st !! table_name with
  | None => createIndex schema st
  | Some _ => st
  end.

(** The content of a file opened with [std::ios::app] (created when
    missing). *)
Definition content_of (path : string) (st : State) : list Z :=
  default [] (files st !! path).

(** What is decided outside the program about the stream
    [std::ofstream data_file(path, std::ios::binary | std::ios::app)] of
    [insertRecord]: whether it opens ([!data_file] otherwise), and the
    position [tellp()] reports on it before the first write, given the bytes
    the file holds. A stream opened for appending writes at the end of the
    file whatever that position is; an implementation may report the end of
    the file or its beginning. *)
Record Stream := mkStream {
  opens : string -> bool;
  tellp : list Z -> Z
}.

(** [int offset = data_file.tellp()]: the position narrowed to a 32-bit
    [int]. *)
Definition int_of_pos (pos : Z) : Z := Bytes.signed32 (Bytes.le32 pos).

(** A stream that always opens and reports the end of the file. *)
Definition at_end : Stream := mkStream (fun _ => true) (fun old => Z.of_nat (List.length old)).

(** "Get current position in file", "Save the record": the record's bytes
    go to the end of the data file. Yields the offset taken for the record
    ([saveRecord] sets it again from [tellp()] before its first write, to
    the same position), whether [saveRecord] completed, and the new
    state. *)
Definition append_record (io : Stream) (schema : TableSchema.t) (record : Rec) (st : State)
  : Z * bool * State :=
  let path := TableSchema.data_file_path schema in
  let old := content_of path st in
  let '(bytes, ok) := saveRecord record (TableSchema.columns schema) in
  (int_of_pos (tellp io old), ok, set_files (<[path := old ++ bytes]>) st).

(** "Index the record": [indexes[table_name]->insert(primary_key_value,
    offset)]. *)
Definition index_record (table_name : string) (key offset : Z) (st : State) : result bool :=
  match indexes st !! table_name with
  | None => NullHandle st
  | Some handle => Returned true (tree_insert handle key offset st)
  end.

(** [DatabaseManager::insertRecord] on a given stream. *)
Definition insertRecord_on (io : Stream) (st : State) (table_name : string) (record : Rec)
  : result bool :=
  match find_table (catalog st) table_name with
  | None => Returned false (report ("Table '" +:+ table_name +:+ "' not found") st)
  | Some schema =>
      match check_primary_key schema record with
      | KeyMissing column =>
          Returned false (report ("Record is missing primary key '" +:+ column +:+ "'") st)
      | KeyNotInt => Returned false (report "Primary key must be an integer" st)
      | KeyBadAccess => Failed
      | KeyValue primary_key_value =>
          let st1 := ensure_index table_name schema st in
          if negb (opens io (TableSchema.data_file_path schema)) then
            Returned false
              (report ("Failed to open data file: " +:+ TableSchema.data_file_path schema)
                 st1)
          else
            let '(offset, ok, st2) := append_record io schema record st1 in
            if ok then index_record table_name primary_key_value offset st2
            else Failed
      end
  end.

(** [insertRecord] where the data file opens and [tellp] reports its end. *)
Definition insertRecord (st : State) (table_name : string) (record : Rec) : result bool :=
  insertRecord_on at_end st table_name record.

(** ** Reading the data file *)

(** [seekg(offset)] followed by [loadRecord]. *)
Definition load_at (content : list Z) (offset : Z) (schema : TableSchema.t) : option Rec :=
  if (0 <=? offset) && (offset <=? Z.of_nat (List.length content))
  then fst <$> loadRecord (skipn (Z.to_nat offset) content) schema
  else None.

(** The loop [while (tellg() < file_size) loadRecord]: the records of the
    file with the offset each one starts at. [fuel] bounds the number of
    iterations; a record that takes no bytes while bytes remain keeps the
    loop running for ever, which exhausts any fuel. *)
Fixpoint scan_from (fuel : nat) (schema : TableSchema.t) (offset : Z) (input : list Z)
  : option (list (Z * Rec)) :=
  match input with
  | [] => Some []
  | _ :: _ =>
      match fuel with
      | O => None
      | S fuel' =>
          '(record, rest) ← loadRecord input schema;
          more ← scan_from fuel' schema
                   (offset + Z.of_nat (List.length input - List.length rest)) rest;
          Some ((offset, record) :: more)
      end
  end.

Definition scan (schema : TableSchema.t) (content : list Z) : option (list (Z * Rec)) :=
  scan_from (List.length content) schema 0 content.

(** The test [record.find(key_column) != record.end() &&
    record[key_column] == key_value]. *)
Definition matches_key (key_column : string) (key_value : FieldValue) (record : Rec) : bool :=
  match record !! key_column with
  | Some v => FieldValue_eq v key_value
  | None => false
  end.

(** [DatabaseManager::getAllRecords]. *)
Definition getAllRecords (st : State) (table_name : string) : result (list Rec) :=
  match find_table (catalog st) table_name with
  | None => Returned [] (report ("Table '" +:+ table_name +:+ "' not found") st)
  | Some schema =>
      match files st !! TableSchema.data_file_path schema with
      | None =>
          Returned []
            (report ("Data file not found: " +:+ TableSchema.data_file_path schema) st)
      | Some content =>
          match scan schema content with
          | Some records => Returned (map snd records) st
          | None => Failed
          end
      end
  end.

(** ** Point lookup ([DatabaseManager::searchRecords]) *)

(** The branch "If searching by primary key and index exists, use it":
    [std::get<int>(key_value)], the index search, one seek and load per
    offset. *)
Definition search_by_index (schema : TableSchema.t) (content : list Z)
    (tree : BPlusTree.t) (key_value : FieldValue) : option (list Rec) :=
  match key_value with
  | FInt key_int =>
      mapM (fun offset => load_at content offset schema) (BPlusTree.search key_int tree)
  | _ => None
  end.

(** The branch "Sequential scan". *)
Definition search_by_scan (schema : TableSchema.t) (content : list Z)
    (key_column : string) (key_value : FieldValue) : option (list Rec) :=
  records ← scan schema content;
  Some (List.filter (matches_key key_column key_value) (map snd records)).

(** The flag [is_primary_key] of [searchRecords]. *)
Definition is_primary_key_column (schema : TableSchema.t) (key_column : string) : bool :=
  existsb (fun column => String.eqb (Column.name column) key_column
                         && Column.is_primary_key column)
          (TableSchema.columns schema).

Definition of_option {A} (st : State) (o : option A) : result A :=
  match o with
  | Some a => Returned a st
  | None => Failed
  end.

Definition searchRecords (st : State) (table_name key_column : string)
    (key_value : FieldValue) : result (list Rec) :=
  match find_table (catalog st) table_name with
  | None => Returned [] (report ("Table '" +:+ table_name +:+ "' not found") st)
  | Some schema =>
      match files st !! TableSchema.data_file_path schema with
      | None =>
          Returned []
            (report ("Data file not found: " +:+ TableSchema.data_file_path schema) st)
      | Some content =>
          match (if is_primary_key_column schema key_column
                 then indexes st !! table_name else None) with
          | Some handle =>
              of_option st (search_by_index schema content (tree_of handle st) key_value)
          | None =>
              of_option st (search_by_scan schema content key_column key_value)
          end
      end
  end.

(** ** Filtered search ([DatabaseManager::searchRecordsAdvanced]) *)

(** A condition is [(column, value, operator)]. *)
Definition condition := (string * FieldValue * string)%type.

(** One condition holds of a record: the negation of
    [record.find(col) == record.end() || !compareValues(record[col], val, op)]. *)
Definition condition_holds (record : Rec) (c : condition) : bool :=
  let '(col, val, op) := c in
  match record !! col with
  | Some v => compareValues v val op
  | None => false
  end.

(** [std::holds_alternative<int>]. *)
Definition holds_int (v : FieldValue) : bool :=
  match v with
  | FInt _ => true
  | _ => false
  end.

(** The flag [useIndex]: "Check if we can use index for the first
    condition". *)
Definition useIndex (st : State) (schema : TableSchema.t) (table_name : string)
    (conditions : list condition) : bool :=
  match conditions with
  | [] => false
  | (col, val, op) :: _ =>
      String.eqb col (primary_key_column schema)
      && String.eqb op "="
      && holds_int val
      && bool_decide (is_Some (indexes st !! table_name))
  end.

(** The branch taken when [useIndex] holds: the records at the offsets the
    index returns for the key of the first condition, each one checked
    against the conditions from the second on. *)
Definition advanced_by_index (st : State) (schema : TableSchema.t) (table_name : string)
    (content : list Z) (conditions : list condition) : option (list Rec) :=
  match conditions, indexes st !! table_name with
  | (_, FInt key_value, _) :: others, Some handle =>
      records ← mapM (fun offset => load_at content offset schema)
                     (BPlusTree.search key_value (tree_of handle st));
      Some (List.filter (fun record => forallb (condition_holds record) others) records)
  | _, _ => None
  end.

(** The branch "full table scan". *)
Definition advanced_by_scan (schema : TableSchema.t) (content : list Z)
    (conditions : list condition) : option (list Rec) :=
  records ← scan schema content;
  Some (List.filter (fun record => forallb (condition_holds record) conditions)
                    (map snd records)).

Definition searchRecordsAdvanced (st : State) (table_name : string)
    (conditions : list condition) : result (list Rec) :=
  match find_table (catalog st) table_name with
  | None => Returned [] (report ("Table '" +:+ table_name +:+ "' not found") st)
  | Some schema =>
      match files st !! TableSchema.data_file_path schema with
      | None =>
          Returned []
            (report ("Data file not found: " +:+ TableSchema.data_file_path schema) st)
      | Some content =>
          if useIndex st schema table_name conditions
          then of_option st (advanced_by_index st schema table_name content conditions)
          else of_option st (advanced_by_scan schema content conditions)
      end
  end.

(** ** Rewriting the data file ([updateRecord], [deleteRecord]) *)

(** The locals of the two rewrite loops: the bytes written to the temporary
    file so far, the flag [record_found] / [found_record],
    [primary_key_changed], [deleted_keys] and [offset_map]. *)
Record rewrite := mkRewrite {
  temp : list Z;
  found : bool;
  primary_key_changed : bool;
  deleted_keys : list Z;
  offset_map : gmap Z Z
}.

Definition rewrite_start : rewrite := mkRewrite [] false false [] ∅.

(** [std::get<int>]. *)
Definition get_int (v : FieldValue) : option Z :=
  match v with
  | FInt i => Some i
  | _ => None
  end.

(** [record[column]] on a [std::map]: a missing key reads as the
    default-constructed variant, the [int] 0. *)
Definition subscript (record : Rec) (column : string) : FieldValue :=
  default (FInt 0) (record !! column).

(** The test of [updateRecord] that sets [primary_key_changed]. *)
Definition assigns_primary_key (schema : TableSchema.t) (new_values : Rec) : bool :=
  negb (String.eqb (primary_key_column schema) "")
  && bool_decide (is_Some (new_values !! primary_key_column schema)).

(** One iteration of the loop of [updateRecord] on the record read at
    [old_offset]. *)
Definition update_step (schema : TableSchema.t) (key_column : string)
    (key_value : FieldValue) (new_values : Rec)
    (acc : rewrite) (old_offset : Z) (record : Rec) : option rewrite :=
  let new_offset := Z.of_nat (List.length (temp acc)) in
  let pk := primary_key_column schema in
  '(record', found', changed') ←
    (if matches_key key_column key_value record then
       changed' ←
         (if assigns_primary_key schema new_values then
            _ ← get_int (subscript record pk);
            _ ← new_values !! pk ≫= get_int;
            Some true
          else Some (primary_key_changed acc));
       Some (new_values ∪ record, true, changed')
     else Some (record, found acc, primary_key_changed acc));
  let '(bytes, ok) := saveRecord record' (TableSchema.columns schema) in
  if ok then
    Some (mkRewrite (temp acc ++ bytes) found' changed' (deleted_keys acc)
                    (<[old_offset := new_offset]> (offset_map acc)))
  else None.

(** One iteration of the loop of [deleteRecord]. *)
Definition delete_step (schema : TableSchema.t) (key_column : string)
    (key_value : FieldValue)
    (acc : rewrite) (old_offset : Z) (record : Rec) : option rewrite :=
  let pk := primary_key_column schema in
  if matches_key key_column key_value record then
    keys ←
      (if negb (String.eqb pk "") && bool_decide (is_Some (record !! pk)) then
         k ← get_int (subscript record pk); Some (deleted_keys acc ++ [k])
       else Some (deleted_keys acc));
    Some (mkRewrite (temp acc) true (primary_key_changed acc) keys (offset_map acc))
  else
    let new_offset := Z.of_nat (List.length (temp acc)) in
    let '(bytes, ok) := saveRecord record (TableSchema.columns schema) in
    if ok then
      Some (mkRewrite (temp acc ++ bytes) (found acc) (primary_key_changed acc)
                      (deleted_keys acc) (<[old_offset := new_offset]> (offset_map acc)))
    else None.

(** A rewrite loop over the records of the data file. *)
Fixpoint rewrite_loop (step : rewrite -> Z -> Rec -> option rewrite)
    (records : list (Z * Rec)) (acc : rewrite) : option rewrite :=
  match records with
  | [] => Some acc
  | (old_offset, record) :: rest =>
      acc' ← step acc old_offset record;
      rewrite_loop step rest acc'
  end.

(** The loop of [updateRecord] that fills the new index: for every record of
    the rewritten file, [offset_map[index->search(key)[0]]]. *)
Fixpoint update_reindex (pk : string) (old_index : BPlusTree.t) (offsets : gmap Z Z)
    (records : list Rec) (new_index : BPlusTree.t) : option BPlusTree.t :=
  match records with
  | [] => Some new_index
  | record :: rest =>
      match record !! pk with
      | None => update_reindex pk old_index offsets rest new_index
      | Some v =>
          key ← get_int v;
          first ← head (BPlusTree.search key old_index);
          update_reindex pk old_index offsets rest
            (BPlusTree.insert key (default 0 (offsets !! first)) new_index)
      end
  end.

(** The loop of [deleteRecord] that fills the new index. *)
Fixpoint delete_reindex (pk : string) (old_index : BPlusTree.t) (offsets : gmap Z Z)
    (records : list Rec) (new_index : BPlusTree.t) : option BPlusTree.t :=
  match records with
  | [] => Some new_index
  | record :: rest =>
      match record !! pk with
      | None => delete_reindex pk old_index offsets rest new_index
      | Some v =>
          key ← get_int v;
          match head (BPlusTree.search key old_index) ≫= (fun first => offsets !! first) with
          | Some new_offset =>
              delete_reindex pk old_index offsets rest
                (BPlusTree.insert key new_offset new_index)
          | None => delete_reindex pk old_index offsets rest new_index
          end
      end
  end.

(** The index rebuild shared by both operations: a tree opened on
    [index_file_path + ".tmp"], filled by [reindex] from the records
    [getAllRecords] returns, renamed over the index file and reopened. *)
Definition rebuild_index
    (reindex : BPlusTree.t -> list Rec -> BPlusTree.t -> option BPlusTree.t)
    (schema : TableSchema.t) (table_name handle : string) (st : State) : result bool :=
  let index_file_path := TableSchema.index_file_path schema +:+ ".tmp" in
  let old_index := tree_of handle st in
  let st1 := open_tree index_file_path st in
  match getAllRecords st1 table_name with
  | Returned all_records st2 =>
      match reindex old_index all_records (tree_of index_file_path st2) with
      | Some new_index =>
          let st3 := set_index_files (<[index_file_path := new_index]>) st2 in
          match rename_index_file index_file_path (TableSchema.index_file_path schema) st3 with
          | Some st4 =>
              Returned true
                (set_indexes (<[table_name := TableSchema.index_file_path schema]>)
                   (open_tree (TableSchema.index_file_path schema) st4))
          | None =>
              Returned false (report "Error replacing index file" st3)
          end
      | None => Failed
      end
  | NullHandle st' => NullHandle st'
  | Failed => Failed
  end.

(** What follows the rewrite loop in both operations: drop the temporary
    file when nothing matched, else rename it over the data file and rebuild
    the index when [wants_rebuild] holds and the table has a handle. *)
Definition finish_rewrite
    (reindex : BPlusTree.t -> list Rec -> BPlusTree.t -> option BPlusTree.t)
    (wants_rebuild : bool)
    (schema : TableSchema.t) (table_name : string) (acc : rewrite) (st : State)
  : result bool :=
  let temp_file_path := TableSchema.data_file_path schema +:+ ".tmp" in
  let st1 := set_files (<[temp_file_path := temp acc]>) st in
  if negb (found acc) then
    Returned false
      (report "No record found matching the criteria" (remove_file temp_file_path st1))
  else
    match rename_file temp_file_path (TableSchema.data_file_path schema) st1 with
    | None => Returned false (report "Error replacing file" st1)
    | Some st2 =>
        match (if wants_rebuild then indexes st2 !! table_name else None) with
        | Some handle => rebuild_index reindex schema table_name handle st2
        | None => Returned true st2
        end
    end.

(** The common entry of both operations: find the table, check that the data
    file exists, read it. *)
Definition rewrite_table (st : State) (table_name : string)
    (body : TableSchema.t -> list (Z * Rec) -> State -> result bool) : result bool :=
  match find_table (catalog st) table_name with
  | None => Returned false (report ("Table '" +:+ table_name +:+ "' not found") st)
  | Some schema =>
      match files st !! TableSchema.data_file_path schema with
      | None =>
          Returned false
            (report ("Data file not found: " +:+ TableSchema.data_file_path schema) st)
      | Some content =>
          match scan schema content with
          | Some records => body schema records st
          | None => Failed
          end
      end
  end.

Definition updateRecord (st : State) (table_name key_column : string)
    (key_value : FieldValue) (new_values : Rec) : result bool :=
  rewrite_table st table_name (fun schema records st =>
    match rewrite_loop (update_step schema key_column key_value new_values)
                       records rewrite_start with
    | None => Failed
    | Some acc =>
        finish_rewrite
          (fun old_index all_records new_index =>
             update_reindex (primary_key_column schema) old_index (offset_map acc)
                            all_records new_index)
          (primary_key_changed acc) schema table_name acc st
    end).

Definition deleteRecord (st : State) (table_name key_column : string)
    (key_value : FieldValue) : result bool :=
  rewrite_table st table_name (fun schema records st =>
    match rewrite_loop (delete_step schema key_column key_value)
                       records rewrite_start with
    | None => Failed
    | Some acc =>
        finish_rewrite
          (fun old_index all_records new_index =>
             delete_reindex (primary_key_column schema) old_index (offset_map acc)
                            all_records new_index)
          (negb (bool_decide (deleted_keys acc = []))) schema table_name acc st
    end).



(** ** Table creation ([DatabaseManager::createTable]) *)

(** [DatabaseManager::stringToColumnType]: the type and whether the name was
    known. *)
Definition stringToColumnType (type_str : string) : Column.Type_ * bool :=
  if String.eqb type_str "int" then (Column.INT, true)
  else if String.eqb type_str "float" then (Column.FLOAT, true)
  else if String.eqb type_str "string" then (Column.STRING, true)
  else if String.eqb type_str "char" then (Column.CHAR, true)
  else if String.eqb type_str "bool" then (Column.BOOL, true)
  else (Column.STRING, false).

(** [std::filesystem::path::parent_path]: the path up to its last
    separator. *)
Fixpoint drop_through_slash (reversed : list ascii) : list ascii :=
  match reversed with
  | [] => []
  | c :: rest => if Ascii.eqb c "/" then rest else drop_through_slash rest
  end.

Definition parent_path (path : string) : string :=
  string_of_list_ascii (rev (drop_through_slash (rev (list_ascii_of_string path)))).

(** [std::filesystem::path::operator/]. *)
Definition path_append (dir file : string) : string :=
  if String.eqb dir "" then file else dir +:+ "/" +:+ file.

(** The column [createTable] builds from one [(name, type, length)] triple,
    and the state after the diagnostic of an unknown type name. *)
Definition make_column (primary_key : string) (foreign_keys : gmap string (string * string))
    (triple : string * string * Z) (st : State) : Column.t * State :=
  let '(col_name, col_type, col_length) := triple in
  let '(ty, known) := stringToColumnType col_type in
  let st' := if known then st
             else report ("Unknown type '" +:+ col_type +:+ "', defaulting to STRING") st in
  let '(ref_table, ref_column) := default ("", "") (foreign_keys !! col_name) in
  (Column.mk col_name ty col_length (String.eqb col_name primary_key)
             (bool_decide (is_Some (foreign_keys !! col_name))) ref_table ref_column,
   st').

Fixpoint make_columns (primary_key : string) (foreign_keys : gmap string (string * string))
    (triples : list (string * string * Z)) (st : State) : list Column.t * State :=
  match triples with
  | [] => ([], st)
  | triple :: rest =>
      let '(column, st1) := make_column primary_key foreign_keys triple st in
      let '(columns, st2) := make_columns primary_key foreign_keys rest st1 in
      (column :: columns, st2)
  end.

(** [createTable]. Writing the catalog file ([catalog.save]) is outside the
    model. *)
Definition createTable (st : State) (table_name : string)
    (columns : list (string * string * Z)) (primary_key : string)
    (foreign_keys : gmap string (string * string)) : result bool :=
  if existsb (fun table => String.eqb (TableSchema.name table) table_name) (catalog st)
  then Returned false (report ("Table '" +:+ table_name +:+ "' already exists") st)
  else
    let '(cols, st1) := make_columns primary_key foreign_keys columns st in
    let baseDir := parent_path (catalog_path st) in
    let table :=
      TableSchema.mk table_name cols
        (path_append baseDir (table_name +:+ ".dat"))
        (path_append baseDir (table_name +:+ ".idx")) in
    Returned true (createIndex table (set_catalog (fun tables => tables ++ [table]) st1)).

(** ** Opening the indexes at start-up ([DatabaseManager::loadIndexes]) *)

(** One iteration: a table whose index file exists gets a handle on it, any
    other table goes through [createIndex]. *)
Definition load_index (st : State) (table : TableSchema.t) : State :=
  match index_files st !! TableSchema.index_file_path table with
  | Some _ =>
      set_indexes (<[TableSchema.name table := TableSchema.index_file_path table]>)
        (open_tree (TableSchema.index_file_path table) st)
  | None => createIndex table st
  end.

Definition loadIndexes (st : State) : State :=
  fold_left load_index (catalog st) st.

(** ** Number conversions of the C++ library *)

(** [std::stoi] and [std::stof] belong to the standard library; the model
    follows [strtol] and [strtof] in the C locale: leading white space, an
    optional sign, the longest prefix that reads as a number; what follows
    the number is ignored. [None] stands for [std::invalid_argument] (no
    number) and [std::out_of_range]. *)
Module Strto.

Definition code (c : ascii) : Z := Z.of_N (N_of_ascii c).

(** [isspace]. *)
Definition isspace (c : ascii) : bool :=
  (code c =? 32) || ((9 <=? code c) && (code c <=? 13)).

(** [tolower]. *)
Definition tolower (c : ascii) : ascii :=
  if (65 <=? code c) && (code c <=? 90)
  then ascii_of_N (N_of_ascii c + 32) else c.

Definition digit (c : ascii) : option Z :=
  if (48 <=? code c) && (code c <=? 57) then Some (code c - 48) else None.

Definition hex_digit (c : ascii) : option Z :=
  let l := code (tolower c) in
  match digit c with
  | Some d => Some d
  | None => if (97 <=? l) && (l <=? 102) then Some (l - 87) else None
  end.

Fixpoint skip_spaces (s : string) : string :=
  match s with
  | String c rest => if isspace c then skip_spaces rest else s
  | EmptyString => s
  end.

(** An optional sign: whether it is a minus, and what follows. *)
Definition sign (s : string) : bool * string :=
  match s with
  | String "-" rest => (true, rest)
  | String "+" rest => (false, rest)
  | _ => (false, s)
  end.

(** The longest run of digits at the head of [s], and what follows. *)
Fixpoint digits (d : ascii -> option Z) (s : string) : list Z * string :=
  match s with
  | String c rest =>
      match d c with
      | Some v => let '(vs, rest') := digits d rest in (v :: vs, rest')
      | None => ([], s)
      end
  | EmptyString => ([], s)
  end.

Definition number (base : Z) (ds : list Z) : Z :=
  fold_left (fun acc d => acc * base + d) ds 0.

Definition signed (negative : bool) (v : Z) : Z := if negative then - v else v.

(** [std::stoi(str)]. *)
Definition stoi (str : string) : option Z :=
  let '(negative, s) := sign (skip_spaces str) in
  let '(ds, _) := digits digit s in
  match ds with
  | [] => None
  | _ =>
      let v := signed negative (number 10 ds) in
      if (- 2 ^ 31 <=? v) && (v <? 2 ^ 31) then Some v else None
  end.

(** [p] is a prefix of [s], letter case aside. *)
Fixpoint prefix_nocase (p s : string) : bool :=
  match p, s with
  | EmptyString, _ => true
  | String a p', String b s' => Ascii.eqb a (tolower b) && prefix_nocase p' s'
  | _, _ => false
  end.

(** An optional exponent part introduced by [marker]; no digits, no
    exponent. *)
Definition exponent (marker : ascii) (s : string) : Z :=
  match s with
  | String c rest =>
      if Ascii.eqb (tolower c) marker then
        let '(negative, rest') := sign rest in
        let '(ds, _) := digits digit rest' in
        signed negative (number 10 ds)
      else 0
  | EmptyString => 0
  end.

(** Integer and fraction digits in base [d], then an exponent: the
    significand as an integer and the power of the exponent base it is
    scaled by counted in digits; [None] without any digit. *)
Definition mantissa (d : ascii -> option Z) (s : string)
  : option (list Z * nat * string) :=
  let '(whole, rest) := digits d s in
  let '(fraction, rest') :=
    match rest with
    | String "." after => digits d after
    | _ => ([], rest)
    end in
  match whole ++ fraction with
  | [] => None
  | ds => Some (ds, length fraction, rest')
  end.

(** The magnitude of a floating literal. *)
Inductive magnitude :=
| Finite (num den : Z)
| Infinity
| NaN.

(** [m * base ^ e] as a fraction. *)
Definition scaled (m base e : Z) : magnitude :=
  if 0 <=? e then Finite (m * base ^ e) 1 else Finite m (base ^ (- e)).

Definition decimal (s : string) : option magnitude :=
  '(ds, places, rest) ← mantissa digit s;
  Some (scaled (number 10 ds) 10 (exponent "e" rest - Z.of_nat places)).

Definition hexadecimal (s : string) : option magnitude :=
  match s with
  | String "0" (String x after) =>
      if Ascii.eqb (tolower x) "x" then
        '(ds, places, rest) ← mantissa hex_digit after;
        Some (scaled (number 16 ds) 2 (exponent "p" rest - 4 * Z.of_nat places))
      else None
  | _ => None
  end.

Definition parse_magnitude (s : string) : option magnitude :=
  if prefix_nocase "inf" s then Some Infinity
  else if prefix_nocase "nan" s then Some NaN
  else match hexadecimal s with
       | Some m => Some m
       | None => decimal s
       end.

(** The binary32 pattern (sign bit clear) nearest to [num / den], ties to
    even; [None] when the conversion reports [ERANGE]: the value overflows,
    or it is tiny and not exact. *)
Definition round_binary32 (num den : Z) : option Z :=
  if num =? 0 then Some 0
  else
    let e0 := Z.log2 num - Z.log2 den in
    let below := if 0 <=? e0 then num <? den * 2 ^ e0 else num * 2 ^ (- e0) <? den in
    let e := Z.max (if below then e0 - 1 else e0) (- 126) in
    let q := e - 23 in
    let n := if 0 <=? q then num else num * 2 ^ (- q) in
    let d := if 0 <=? q then den * 2 ^ q else den in
    let m := n / d in
    let r := n mod d in
    let m' := if 2 * r <? d then m
              else if d <? 2 * r then m + 1
              else if Z.even m then m else m + 1 in
    let bits := (e + 126) * 2 ^ 23 + m' in
    if 2139095040 <=? bits then None
    else if (bits <? 2 ^ 23) && negb (r =? 0) then None
    else Some bits.

(** [std::stof(str)], as a binary32 bit pattern. *)
Definition stof (str : string) : option Z :=
  let '(negative, s) := sign (skip_spaces str) in
  let sign_bit := if negative then 2 ^ 31 else 0 in
  match parse_magnitude s with
  | None => None
  | Some Infinity => Some (sign_bit + 2139095040)
  | Some NaN => Some (sign_bit + 2143289344)
  | Some (Finite num den) => Z.add sign_bit <$> round_binary32 num den
  end.

End Strto.

(** ** Literals ([QueryParser::parseValue]) *)

(** The last lines of [parseValue]: a string that starts and ends with a
    quote loses both ([substr(1, length - 2)]). [front()] of the empty
    string reads the terminating NUL. *)
Definition unquote (str : string) : string :=
  match str with
  | String front rest =>
      let back := match rest with
                  | EmptyString => front
                  | _ => default front (last (list_ascii_of_string rest))
                  end in
      if Ascii.eqb front "'" && Ascii.eqb back "'"
      then String.substring 1 (String.length str - 2) str
      else str
  | EmptyString => str
  end.

Definition parseValue (value_str : string) : FieldValue :=
  match Strto.stoi value_str with
  | Some i => FInt i
  | None =>
      match Strto.stof value_str with
      | Some f => FFloat f
      | None =>
          if String.eqb value_str "true" || String.eqb value_str "TRUE" then FBool true
          else if String.eqb value_str "false" || String.eqb value_str "FALSE"
               then FBool false
          else FStr (unquote value_str)
      end
  end.

(** ** The parsed query ([query_parser.h], as [query_parser.cpp] uses it) *)

Inductive QueryType :=
| CREATE_DATABASE | DROP_DATABASE | USE_DATABASE | SHOW_DATABASES | SHOW_TABLES
| CREATE_TABLE | DROP_TABLE | INSERT | SELECT | UPDATE | DELETE_OP.

Module Condition.

Record t := mk {
  column : string;
  op : string;
  value : FieldValue
}.

(** The default-constructed condition. *)
Definition empty : t := mk "" "" (FInt 0).

(** [std::make_tuple(cond.column, cond.op, cond.value)]. *)
Definition tuple (c : t) : string * string * FieldValue := (column c, op c, value c).

End Condition.

Module Query.

Record t := mk {
  type : QueryType;
  error_message : string;
  database_name : string;
  table_name : string;
  columns : list (string * string * Z);
  primary_key : string;
  foreign_keys : gmap string (string * string);
  values : Rec;
  select_columns : list string;
  conditions : list Condition.t;
  condition_operators : list string;
  join_table_name : string;
  join_condition : Condition.t;
  results : list Rec;
  records_found : Z
}.

Definition empty : t :=
  mk CREATE_DATABASE "" "" "" [] "" ∅ ∅ [] [] [] "" Condition.empty [] 0.

Definition set_type (x : QueryType) (q : t) : t :=
  mk x (error_message q) (database_name q) (table_name q) (columns q) (primary_key q)
     (foreign_keys q) (values q) (select_columns q) (conditions q) (condition_operators q)
     (join_table_name q) (join_condition q) (results q) (records_found q).

Definition set_error_message (x : string) (q : t) : t :=
  mk (type q) x (database_name q) (table_name q) (columns q) (primary_key q)
     (foreign_keys q) (values q) (select_columns q) (conditions q) (condition_operators q)
     (join_table_name q) (join_condition q) (results q) (records_found q).

Definition set_database_name (x : string) (q : t) : t :=
  mk (type q) (error_message q) x (table_name q) (columns q) (primary_key q)
     (foreign_keys q) (values q) (select_columns q) (conditions q) (condition_operators q)
     (join_table_name q) (join_condition q) (results q) (records_found q).

Definition set_table_name (x : string) (q : t) : t :=
  mk (type q) (error_message q) (database_name q) x (columns q) (primary_key q)
     (foreign_keys q) (values q) (select_columns q) (conditions q) (condition_operators q)
     (join_table_name q) (join_condition q) (results q) (records_found q).

(** [columns], [primary_key] and [foreign_keys] together. *)
Definition set_table_definition (cols : list (string * string * Z)) (pk : string)
    (fks : gmap string (string * string)) (q : t) : t :=
  mk (type q) (error_message q) (database_name q) (table_name q) cols pk fks
     (values q) (select_columns q) (conditions q) (condition_operators q)
     (join_table_name q) (join_condition q) (results q) (records_found q).

Definition set_values (x : Rec) (q : t) : t :=
  mk (type q) (error_message q) (database_name q) (table_name q) (columns q) (primary_key q)
     (foreign_keys q) x (select_columns q) (conditions q) (condition_operators q)
     (join_table_name q) (join_condition q) (results q) (records_found q).

Definition set_select_columns (x : list string) (q : t) : t :=
  mk (type q) (error_message q) (database_name q) (table_name q) (columns q) (primary_key q)
     (foreign_keys q) (values q) x (conditions q) (condition_operators q)
     (join_table_name q) (join_condition q) (results q) (records_found q).

(** [conditions] and [condition_operators] together. *)
Definition set_where (conds : list Condition.t) (ops : list string) (q : t) : t :=
  mk (type q) (error_message q) (database_name q) (table_name q) (columns q) (primary_key q)
     (foreign_keys q) (values q) (select_columns q) conds ops
     (join_table_name q) (join_condition q) (results q) (records_found q).

Definition set_join_table_name (x : string) (q : t) : t :=
  mk (type q) (error_message q) (database_name q) (table_name q) (columns q) (primary_key q)
     (foreign_keys q) (values q) (select_columns q) (conditions q) (condition_operators q)
     x (join_condition q) (results q) (records_found q).

Definition set_join_condition (x : Condition.t) (q : t) : t :=
  mk (type q) (error_message q) (database_name q) (table_name q) (columns q) (primary_key q)
     (foreign_keys q) (values q) (select_columns q) (conditions q) (condition_operators q)
     (join_table_name q) x (results q) (records_found q).

(** [results] and [records_found] together. *)
Definition set_results (rs : list Rec) (n : Z) (q : t) : t :=
  mk (type q) (error_message q) (database_name q) (table_name q) (columns q) (primary_key q)
     (foreign_keys q) (values q) (select_columns q) (conditions q) (condition_operators q)
     (join_table_name q) (join_condition q) rs n.

End Query.

(** ** Tokens ([QueryParser::tokenize]) *)

(** [::toupper] over a string ([std::transform]). *)
Definition toupper (c : ascii) : ascii :=
  if (97 <=? Strto.code c) && (Strto.code c <=? 122)
  then ascii_of_N (N_of_ascii c - 32) else c.

Fixpoint upper (s : string) : string :=
  match s with
  | EmptyString => EmptyString
  | String c rest => String (toupper c) (upper rest)
  end.

(** The first loop of [tokenize] and of [parse]: carriage return, line feed
    and tab become a space; a space followed by a space is erased. *)
Fixpoint squeeze (s : string) : string :=
  match s with
  | EmptyString => EmptyString
  | String c rest =>
      if (Strto.code c =? 13) || (Strto.code c =? 10) || (Strto.code c =? 9)
      then String " " (squeeze rest)
      else if Ascii.eqb c " " && match rest with
                                 | String " " _ => true
                                 | _ => false
                                 end
           then squeeze rest
           else String c (squeeze rest)
  end.

(** "Trim leading/trailing spaces". *)
Fixpoint trim_leading (cs : list ascii) : list ascii :=
  match cs with
  | c :: rest => if Ascii.eqb c " " then trim_leading rest else cs
  | [] => []
  end.

Definition trim (s : string) : string :=
  string_of_list_ascii
    (rev (trim_leading (rev (trim_leading (list_ascii_of_string s))))).

Definition cleaned (query : string) : string := trim (squeeze query).

(** [tokens.push_back(current_token)] when the token is not empty. *)
Definition flush (tokens : list string) (current_token : string) : list string :=
  if String.eqb current_token "" then tokens else tokens ++ [current_token].

Definition is_delimiter (c : ascii) : bool :=
  Ascii.eqb c "(" || Ascii.eqb c ")" || Ascii.eqb c "," || Ascii.eqb c ";".

(** The loop "Enhanced tokenization to handle delimiters". *)
Fixpoint tokenize_from (s : string) (tokens : list string) (current_token : string)
    (in_quotes : bool) : list string :=
  match s with
  | EmptyString => flush tokens current_token
  | String c rest =>
      if Ascii.eqb c "'" then
        tokenize_from rest tokens (current_token +:+ String c "") (negb in_quotes)
      else if negb in_quotes && is_delimiter c then
        tokenize_from rest (flush tokens current_token ++ [String c ""]) "" in_quotes
      else if negb in_quotes && Strto.isspace c then
        tokenize_from rest (flush tokens current_token) "" in_quotes
      else
        tokenize_from rest tokens (current_token +:+ String c "") in_quotes
  end.

Definition tokenize (query : string) : list string :=
  tokenize_from (cleaned query) [] "" false.

(** The loop of [parse] that splits the query at the semicolons outside
    quotes. *)
Fixpoint split_commands (s : string) (commands : list string) (current_command : string)
    (in_quotes : bool) : list string :=
  match s with
  | EmptyString => flush commands current_command
  | String c rest =>
      if Ascii.eqb c "'" then
        split_commands rest commands (current_command +:+ String c "") (negb in_quotes)
      else if Ascii.eqb c ";" && negb in_quotes then
        split_commands rest (flush commands current_command) "" in_quotes
      else
        split_commands rest commands (current_command +:+ String c "") in_quotes
  end.

(** [tokens[i]]; the code reads within the size of the vector. *)
Definition token (tokens : list string) (i : nat) : string := nth i tokens "".

(** [std::find(tokens.begin(), tokens.end(), word) - tokens.begin()]. *)
Fixpoint find_token (word : string) (tokens : list string) : nat :=
  match tokens with
  | [] => 0
  | t :: rest => if String.eqb t word then 0 else S (find_token word rest)
  end.

(** ** Statement parsers ([QueryParser::parse...])

    Each parser works on [current_query] and returns whether it succeeded
    together with the query it leaves. *)

Definition fail (message : string) (q : Query.t) : bool * Query.t :=
  (false, Query.set_error_message message q).

Definition parseCreateDatabase (tokens : list string) (q : Query.t) : bool * Query.t :=
  if negb (length tokens =? 3)%nat
  then fail "Invalid CREATE DATABASE syntax: expected 'CREATE DATABASE name'" q
  else (true, Query.set_database_name (token tokens 2) q).

Definition parseDropDatabase (tokens : list string) (q : Query.t) : bool * Query.t :=
  if negb (length tokens =? 3)%nat
  then fail "Invalid DROP DATABASE syntax: expected 'DROP DATABASE name'" q
  else (true, Query.set_database_name (token tokens 2) q).

Definition parseUseDatabase (tokens : list string) (q : Query.t) : bool * Query.t :=
  if negb (length tokens =? 2)%nat
  then fail "Invalid USE DATABASE syntax: expected 'USE name'" q
  else (true, Query.set_database_name (token tokens 1) q).

Definition parseDropTable (tokens : list string) (q : Query.t) : bool * Query.t :=
  if negb (length tokens =? 3)%nat
  then fail "Invalid DROP TABLE syntax: expected 'DROP TABLE name'" q
  else (true, Query.set_table_name (token tokens 2) q).

(** *** WHERE clauses *)

Definition is_connective (word : string) : bool :=
  String.eqb word "AND" || String.eqb word "OR" || String.eqb word "NOT".

(** The loop over the tokens after WHERE: connectives go to
    [condition_operators], any other token starts a comparison of three
    tokens. The flag is [false] at "Incomplete WHERE condition". *)
Fixpoint parse_conditions (tokens : list string) (conditions : list Condition.t)
    (condition_operators : list string) : list Condition.t * list string * bool :=
  match tokens with
  | [] => (conditions, condition_operators, true)
  | t :: rest =>
      if is_connective (upper t)
      then parse_conditions rest conditions (condition_operators ++ [upper t])
      else
        match rest with
        | o :: v :: rest' =>
            parse_conditions rest'
              (conditions ++ [Condition.mk t o (parseValue v)]) condition_operators
        | _ => (conditions, condition_operators, false)
        end
  end.

(** A [size_t]. *)
Definition size_t (z : Z) : Z := z mod 2 ^ 64.

(** "Validate operator count". *)
Definition mismatched (conditions : list Condition.t) (condition_operators : list string)
  : bool :=
  let expected_ops := size_t (Z.of_nat (length conditions) - 1) in
  let not_count :=
    Z.of_nat (length (List.filter (fun o => String.eqb o "NOT") condition_operators)) in
  let ops := Z.of_nat (length condition_operators) in
  (ops <? expected_ops) || (size_t (expected_ops + not_count) <? ops).

(** "Parse WHERE conditions if present". *)
Definition parse_where (tokens : list string) (q : Query.t) : bool * Query.t :=
  let where_pos := find_token "WHERE" tokens in
  if (where_pos <? length tokens)%nat then
    let '(conditions, condition_operators, complete) :=
      parse_conditions (skipn (S where_pos) tokens) [] [] in
    let q1 := Query.set_where conditions condition_operators q in
    if negb complete then fail "Incomplete WHERE condition" q1
    else if mismatched conditions condition_operators then
      fail ("Mismatched operators (" +:+ pretty (length condition_operators)
            +:+ ") for conditions (" +:+ pretty (length conditions) +:+ ")") q1
    else (true, q1)
  else (true, q).

Definition parseDelete (tokens : list string) (q : Query.t) : bool * Query.t :=
  if (length tokens <? 3)%nat
  then fail "Invalid DELETE syntax: expected 'DELETE FROM table'" q
  else
    parse_where tokens
      (Query.set_table_name (token tokens 2) (Query.set_type DELETE_OP q)).

(** The loop "Parse SET assignments". *)
Fixpoint parse_assignments (tokens : list string) (values : Rec) : Rec :=
  match tokens with
  | [] => values
  | t :: rest =>
      if String.eqb t "WHERE" then values
      else
        match rest with
        | eq :: v :: rest' =>
            if String.eqb eq "="
            then parse_assignments rest' (<[t := parseValue v]> values)
            else parse_assignments rest values
        | _ => parse_assignments rest values
        end
  end.

Definition parseUpdate (tokens : list string) (q : Query.t) : bool * Query.t :=
  if (length tokens <? 6)%nat
  then fail "Invalid UPDATE syntax: expected 'UPDATE table SET ...'" q
  else
    let q1 := Query.set_table_name (token tokens 1) (Query.set_type UPDATE q) in
    let set_pos := find_token "SET" tokens in
    if (set_pos =? length tokens)%nat then fail "Missing SET clause" q1
    else
      parse_where tokens
        (Query.set_values (parse_assignments (skipn (S set_pos) tokens) ∅) q1).

(** *** INSERT *)

(** The loop "Collect value tokens, preserving quoted strings", from the
    token after the opening parenthesis; the flag tells whether the loop
    stopped at a closing parenthesis. *)
Fixpoint collect_values (tokens : list string) (in_quotes : bool) (current_token : string)
    (value_tokens : list string) : list string * bool :=
  match tokens with
  | [] => (flush value_tokens current_token, false)
  | tok :: rest =>
      if String.eqb tok ")" then (flush value_tokens current_token, true)
      else if String.eqb tok "," && negb in_quotes then
        collect_values rest in_quotes "" (flush value_tokens current_token)
      else if String.eqb tok "'" then
        collect_values rest (negb in_quotes) (current_token +:+ tok) value_tokens
      else
        let separated :=
          negb in_quotes
          && match rest with
             | next :: _ => negb (String.eqb next ",") && negb (String.eqb next ")")
             | [] => false
             end in
        collect_values rest in_quotes
          (if separated then current_token +:+ tok +:+ " " else current_token +:+ tok)
          value_tokens
  end.

(** The [switch] of [parseInsert] on the column type; [None] when [stoi] or
    [stof] throws. *)
Definition coerce (column_type : Column.Type_) (tok : string) : option FieldValue :=
  match column_type with
  | Column.INT => FInt <$> Strto.stoi tok
  | Column.FLOAT => FFloat <$> Strto.stof tok
  | Column.STRING | Column.CHAR => Some (FStr (unquote tok))
  | Column.BOOL =>
      Some (FBool (String.eqb tok "true" || String.eqb tok "TRUE" || String.eqb tok "1"))
  end.

(** The loop "Parse each value token" and the count check after it: the
    values bound to the columns in schema order, or the error message. *)
Fixpoint bind_values (table_name : string) (value_tokens : list string)
    (columns : list Column.t) (values : Rec) : string + Rec :=
  match value_tokens, columns with
  | [], [] => inr values
  | [], _ :: _ => inl ("Incorrect number of values for table '" +:+ table_name +:+ "'")
  | _ :: _, [] => inl ("Too many values for table '" +:+ table_name +:+ "'")
  | tok :: more, column :: columns' =>
      match coerce (Column.type column) tok with
      | Some v => bind_values table_name more columns' (<[Column.name column := v]> values)
      | None =>
          inl ("Invalid value '" +:+ tok +:+ "' for column '"
               +:+ Column.name column +:+ "'")
      end
  end.

Definition parseInsert (db : State) (tokens : list string) (q : Query.t) : bool * Query.t :=
  if (length tokens <? 6)%nat
  then fail "Invalid INSERT syntax: expected 'INSERT INTO table VALUES (...)'" q
  else
    let q1 := Query.set_table_name (token tokens 2) (Query.set_type INSERT q) in
    let schema := getTableSchema db (Query.table_name q1) in
    if String.eqb (TableSchema.name schema) "" then
      fail ("Table '" +:+ Query.table_name q1 +:+ "' does not exist") q1
    else if negb (String.eqb (token tokens 4) "(") then
      fail "Expected '(' after VALUES" q1
    else
      let '(value_tokens, closed) := collect_values (skipn 5 tokens) false "" [] in
      if negb closed then fail "Expected ')' after values" q1
      else
        match bind_values (Query.table_name q1) value_tokens
                          (TableSchema.columns schema) ∅ with
        | inl message => fail message q1
        | inr values => (true, Query.set_values values q1)
        end.

(** *** CREATE TABLE *)

(** The locals of the loop of [parseCreateTable]. *)
Record table_scan := mkScan {
  scan_pos : nat;
  scan_columns : list (string * string * Z);
  scan_primary_key : string;
  scan_foreign_keys : gmap string (string * string);
  current_col_name : string;
  current_col_type : string;
  current_col_length : Z;
  is_primary_key : bool
}.

(** "Skip comma if present". *)
Definition skip_comma (tokens : list string) (i : nat) : nat :=
  if (i <? length tokens)%nat && String.eqb (token tokens i) "," then S i else i.

(** The part of an iteration that reads a column type: an optional length,
    an optional PRIMARY KEY, the end of the column definition. *)
Definition scan_column_type (tokens : list string) (s : table_scan) (token_upper : string)
  : string + table_scan :=
  let i := scan_pos s in
  let size := length tokens in
  let sized :=
    (String.eqb token_upper "STRING" || String.eqb token_upper "CHAR")
    && (i + 3 <? size)%nat
    && String.eqb (token tokens (i + 1)) "(" && String.eqb (token tokens (i + 3)) ")" in
  match (if sized then Strto.stoi (token tokens (i + 2)) else Some (current_col_length s)) with
  | None => inl ("Invalid length for " +:+ token_upper)
  | Some col_length =>
      let i1 := if sized then (i + 4)%nat else S i in
      let keyed :=
        (i1 <? size)%nat && String.eqb (upper (token tokens i1)) "PRIMARY"
        && (i1 + 1 <? size)%nat && String.eqb (token tokens (i1 + 1)) "KEY" in
      let i2 := if keyed then (i1 + 2)%nat else i1 in
      let is_pk := keyed || is_primary_key s in
      let ends :=
        (i1 <? size)%nat && (i2 <? size)%nat
        && (String.eqb (token tokens i2) "," || String.eqb (token tokens i2) ")") in
      if ends then
        inr (mkScan (if String.eqb (token tokens i2) "," then S i2 else i2)
               (scan_columns s ++ [(current_col_name s, token_upper, col_length)])
               (if is_pk then current_col_name s else scan_primary_key s)
               (scan_foreign_keys s) "" "" 0 false)
      else
        inr (mkScan i2 (scan_columns s) (scan_primary_key s) (scan_foreign_keys s)
               (current_col_name s) token_upper col_length is_pk)
  end.

(** One iteration of the loop, entered with [i < tokens.size()] and
    [tokens[i] != ")"]. *)
Definition scan_table_token (tokens : list string) (s : table_scan) : string + table_scan :=
  let i := scan_pos s in
  let size := length tokens in
  let tok := token tokens i in
  let at_ (k : nat) : string := token tokens (i + k) in
  let moved (j : nat) : table_scan :=
    mkScan j (scan_columns s) (scan_primary_key s) (scan_foreign_keys s)
           (current_col_name s) (current_col_type s) (current_col_length s)
           (is_primary_key s) in
  if String.eqb tok "" then inr (moved (S i))
  else if String.eqb (upper tok) "PRIMARY" && (i + 3 <? size)%nat
          && String.eqb (at_ 1%nat) "KEY" && String.eqb (at_ 2%nat) "(" then
    if String.eqb (at_ 3%nat) ")" then inl "PRIMARY KEY column name missing"
    else
      inr (mkScan (skip_comma tokens (i + 5)) (scan_columns s) (at_ 3%nat)
             (scan_foreign_keys s) (current_col_name s) (current_col_type s)
             (current_col_length s) (is_primary_key s))
  else if String.eqb (upper tok) "FOREIGN" && (i + 6 <? size)%nat
          && String.eqb (at_ 1%nat) "KEY" && String.eqb (at_ 2%nat) "("
          && String.eqb (at_ 4%nat) ")" && String.eqb (at_ 5%nat) "REFERENCES" then
    let named :=
      (i + 9 <? size)%nat && String.eqb (at_ 7%nat) "(" && String.eqb (at_ 9%nat) ")" in
    let ref_column := if named then at_ 8%nat else at_ 3%nat in
    inr (mkScan (skip_comma tokens (if named then i + 10 else i + 7)%nat)
           (scan_columns s) (scan_primary_key s)
           (<[at_ 3%nat := (at_ 6%nat, ref_column)]> (scan_foreign_keys s))
           (current_col_name s) (current_col_type s) (current_col_length s)
           (is_primary_key s))
  else if String.eqb (current_col_name s) "" then
    inr (mkScan (S i) (scan_columns s) (scan_primary_key s) (scan_foreign_keys s)
           tok (current_col_type s) (current_col_length s) (is_primary_key s))
  else if String.eqb (current_col_type s) "" then scan_column_type tokens s (upper tok)
  else inr (moved (S i)).

(** The loop [while (i < tokens.size() && tokens[i] != ")")]. Every
    iteration moves [i] forward, so [fuel] above the number of tokens is
    never used up. *)
Fixpoint scan_table (fuel : nat) (tokens : list string) (s : table_scan)
  : string + table_scan :=
  match fuel with
  | O => inr s
  | S fuel' =>
      if (scan_pos s <? length tokens)%nat
         && negb (String.eqb (token tokens (scan_pos s)) ")")
      then
        match scan_table_token tokens s with
        | inl message => inl message
        | inr s' => scan_table fuel' tokens s'
        end
      else inr s
  end.

(** The position of the opening parenthesis, searched from token 3. *)
Definition open_paren (tokens : list string) : nat :=
  (3 + find_token "(" (skipn 3 tokens))%nat.

Definition parseCreateTable (tokens : list string) (q : Query.t) : bool * Query.t :=
  if (length tokens <? 4)%nat
  then fail "Invalid CREATE TABLE syntax: expected 'CREATE TABLE name (...)'" q
  else
    let q1 := Query.set_table_name (token tokens 2) (Query.set_type CREATE_TABLE q) in
    let i := open_paren tokens in
    if (length tokens <=? i)%nat then fail "Expected '(' after table name" q1
    else
      match scan_table (S (length tokens)) tokens (mkScan (S i) [] "" ∅ "" "" 0 false) with
      | inl message => fail message q1
      | inr s =>
          let pending :=
            negb (String.eqb (current_col_name s) "")
            && negb (String.eqb (current_col_type s) "") in
          let columns :=
            if pending
            then scan_columns s
                 ++ [(current_col_name s, current_col_type s, current_col_length s)]
            else scan_columns s in
          let primary_key :=
            if pending && is_primary_key s then current_col_name s
            else scan_primary_key s in
          if bool_decide (columns = []) then fail "No columns defined for table" q1
          else
            let pk_found :=
              existsb (fun col => String.eqb (fst (fst col)) primary_key) columns in
            if negb (String.eqb primary_key "") && negb pk_found then
              fail ("Primary key column '" +:+ primary_key
                    +:+ "' not found in column definitions") q1
            else
              (true, Query.set_table_definition columns primary_key
                       (scan_foreign_keys s) q1)
      end.

(** *** SELECT *)

(** [col.erase(std::remove(col.begin(), col.end(), ','), col.end())]. *)
Fixpoint remove_commas (s : string) : string :=
  match s with
  | EmptyString => EmptyString
  | String c rest => if Ascii.eqb c "," then remove_commas rest
                     else String c (remove_commas rest)
  end.

(** [s.find('.') != std::string::npos]. *)
Fixpoint has_dot (s : string) : bool :=
  match s with
  | EmptyString => false
  | String c rest => Ascii.eqb c "." || has_dot rest
  end.

(** The projection list: the tokens between SELECT and FROM without their
    commas, or [*] when none is left. *)
Definition projection (tokens : list string) (from_pos : nat) : list string :=
  let columns :=
    List.filter (fun col => negb (String.eqb col ""))
      (map remove_commas (firstn (from_pos - 1) (skipn 1 tokens))) in
  match columns with
  | [] => ["*"]
  | _ => columns
  end.

(** The JOIN part of [parseSelect]: nothing to do without the word JOIN. *)
Definition parse_join (tokens : list string) (q : Query.t) : bool * Query.t :=
  let size := length tokens in
  let join_pos := find_token "JOIN" tokens in
  if (join_pos <? size)%nat then
    if (size <=? join_pos + 1)%nat then fail "Missing join table name" q
    else
      let q1 := Query.set_join_table_name (token tokens (join_pos + 1)) q in
      let on_pos := find_token "ON" tokens in
      if (on_pos =? size)%nat then fail "Missing ON clause" q1
      else if (size <=? on_pos + 3)%nat || negb (String.eqb (token tokens (on_pos + 2)) "=")
      then fail "Invalid ON condition: expected 'table1.col = table2.col'" q1
      else
        let left_col := token tokens (on_pos + 1) in
        let right_col := token tokens (on_pos + 3) in
        if negb (has_dot left_col) || negb (has_dot right_col)
        then fail "ON condition must specify table.column" q1
        else (true, Query.set_join_condition
                      (Condition.mk left_col "=" (FStr right_col)) q1)
  else (true, q).

(** A projected column names a column of the table, bare or qualified. *)
Definition names_column (table_name : string) (schema : TableSchema.t) (col : string)
  : bool :=
  existsb (fun schema_col =>
             String.eqb (Column.name schema_col) col
             || String.eqb (table_name +:+ "." +:+ Column.name schema_col) col)
          (TableSchema.columns schema).

(** The first projected column that exists in neither table. *)
Definition unknown_column (db : State) (q : Query.t) (columns : list string)
  : option string :=
  List.find
    (fun col =>
       negb (names_column (Query.table_name q) (getTableSchema db (Query.table_name q)) col
             || (negb (String.eqb (Query.join_table_name q) "")
                 && names_column (Query.join_table_name q)
                      (getTableSchema db (Query.join_table_name q)) col)))
    columns.

Definition parseSelect (db : State) (tokens : list string) (q : Query.t) : bool * Query.t :=
  let size := length tokens in
  if (size <? 4)%nat
  then fail "Invalid SELECT syntax: expected 'SELECT ... FROM table'" q
  else
    let q1 := Query.set_type SELECT q in
    let from_pos := find_token "FROM" tokens in
    if (from_pos =? size)%nat then fail "Missing FROM clause" q1
    else
      let columns := projection tokens from_pos in
      if (size <=? from_pos + 1)%nat then fail "Missing table name after FROM" q1
      else
        let q2 := Query.set_table_name (token tokens (from_pos + 1)) q1 in
        let '(joined, q3) := parse_join tokens q2 in
        if negb joined then (false, q3)
        else if String.eqb (TableSchema.name (getTableSchema db (Query.table_name q3))) ""
        then fail ("Table '" +:+ Query.table_name q3 +:+ "' does not exist") q3
        else if negb (String.eqb (Query.join_table_name q3) "")
                && String.eqb
                     (TableSchema.name (getTableSchema db (Query.join_table_name q3))) ""
        then fail ("Join table '" +:+ Query.join_table_name q3 +:+ "' does not exist") q3
        else
          match (if String.eqb (hd "" columns) "*" then None
                 else unknown_column db q3 columns) with
          | Some col =>
              fail ("Column '" +:+ col +:+ "' does not exist in table '"
                    +:+ Query.table_name q3 +:+ "' or '"
                    +:+ Query.join_table_name q3 +:+ "'") q3
          | None => parse_where tokens (Query.set_select_columns columns q3)
          end.

(** ** [QueryParser::parse] *)

(** The parser between [parse] and [execute]: [commands] and
    [current_query]. *)
Record QueryParser := mkParser {
  commands : list string;
  current_query : Query.t
}.

(** What one command does to the loop of [parse]: go on with the new
    [all_success], or return [false] at once. *)
Definition parse_command (db : State) (tokens : list string) (all_success : bool)
    (q : Query.t) : bool * bool * Query.t :=
  let command := upper (token tokens 0) in
  let go (r : bool * Query.t) : bool * bool * Query.t :=
    (true, all_success && fst r, snd r) in
  let stop (message : string) : bool * bool * Query.t :=
    (false, false, Query.set_error_message message q) in
  let object := upper (token tokens 1) in
  if String.eqb command "CREATE" then
    if (length tokens <? 2)%nat then stop "Invalid CREATE syntax: missing object type"
    else if String.eqb object "DATABASE"
    then go (parseCreateDatabase tokens (Query.set_type CREATE_DATABASE q))
    else if String.eqb object "TABLE"
    then go (parseCreateTable tokens (Query.set_type CREATE_TABLE q))
    else stop ("Invalid CREATE syntax: unknown object '" +:+ object +:+ "'")
  else if String.eqb command "DROP" then
    if (length tokens <? 2)%nat then stop "Invalid DROP syntax: missing object type"
    else if String.eqb object "DATABASE"
    then go (parseDropDatabase tokens (Query.set_type DROP_DATABASE q))
    else if String.eqb object "TABLE"
    then go (parseDropTable tokens (Query.set_type DROP_TABLE q))
    else stop ("Invalid DROP syntax: unknown object '" +:+ object +:+ "'")
  else if String.eqb command "USE" then
    go (parseUseDatabase tokens (Query.set_type USE_DATABASE q))
  else if String.eqb command "SHOW" then
    if (length tokens <? 2)%nat then stop "Invalid SHOW syntax: missing object type"
    else if String.eqb object "DATABASES" then go (true, Query.set_type SHOW_DATABASES q)
    else if String.eqb object "TABLES" then go (true, Query.set_type SHOW_TABLES q)
    else stop ("Invalid SHOW syntax: unknown object '" +:+ object +:+ "'")
  else if String.eqb command "INSERT" then
    go (parseInsert db tokens (Query.set_type INSERT q))
  else if String.eqb command "SELECT" then
    go (parseSelect db tokens (Query.set_type SELECT q))
  else if String.eqb command "UPDATE" then
    go (parseUpdate tokens (Query.set_type UPDATE q))
  else if String.eqb command "DELETE" then
    go (parseDelete tokens (Query.set_type DELETE_OP q))
  else stop ("Unknown command: '" +:+ command +:+ "'").

(** The loop "Process each command". *)
Fixpoint parse_commands (db : State) (cmds : list string) (all_success : bool)
    (q : Query.t) : bool * Query.t :=
  match cmds with
  | [] => (all_success, q)
  | cmd :: rest =>
      match tokenize cmd with
      | [] => parse_commands db rest all_success q
      | tokens =>
          let '(continue, all_success', q') := parse_command db tokens all_success q in
          if continue then parse_commands db rest all_success' q'
          else (false, q')
      end
  end.

Definition parse (db : State) (p : QueryParser) (query_string : string)
  : bool * QueryParser :=
  let cmds := split_commands (cleaned query_string) [] "" false in
  let '(ok, q) :=
    parse_commands db cmds true (Query.set_error_message "" (current_query p)) in
  (ok, mkParser cmds q).

(** ** [QueryParser::execute] *)

(** [col.substr(col.find('.') + 1)] for a column with a dot. *)
Fixpoint after_dot (s : string) : option string :=
  match s with
  | EmptyString => None
  | String c rest => if Ascii.eqb c "." then Some rest else after_dot rest
  end.

(** The inner loop of [filterRecordsByColumns]: the projection of one
    record. *)
Fixpoint filter_record (record : Rec) (columns : list string) (filtered : Rec) : Rec :=
  match columns with
  | [] => filtered
  | col :: rest =>
      match record !! col with
      | Some v => filter_record record rest (<[col := v]> filtered)
      | None =>
          match after_dot col ≫= (fun base => record !! base) with
          | Some v => filter_record record rest (<[col := v]> filtered)
          | None => filter_record record rest filtered
          end
      end
  end.

(** [QueryParser::filterRecordsByColumns]. *)
Definition filterRecordsByColumns (records : list Rec) (columns : list string) : list Rec :=
  if bool_decide (columns = ["*"]) then records
  else
    List.filter (fun filtered => negb (bool_decide (filtered = ∅)))
      (map (fun record => filter_record record columns ∅) records).

(** The members of [DatabaseManager] that [execute] calls and whose
    definitions are not in the sources at hand: parameters of the model. *)
Record Engine := mkEngine {
  createDatabase : State -> string -> result bool;
  dropDatabase : State -> string -> result bool;
  useDatabase : State -> string -> result bool;
  dropTable : State -> string -> result bool;
  listDatabases : State -> list string;
  joinTables :
    State -> string -> string -> Condition.t -> list (string * string * FieldValue) ->
    list string -> result (list Rec);
  searchRecordsWithFilter :
    State -> string -> list (string * string * FieldValue) -> list string ->
    result (list Rec);
  updateRecordsWithFilter :
    State -> string -> Rec -> list (string * string * FieldValue) -> list string ->
    result bool;
  deleteRecordsWithFilter :
    State -> string -> list (string * string * FieldValue) -> list string -> result Z
}.

(** The locals of the loop of [execute] with the state they act on. *)
Record execution := mkExecution {
  success : bool;
  exec_results : list Rec;
  exec_records_found : Z;
  query : Query.t;
  database : State
}.

(** What one command does to the loop: go on, [return false], or no return
    at all (an exception or a crash in the engine). *)
Inductive step :=
| Continue (x : execution)
| ReturnFalse (q : Query.t) (db : State)
| Abort.

(** [success &= call; if (!success) error_message = message]. *)
Definition after_call (x : execution) (q : Query.t) (called : result bool)
    (message : string) : step :=
  match called with
  | Returned ok db =>
      let success' := success x && ok in
      Continue (mkExecution success' [] 0
                  (if success' then q else Query.set_error_message message q) db)
  | _ => Abort
  end.

(** The SELECT branch. *)
Definition execute_select (engine : Engine) (x : execution) : step :=
  let q := Query.set_type SELECT (query x) in
  let db := database x in
  let conds := map Condition.tuple (Query.conditions q) in
  let finish (found : result (list Rec)) (complain : bool) (message : string) : step :=
    match found with
    | Returned records db' =>
        let results := filterRecordsByColumns records (Query.select_columns q) in
        Continue (mkExecution (success x) results (Z.of_nat (length results))
                    (if bool_decide (results = []) && complain
                     then Query.set_error_message message q else q)
                    db')
    | _ => Abort
    end in
  if String.eqb (TableSchema.name (getTableSchema db (Query.table_name q))) "" then
    ReturnFalse
      (Query.set_error_message
         ("Table '" +:+ Query.table_name q +:+ "' does not exist") q) db
  else if negb (String.eqb (Query.join_table_name q) "") then
    if String.eqb (TableSchema.name (getTableSchema db (Query.join_table_name q))) "" then
      ReturnFalse
        (Query.set_error_message
           ("Join table '" +:+ Query.join_table_name q +:+ "' does not exist") q) db
    else
      finish (joinTables engine db (Query.table_name q) (Query.join_table_name q)
                (Query.join_condition q) conds (Query.condition_operators q))
             (negb (bool_decide (conds = [])))
             "No records match the JOIN conditions"
  else if bool_decide (Query.conditions q = []) then
    finish (getAllRecords db (Query.table_name q)) true
           ("No records found in table '" +:+ Query.table_name q +:+ "'")
  else
    finish (searchRecordsWithFilter engine db (Query.table_name q) conds
              (Query.condition_operators q))
           true
           ("No records match the WHERE conditions in table '"
            +:+ Query.table_name q +:+ "'").

(** One iteration of the loop of [execute] on the tokens of a command. *)
Definition execute_command (engine : Engine) (tokens : list string) (x0 : execution)
  : step :=
  let x := mkExecution (success x0) [] 0 (query x0) (database x0) in
  let q := query x in
  let db := database x in
  let command := upper (token tokens 0) in
  let object := upper (token tokens 1) in
  let stop (message : string) : step :=
    ReturnFalse (Query.set_error_message message q) db in
  let parsed (r : bool * Query.t) (message : string) (k : Query.t -> step) : step :=
    if fst r then k (snd r)
    else ReturnFalse (Query.set_error_message message (snd r)) db in
  if String.eqb command "CREATE" then
    if (length tokens <? 2)%nat then stop "Invalid CREATE command syntax"
    else if String.eqb object "DATABASE" then
      parsed (parseCreateDatabase tokens (Query.set_type CREATE_DATABASE q))
        "Failed to parse CREATE DATABASE command"
        (fun q' =>
           after_call x q' (createDatabase engine db (Query.database_name q'))
             ("Failed to create database '" +:+ Query.database_name q' +:+ "'"))
    else if String.eqb object "TABLE" then
      parsed (parseCreateTable tokens (Query.set_type CREATE_TABLE q))
        "Failed to parse CREATE TABLE command"
        (fun q' =>
           after_call x q'
             (createTable db (Query.table_name q') (Query.columns q')
                (Query.primary_key q') (Query.foreign_keys q'))
             ("Failed to create table '" +:+ Query.table_name q' +:+ "'"))
    else Continue x
  else if String.eqb command "DROP" then
    if (length tokens <? 2)%nat then stop "Invalid DROP command syntax"
    else if String.eqb object "DATABASE" then
      parsed (parseDropDatabase tokens (Query.set_type DROP_DATABASE q))
        "Failed to parse DROP DATABASE command"
        (fun q' =>
           after_call x q' (dropDatabase engine db (Query.database_name q'))
             ("Failed to drop database '" +:+ Query.database_name q' +:+ "'"))
    else if String.eqb object "TABLE" then
      parsed (parseDropTable tokens (Query.set_type DROP_TABLE q))
        "Failed to parse DROP TABLE command"
        (fun q' =>
           after_call x q' (dropTable engine db (Query.table_name q'))
             ("Failed to drop table '" +:+ Query.table_name q' +:+ "'"))
    else Continue x
  else if String.eqb command "USE" then
    parsed (parseUseDatabase tokens (Query.set_type USE_DATABASE q))
      "Failed to parse USE DATABASE command"
      (fun q' =>
         after_call x q' (useDatabase engine db (Query.database_name q'))
           ("Failed to use database '" +:+ Query.database_name q' +:+ "'"))
  else if String.eqb command "SHOW" then
    if (length tokens <? 2)%nat then stop "Invalid SHOW command syntax"
    else if String.eqb object "DATABASES" then
      let databases := listDatabases engine db in
      Continue (mkExecution (success x)
                  (map (fun name => <["database" := FStr name]> ∅) databases)
                  (Z.of_nat (length databases))
                  (Query.set_type SHOW_DATABASES q) db)
    else if String.eqb object "TABLES" then
      let tables := listTables db in
      Continue (mkExecution (success x)
                  (map (fun name => <["table" := FStr name]> ∅) tables)
                  (Z.of_nat (length tables))
                  (Query.set_type SHOW_TABLES q) db)
    else Continue x
  else if String.eqb command "INSERT" then
    parsed (parseInsert db tokens (Query.set_type INSERT q))
      "Failed to parse INSERT command"
      (fun q' =>
         after_call x q' (insertRecord db (Query.table_name q') (Query.values q'))
           ("Failed to insert record into table '" +:+ Query.table_name q' +:+ "'"))
  else if String.eqb command "SELECT" then execute_select engine x
  else if String.eqb command "UPDATE" then
    parsed (parseUpdate tokens (Query.set_type UPDATE q))
      "Failed to parse UPDATE command"
      (fun q' =>
         after_call x q'
           (updateRecordsWithFilter engine db (Query.table_name q') (Query.values q')
              (map Condition.tuple (Query.conditions q'))
              (Query.condition_operators q'))
           ("Failed to update records in table '" +:+ Query.table_name q' +:+ "'"))
  else if String.eqb command "DELETE" then
    parsed (parseDelete tokens (Query.set_type DELETE_OP q))
      "Failed to parse DELETE command"
      (fun q' =>
         match deleteRecordsWithFilter engine db (Query.table_name q')
                 (map Condition.tuple (Query.conditions q'))
                 (Query.condition_operators q') with
         | Returned deleted db' =>
             let success' := success x && (0 <=? deleted) in
             Continue (mkExecution success' [] deleted
                         (if success' then q'
                          else Query.set_error_message
                                 ("Failed to delete records from table '"
                                  +:+ Query.table_name q' +:+ "'") q')
                         db')
         | _ => Abort
         end)
  else Continue x.

(** The loop over [commands]. *)
Fixpoint execute_commands (engine : Engine) (cmds : list string) (x : execution) : step :=
  match cmds with
  | [] => Continue x
  | cmd :: rest =>
      match tokenize cmd with
      | [] => execute_commands engine rest x
      | tokens =>
          match execute_command engine tokens x with
          | Continue x' => execute_commands engine rest x'
          | stopped => stopped
          end
      end
  end.

(** [execute]: the value returned, the parser and the engine it leaves;
    [None] when the call does not return. *)
Definition execute (engine : Engine) (p : QueryParser) (db : State)
  : option (bool * QueryParser * State) :=
  match execute_commands engine (commands p)
          (mkExecution true [] 0 (current_query p) db) with
  | Continue x =>
      Some (success x,
            mkParser (commands p)
              (Query.set_results (exec_results x) (exec_records_found x) (query x)),
            database x)
  | ReturnFalse q db' => Some (false, mkParser (commands p) q, db')
  | Abort => None
  end.

(** ** Column type names ([QueryParser::parseColumnType]) *)

(** The type named by [type_str] in any letter case; [None] is the
    [std::runtime_error] thrown for any other name. *)
Definition parseColumnType (type_str : string) : option Column.Type_ :=
  let type := upper type_str in
  if String.eqb type "INT" then Some Column.INT
  else if String.eqb type "FLOAT" then Some Column.FLOAT
  else if String.eqb type "STRING" then Some Column.STRING
  else if String.eqb type "CHAR" then Some Column.CHAR
  else if String.eqb type "BOOL" then Some Column.BOOL
  else None.
(** ** Vocabulary of the properties *)

(** The four ordering operators. *)
Definition ordering_operators : list string := [">"; "<"; ">="; "<="].

(** [chunk] is what [saveRecord] writes for [column]: the encoding of the
    record's value, or of the typed default when the record has none. *)
Definition written_for (record : Rec) (column : Column.t) (chunk : list Z) : Prop :=
  match record !! Column.name column with
  | Some v => serializeField v column = Some chunk
  | None => serializeField (default_value (Column.type column)) column = Some chunk
  end.

(** [v] carries the alternative a column of this type stores. *)
Definition has_type (column : Column.t) (v : FieldValue) : Prop :=
  match Column.type column, v with
  | Column.INT, FInt _ => True
  | Column.FLOAT, FFloat _ => True
  | Column.STRING, FStr _ => True
  | Column.CHAR, FStr _ => True
  | Column.BOOL, FBool _ => True
  | _, _ => False
  end.

(** A schema with distinct column names and no negative length. *)
Definition well_formed (schema : TableSchema.t) : Prop :=
  NoDup (map Column.name (TableSchema.columns schema))
  /\ Forall (fun column => 0 <= Column.length column) (TableSchema.columns schema).

(** The bytes of the typed default of a column: INT 0 and FLOAT 0.0 are four
    zero bytes, the empty string of a STRING(n) column is the length [n]
    followed by [n] zero bytes, that of a CHAR(n) column [n] zero bytes,
    BOOL false one zero byte. *)
Definition default_bytes (column : Column.t) : list Z :=
  let n := Z.to_nat (Column.length column) in
  match Column.type column with
  | Column.INT | Column.FLOAT => [0; 0; 0; 0]
  | Column.STRING => Bytes.le32 (Z.of_nat n) ++ repeat 0 n
  | Column.CHAR => repeat 0 n
  | Column.BOOL => [0]
  end.

(** What [saveRecord] needs to complete: no declared length is negative,
    and every value the record gives for a column of the schema has the
    column's type. *)
Definition writable (schema : TableSchema.t) (record : Rec) : Prop :=
  Forall (fun column =>
            0 <= Column.length column
            /\ forall v, record !! Column.name column = Some v -> has_type column v)
    (TableSchema.columns schema).

(** The path of the temporary file of a rewrite. *)
Definition temp_file_path (schema : TableSchema.t) : string :=
  TableSchema.data_file_path schema +:+ ".tmp".

(** The diagnostic of a rewrite that matched nothing. *)
Definition no_record_matched : string := "No record found matching the criteria".

(** What a rewrite that matched nothing leaves behind: it returns [false],
    says so on [std::cerr], the data file and every other file but the
    temporary one are as before, the temporary file is gone, the index is
    untouched. *)
Definition nothing_matched (st : State) (schema : TableSchema.t) (r : result bool) : Prop :=
  exists st',
    r = Returned false st'
    /\ cerr st' = cerr st ++ [no_record_matched]
    /\ files st' !! TableSchema.data_file_path schema
       = files st !! TableSchema.data_file_path schema
    /\ files st' !! temp_file_path schema = None
    /\ (forall path, path <> temp_file_path schema -> files st' !! path = files st !! path)
    /\ In (Removed (temp_file_path schema)) (fs_log st')
    /\ index_files st' = index_files st
    /\ indexes st' = indexes st.

(** [record] is what [loadRecord] reads somewhere with this schema. *)
Definition loaded_with (schema : TableSchema.t) (record : Rec) : Prop :=
  exists input rest, loadRecord input schema = Some (record, rest).

(** The locals of a rewrite loop that a non-matching record leaves alone. *)
Definition same_flags (acc acc' : rewrite) : Prop :=
  found acc' = found acc
  /\ primary_key_changed acc' = primary_key_changed acc
  /\ deleted_keys acc' = deleted_keys acc.

(** The path of the tree a rebuild fills. *)
Definition index_temp_path (schema : TableSchema.t) : string :=
  TableSchema.index_file_path schema +:+ ".tmp".

(** The loop of [execute] has failed only with a message in place. *)
Definition failure_explained (x : execution) : Prop :=
  success x = false -> Query.error_message (query x) <> "".

(** The same after one command, however it ends. *)
Definition step_explained (s : step) : Prop :=
  match s with
  | Continue x => failure_explained x
  | ReturnFalse q _ => Query.error_message q <> ""
  | Abort => True
  end.

(** The index lists the records of the data file: one entry per record, in
    file order, made of the record's primary key and of its offset. *)
Definition indexes_file (schema : TableSchema.t) (content : list Z)
    (tree : BPlusTree.t) : Prop :=
  exists records,
    scan schema content = Some records
    /\ Forall2 (fun (stored_at : Z * Rec) (entry : Z * Z) =>
                  snd entry = fst stored_at
                  /\ snd stored_at !! primary_key_column schema = Some (FInt (fst entry)))
               records tree.

(** Column lengths are [int]s. *)
Definition int_lengths (schema : TableSchema.t) : Prop :=
  Forall (fun column => Column.length column < 2 ^ 31) (TableSchema.columns schema).

(** The handle an insert into the table goes through: the one registered,
    or the one [createIndex] registers. *)
Definition handle_for (st : State) (table_name : string) (schema : TableSchema.t) : string :=
  default (TableSchema.index_file_path schema) (indexes st !! table_name).

(** ** Sample tables *)

(** The column [name STRING(4)]. *)
Definition string4 : Column.t :=
  Column.mk "name" Column.STRING 4 false false "" "".

(** The table [t (id INT, v INT, PRIMARY KEY (id))]. *)
Definition id_column : Column.t := Column.mk "id" Column.INT 0 true false "" "".
Definition v_column : Column.t := Column.mk "v" Column.INT 0 false false "" "".
Definition t_schema : TableSchema.t :=
  TableSchema.mk "t" [id_column; v_column] "data/t.dat" "data/t.idx".

(** The table [log (v INT)], which has no primary key. *)
Definition log_schema : TableSchema.t :=
  TableSchema.mk "log" [v_column] "data/log.dat" "data/log.idx".

(** Both tables in the catalog, no file on disk, no index open. *)
Definition fresh : State := mkState "data/catalog.bin" [t_schema; log_schema] ∅ ∅ ∅ [] [].

(** The record [{id: k, v: x}]. *)
Definition row (k x : Z) : Rec := <["id" := FInt k]> (<["v" := FInt x]> ∅).

(** The state an operation leaves. *)
Definition after {A} (r : result A) : State :=
  match r with
  | Returned _ st | NullHandle st => st
  | Failed => fresh
  end.

(** [t] after [INSERT (1, 10)] and [INSERT (2, 20)]. *)
Definition two_rows : State :=
  after (insertRecord (after (insertRecord fresh "t" (row 1 10))) "t" (row 2 20)).

(** [t] after [INSERT (1, 10)] and [INSERT (1, 20)]: two records share the
    key 1. *)
Definition shared_key : State :=
  after (insertRecord (after (insertRecord fresh "t" (row 1 10))) "t" (row 1 20)).

(** An engine none of whose operations outside the sources at hand is
    available: each of them throws. *)
Definition unavailable : Engine :=
  mkEngine (fun _ _ => Failed) (fun _ _ => Failed) (fun _ _ => Failed) (fun _ _ => Failed)
    (fun _ => []) (fun _ _ _ _ _ _ => Failed) (fun _ _ _ _ => Failed)
    (fun _ _ _ _ _ => Failed) (fun _ _ _ _ => Failed).

(** A parser that has parsed nothing yet. *)
Definition new_parser : QueryParser := mkParser [] Query.empty.

(** The parser after [parse] has rejected an INSERT with too few values. *)
Definition rejected_insert : QueryParser :=
  snd (parse two_rows new_parser "INSERT INTO t VALUES (3)").

(** The parser and the engine [execute] leaves. *)
Definition parser_after (r : option (bool * QueryParser * State)) : QueryParser :=
  match r with
  | Some (_, p, _) => p
  | None => new_parser
  end.

Definition engine_after (r : option (bool * QueryParser * State)) : State :=
  match r with
  | Some (_, _, db) => db
  | None => fresh
  end.

(** ** Vocabulary of the further properties *)

(** The width of a record: the sum of [getFieldSize] over the columns. *)
Definition record_size (columns : list Column.t) : Z :=
  fold_right (fun column total => getFieldSize column + total) 0 columns.

(** A value that fits the bytes of its type: an [int] in the 32-bit range, a
    [float] pattern of 32 bits. *)
Definition fits (v : FieldValue) : Prop :=
  match v with
  | FInt i => - 2 ^ 31 <= i < 2 ^ 31
  | FFloat bits => 0 <= bits < 2 ^ 32
  | _ => True
  end.

(** The column stores characters. *)
Definition textual (column : Column.t) : bool :=
  match Column.type column with
  | Column.STRING | Column.CHAR => true
  | _ => false
  end.

(** What a STRING(n) or CHAR(n) column gives back for [s]: [s] cut or
    NUL-padded to [n] characters. *)
Definition padded (n : Z) (s : string) : string :=
  Bytes.to_string (Bytes.resize (Z.to_nat n) (Bytes.of_string s)).

(** What comes back for a value written to a column: the value itself, a
    string cut or padded to the declared length. *)
Definition read_back (column : Column.t) (v : FieldValue) : FieldValue :=
  match v with
  | FStr s => FStr (padded (Column.length column) s)
  | _ => v
  end.

(** The diagnostics of the storage layer. *)
Definition table_not_found (table_name : string) : string :=
  "Table '" +:+ table_name +:+ "' not found".

Definition data_file_not_found (schema : TableSchema.t) : string :=
  "Data file not found: " +:+ TableSchema.data_file_path schema.


Definition missing_primary_key (column : Column.t) : string :=
  "Record is missing primary key '" +:+ Column.name column +:+ "'".

(** The paths [createTable] gives the files of a table. *)
Definition data_path_of (st : State) (table_name : string) : string :=
  path_append (parent_path (catalog_path st)) (table_name +:+ ".dat").

Definition index_path_of (st : State) (table_name : string) : string :=
  path_append (parent_path (catalog_path st)) (table_name +:+ ".idx").

(** Two states that differ at most in what was written to [std::cerr]. *)
Definition same_storage (st st' : State) : Prop :=
  catalog st' = catalog st
  /\ indexes st' = indexes st
  /\ files st' = files st
  /\ index_files st' = index_files st
  /\ fs_log st' = fs_log st.

Definition already_exists (table_name : string) : string :=
  "Table '" +:+ table_name +:+ "' already exists".

(** The name of a column triple of [createTable]. *)
Definition triple_name (triple : string * string * Z) : string := fst (fst triple).

(** The type name of a column triple. *)
Definition triple_type (triple : string * string * Z) : string := snd (fst triple).

(** A type name [stringToColumnType] does not know: the column becomes a
    STRING column. *)
Definition defaults_to_string (type_str : string) : Prop :=
  stringToColumnType type_str = (Column.STRING, false).

(** An engine with an empty catalog and no file. *)
Definition empty_db : State := mkState "data/catalog.bin" [] ∅ ∅ ∅ [] [].

(** The tokens of a CREATE TABLE statement with a primary key. *)
Definition create_users : list string :=
  tokenize "CREATE TABLE users (id INT, age INT, PRIMARY KEY (id))".

(** The query [parseCreateTable] leaves for these tokens. *)
Definition users_query : Query.t := snd (parseCreateTable create_users Query.empty).

(** Every type name of a column list is unknown to [stringToColumnType]. *)
Definition unknown_types (columns : list (string * string * Z)) : Prop :=
  Forall (fun triple => defaults_to_string (triple_type triple)) columns.

(** A table that [loadIndexes] gives a handle: its index file is on disk, or
    one of its columns is flagged as primary key. *)
Definition indexable (st : State) (table : TableSchema.t) : Prop :=
  is_Some (index_files st !! TableSchema.index_file_path table)
  \/ is_Some (find_primary_key table).

(** A catalog with an index file on disk for [log], which has no primary
    key. *)
Definition restarted : State :=
  mkState "data/catalog.bin" [t_schema; log_schema] ∅ ∅ {["data/log.idx" := [(1, 0)]]} [] [].

(** The record an update writes back for [record]: the new values laid over
    it when it matches the key, the record itself otherwise. *)
Definition updated (key_column : string) (key_value : FieldValue) (new_values : Rec)
    (record : Rec) : Rec :=
  if matches_key key_column key_value record then new_values ∪ record else record.

(** The bytes [saveRecord] writes for a record. *)
Definition bytes_of (schema : TableSchema.t) (record : Rec) : list Z :=
  fst (saveRecord record (TableSchema.columns schema)).

(** The records a delete keeps. *)
Definition survivors (key_column : string) (key_value : FieldValue)
    (records : list (Z * Rec)) : list (Z * Rec) :=
  List.filter (fun entry => negb (matches_key key_column key_value (snd entry))) records.

(** The records of [two_rows] with their offsets. *)
Definition two_rows_records : list (Z * Rec) := [(0, row 1 10); (8, row 2 20)].

(** The SET map [v = 99]. *)
Definition set_v : Rec := {["v" := FInt 99]}.

(** The six operators [compareValues] knows. *)
Definition comparison_operators : list string := ["="; "!="; ">"; "<"; ">="; "<="].

(** A [float] holding a NaN. *)
Definition is_nan_value (v : FieldValue) : bool :=
  match v with
  | FFloat bits => Float32.is_nan bits
  | _ => false
  end.

(** A [bool] alternative. *)
Definition holds_bool (v : FieldValue) : bool :=
  match v with
  | FBool _ => true
  | _ => false
  end.

(** ** Vocabulary of the tokenizer properties *)

(** The tokens one after the other. *)
Definition glue (tokens : list string) : string := fold_right append "" tokens.

(** A string without its white space outside single quotes. *)
Fixpoint unspaced (s : string) (in_quotes : bool) : string :=
  match s with
  | EmptyString => EmptyString
  | String c rest =>
      if Ascii.eqb c "'" then String c (unspaced rest (negb in_quotes))
      else if negb in_quotes && Strto.isspace c then unspaced rest in_quotes
      else String c (unspaced rest in_quotes)
  end.

(** A string without its semicolons outside single quotes. *)
Fixpoint unseparated (s : string) (in_quotes : bool) : string :=
  match s with
  | EmptyString => EmptyString
  | String c rest =>
      if Ascii.eqb c "'" then String c (unseparated rest (negb in_quotes))
      else if Ascii.eqb c ";" && negb in_quotes then unseparated rest in_quotes
      else String c (unseparated rest in_quotes)
  end.

(** Every character of the string satisfies [p]. *)
Fixpoint all_chars (p : ascii -> bool) (s : string) : bool :=
  match s with
  | EmptyString => true
  | String c rest => p c && all_chars p rest
  end.

(** A token outside quotes: one delimiter, or a word with no delimiter and
    no white space in it. *)
Definition delimiter_or_word (tok : string) : Prop :=
  (exists c, is_delimiter c = true /\ tok = String c "")
  \/ all_chars (fun c => negb (is_delimiter c) && negb (Strto.isspace c)) tok = true.

Definition no_quote (s : string) : bool :=
  all_chars (fun c => negb (Ascii.eqb c "'")) s.

(** What a statement parser leaves in [error_message]: the message it found
    when it succeeds, a message of its own when it fails. *)
Definition parser_explained (q : Query.t) (r : bool * Query.t) : Prop :=
  if fst r then Query.error_message (snd r) = Query.error_message q
  else Query.error_message (snd r) <> ""%string.

(** The flag [all_success] of [parse] and the error message agree. *)
Definition flag_explained (all_success : bool) (q : Query.t) : Prop :=
  all_success = true <-> Query.error_message q = ""%string.

(** The words [parse_where] takes for connectives. *)
Definition connectives : list string := ["AND"; "OR"; "NOT"].

(** The number of NOT among the operators. *)
Definition count_not (operators : list string) : nat :=
  length (List.filter (fun o => String.eqb o "NOT") operators).

(** The tokens of a DELETE with two conditions. *)
Definition delete_tokens : list string := tokenize "DELETE FROM t WHERE id = 1 AND v > 2".

(** Every column of the schema has a value of its type in the record, and
    the record has no other key. *)
Definition fits_schema (schema : TableSchema.t) (record : Rec) : Prop :=
  Forall (fun column =>
            exists v, record !! Column.name column = Some v /\ has_type column v)
    (TableSchema.columns schema)
  /\ forall k, is_Some (record !! k) -> In k (map Column.name (TableSchema.columns schema)).

(** The tokens of an INSERT into [t]. *)
Definition insert_tokens : list string := tokenize "INSERT INTO t VALUES (7, 70)".

(** The value a projection shows under [col] for a record: the record's
    value for [col], or for what follows the first dot of [col]. *)
Definition shown (record : Rec) (col : string) : option FieldValue :=
  match record !! col with
  | Some v => Some v
  | None => after_dot col ≫= (fun base => record !! base)
  end.

(** [shown] is what reading back the written record [written] gives: under
    every column what was written for it. *)
Definition reads_back (schema : TableSchema.t) (written shown : Rec) : Prop :=
  Forall (fun column =>
            shown !! Column.name column
            = Some (read_back column (field_to_write written column)))
    (TableSchema.columns schema).

(** Every value written for a column of the schema fits its bytes. *)
Definition fits_columns (schema : TableSchema.t) (written : Rec) : Prop :=
  Forall (fun column => fits (field_to_write written column)) (TableSchema.columns schema).

(** The conditions [id = 2 AND v >= 20]. *)
Definition two_conditions : list condition :=
  [("id", FInt 2, "="); ("v", FInt 20, ">=")]%string.

(** ** Vocabulary of the literal properties *)

(** The decimal digits a string starts with. *)
Definition leading_digits (s : string) : list Z := fst (Strto.digits Strto.digit s).

(** The string is made of decimal digits only. *)
Definition only_digits (s : string) : Prop := snd (Strto.digits Strto.digit s) = ""%string.

(** ** Vocabulary of the SELECT properties *)

(** The table named [table_name] is in the catalog ([schema.name.empty()]
    fails). *)
Definition table_exists (db : State) (table_name : string) : Prop :=
  TableSchema.name (getTableSchema db table_name) <> ""%string.

(** [col] names a column of the table of the query or of its join table. *)
Definition column_exists (db : State) (q : Query.t) (col : string) : Prop :=
  names_column (Query.table_name q) (getTableSchema db (Query.table_name q)) col = true
  \/ (Query.join_table_name q <> ""%string
      /\ names_column (Query.join_table_name q)
           (getTableSchema db (Query.join_table_name q)) col = true).

(** The tokens of a SELECT on [t]. *)
Definition select_tokens : list string := tokenize "SELECT id, v FROM t WHERE v > 5".

(** ** Vocabulary of the index rebuild *)



(** The records a rewrite writes, each with the offset it was read at. *)
Definition rewritten (writes : Rec -> option Rec) (records : list (Z * Rec))
  : list (Z * Rec) :=
  omap (fun entry => pair (fst entry) <$> writes (snd entry)) records.






(** * Properties *)

(** Split a conjunction into its conjuncts, leaving equations alone. *)
Ltac conjuncts := repeat match goal with |- _ /\ _ => split end.

(** Case on the outcome of the [saveRecord] in hypothesis [H]; only the
    completed write survives. *)
Ltac written H :=
  match type of H with
  | context [saveRecord ?r ?cs] =>
      let bytes := fresh "bytes" in
      let ok := fresh "ok" in
      destruct (saveRecord r cs) as [bytes ok]; destruct ok; [|discriminate H]
  end.

(** Case on the tests of a statement parser, then settle what it leaves in
    the error message. *)
Ltac explained :=
  repeat match goal with
         | |- parser_explained _ (if ?b then _ else _) => destruct b
         end;
  unfold parser_explained, fail; simpl; try reflexivity; try discriminate.

(** ** Fixed-width scalars *)

Section ByteFacts.

Lemma unsigned32_le32 (v : Z) :
  Bytes.unsigned32 (Bytes.le32 v) = Z.land v (Z.ones 32).
Proof.
  unfold Bytes.unsigned32, Bytes.le32.
  change 255 with (Z.ones 8).
  apply Z.bits_inj'; intros i Hi.
  rewrite !Z.lor_spec, !Z.land_spec.
  rewrite !Z.shiftl_spec by lia.
  assert (Hbit : forall k, Z.testbit (Z.land (Z.shiftr v k) (Z.ones 8)) (i - k)
                 = Z.testbit v i && (k <=? i) && (i <? k + 8)).
  { intros k. destruct (Z.leb_spec k i).
    - rewrite Z.land_spec, Z.shiftr_spec, Z.sub_add by lia.
      rewrite Z.testbit_ones_nonneg by lia.
      destruct (Z.ltb_spec (i - k) 8), (Z.ltb_spec i (k + 8)); try lia;
        now rewrite ?andb_true_r, ?andb_false_r.
    - rewrite Z.testbit_neg_r by lia. now rewrite andb_false_r. }
  rewrite !Hbit. rewrite !Z.testbit_ones_nonneg by lia.
  destruct (Z.testbit v i); simpl; [|reflexivity].
  destruct (Z.ltb_spec i 8), (Z.leb_spec 8 i), (Z.ltb_spec i (8+8)), (Z.leb_spec 16 i),
    (Z.ltb_spec i (16+8)), (Z.leb_spec 24 i), (Z.ltb_spec i (24+8)), (Z.ltb_spec i 32);
    simpl; try reflexivity; lia.
Qed.

(** An [int] survives the trip through its four bytes. *)
Lemma signed32_le32 (v : Z) :
  - 2 ^ 31 <= v < 2 ^ 31 -> Bytes.signed32 (Bytes.le32 v) = v.
Proof.
  intros Hv. unfold Bytes.signed32. rewrite unsigned32_le32.
  rewrite Z.land_ones by lia.
  destruct (Z.testbit (v mod 2 ^ 32) 31) eqn:Hbit.
  - destruct (Z.ltb_spec v 0) as [Hneg|Hpos].
    + rewrite <- (Z.mod_unique v (2 ^ 32) (-1) (v + 2 ^ 32)); lia.
    + rewrite Z.mod_small in Hbit by lia.
      rewrite Z.testbit_eqb, Z.div_small in Hbit by lia. discriminate.
  - destruct (Z.ltb_spec v 0) as [Hneg|Hpos].
    + rewrite <- (Z.mod_unique v (2 ^ 32) (-1) (v + 2 ^ 32)) in Hbit by lia.
      rewrite Z.testbit_eqb in Hbit by lia.
      replace ((v + 2 ^ 32) / 2 ^ 31) with 1 in Hbit; [discriminate|].
      apply (Z.div_unique_pos _ _ 1 (v + 2 ^ 31)); lia.
    + apply Z.mod_small; lia.
Qed.

Lemma length_le32 (v : Z) : length (Bytes.le32 v) = 4%nat.
Proof. reflexivity. Qed.

Lemma length_resize (n : nat) (bs : list Z) : length (Bytes.resize n bs) = n.
Proof.
  unfold Bytes.resize. rewrite length_app, length_firstn, repeat_length. lia.
Qed.

Lemma read_app (n : nat) (bs rest : list Z) :
  length bs = n -> Bytes.read n (bs ++ rest) = Some (bs, rest).
Proof.
  intros <-. unfold Bytes.read.
  rewrite length_app.
  destruct (Nat.leb_spec (length bs) (length bs + length rest)); [|lia].
  now rewrite take_app_length, drop_app_length.
Qed.

End ByteFacts.

(** ** Field widths *)

(** Every value written for a column takes [getFieldSize] bytes: records
    have a fixed width. *)
Lemma serializeField_size (v : FieldValue) (column : Column.t) (chunk : list Z) :
  serializeField v column = Some chunk ->
  Z.of_nat (length chunk) = getFieldSize column.
Proof.
  unfold serializeField, getFieldSize, size_of_int.
  destruct (Column.type column), v; try discriminate.
  - intros [= <-]. reflexivity.
  - intros [= <-]. reflexivity.
  - destruct (Z.ltb_spec (Column.length column) 0); [discriminate|].
    intros [= <-].
    cbn [length]. rewrite length_firstn, !length_resize. lia.
  - destruct (Z.ltb_spec (Column.length column) 0); [discriminate|].
    intros [= <-]. rewrite length_firstn, length_resize. lia.
  - intros [= <-]. reflexivity.
Qed.

(** ** C2: the encoding of a STRING(n) column *)

(** C2, as the code has it. For every string [v] written to a STRING(n)
    column ([0 <= n < 2^31]) the bytes on disk are a 4-byte length prefix
    followed by exactly [n] payload bytes, the value truncated or NUL-padded
    to [n]; the prefix always holds [n], the declared length, whatever the
    length of [v]; [deserializeField] reads the prefix and the [n] bytes
    back. *)
Theorem string_column_encoding (v : string) (column : Column.t) :
  Column.type column = Column.STRING ->
  0 <= Column.length column < 2 ^ 31 ->
  let n := Z.to_nat (Column.length column) in
  let payload := Bytes.resize n (Bytes.of_string v) in
  serializeField (FStr v) column = Some (Bytes.le32 (Column.length column) ++ payload)
  /\ Bytes.signed32 (Bytes.le32 (Column.length column)) = Column.length column
  /\ length payload = n
  /\ payload = firstn n (Bytes.of_string v)
               ++ repeat 0 (n - length (Bytes.of_string v))
  /\ forall rest,
       deserializeField (Bytes.le32 (Column.length column) ++ payload ++ rest) column
       = Some (FStr (Bytes.to_string payload), rest).
Proof.
  intros Hty Hlen n payload.
  assert (Hsize : size_of_int (Column.length column) = Some n).
  { unfold size_of_int. destruct (Z.ltb_spec (Column.length column) 0); [lia|reflexivity]. }
  assert (Hpl : length payload = n) by apply length_resize.
  assert (Hrt : Bytes.signed32 (Bytes.le32 (Column.length column)) = Column.length column)
    by (apply signed32_le32; lia).
  repeat split; try assumption.
  - unfold serializeField. rewrite Hty, Hsize. fold payload.
    rewrite Hpl, Nat2Z.id.
    replace (Z.of_nat n) with (Column.length column) by (unfold n; lia).
    now rewrite <- Hpl, firstn_all.
  - intros rest. unfold deserializeField. rewrite Hty.
    rewrite (read_app 4 (Bytes.le32 (Column.length column))) by reflexivity.
    simpl. rewrite Hrt, Hsize. simpl.
    rewrite (read_app n payload rest Hpl). reflexivity.
Qed.

Lemma string_column_encoding_witness :
  serializeField (FStr "ab") string4 = Some (Bytes.le32 4 ++ [97; 98; 0; 0])
  /\ Bytes.signed32 (Bytes.le32 4) = 4.
Proof.
  destruct (string_column_encoding "ab" string4) as (H1 & H2 & _).
  - reflexivity.
  - simpl. lia.
  - split; [exact H1 | exact H2].
Defined.

(** C2 as stated fails: for ["ab"] in a STRING(4) column the prefix on disk
    holds 4, not [min 2 4 = 2]. *)
Lemma string_prefix_is_declared_length :
  serializeField (FStr "ab") string4 = Some ([4; 0; 0; 0] ++ [97; 98; 0; 0])
  /\ Bytes.le32 (Z.min (Z.of_nat (String.length "ab")) (Column.length string4))
     = [2; 0; 0; 0]
  /\ serializeField (FStr "ab") string4
     <> Some (Bytes.le32 (Z.min (Z.of_nat (String.length "ab")) (Column.length string4))
              ++ [97; 98; 0; 0]).
Proof.
  split; [reflexivity|]. split; [reflexivity|]. discriminate.
Qed.

(** ** C3: comparison of field values *)

(** [std::string] ordering is lexicographic on the character codes. *)
Lemma string_compare_lexicographic (c1 c2 : ascii) (s1 s2 : string) :
  String.compare (String c1 s1) (String c2 s2)
  = match N.compare (N_of_ascii c1) (N_of_ascii c2) with
    | Eq => String.compare s1 s2
    | o => o
    end.
Proof. reflexivity. Qed.

(** C3. Two values whose tags differ compare false under every operator
    (and [compareValues], a total function, raises nothing); with equal tags
    the ordering operators are the order of [int], the IEEE order of [float]
    and the lexicographic order of strings, and are false on booleans. *)
Theorem compareValues_by_tag :
  (forall (l r : FieldValue) (op : string),
      index l <> index r -> compareValues l r op = false)
  /\ (forall a b : Z,
         compareValues (FInt a) (FInt b) ">" = (a >? b)
         /\ compareValues (FInt a) (FInt b) "<" = (a <? b)
         /\ compareValues (FInt a) (FInt b) ">=" = (a >=? b)
         /\ compareValues (FInt a) (FInt b) "<=" = (a <=? b))
  /\ (forall a b : Z,
         compareValues (FFloat a) (FFloat b) ">" = Float32.ltb b a
         /\ compareValues (FFloat a) (FFloat b) "<" = Float32.ltb a b
         /\ compareValues (FFloat a) (FFloat b) ">=" = Float32.leb b a
         /\ compareValues (FFloat a) (FFloat b) "<=" = Float32.leb a b)
  /\ (forall a b : string,
         (compareValues (FStr a) (FStr b) ">" = true <-> String.compare b a = Lt)
         /\ (compareValues (FStr a) (FStr b) "<" = true <-> String.compare a b = Lt)
         /\ (compareValues (FStr a) (FStr b) ">=" = true <-> String.compare b a <> Gt)
         /\ (compareValues (FStr a) (FStr b) "<=" = true <-> String.compare a b <> Gt))
  /\ (forall (a b : bool) (op : string),
         In op ordering_operators -> compareValues (FBool a) (FBool b) op = false).
Proof.
  split; [|split; [|split; [|split]]].
  - intros l r op Hne. unfold compareValues.
    destruct (Nat.eqb_spec (index l) (index r)); [contradiction|reflexivity].
  - intros a b. repeat split; reflexivity.
  - intros a b. repeat split; reflexivity.
  - intros a b. unfold compareValues; simpl.
    unfold String.ltb, String.leb.
    repeat split; try (destruct (String.compare _ _); congruence);
      destruct (String.compare _ _); intros; congruence.
  - intros a b op Hop. simpl in Hop.
    destruct Hop as [<-|[<-|[<-|[<-|[]]]]]; reflexivity.
Qed.

Lemma compareValues_by_tag_witness :
  compareValues (FInt 1) (FStr "1") "=" = false
  /\ compareValues (FBool true) (FBool false) ">" = false.
Proof.
  destruct compareValues_by_tag as (Hcross & _ & _ & _ & Hbool).
  split.
  - apply Hcross. simpl. lia.
  - apply Hbool. simpl. auto.
Defined.

(** ** C1: insertion, defaults and the primary key *)

Section SaveRecordFacts.

Variable record : Rec.

Lemma saveRecord_chunks (columns : list Column.t) (bytes : list Z) :
  saveRecord record columns = (bytes, true) ->
  exists chunks, bytes = concat chunks /\ Forall2 (written_for record) columns chunks.
Proof.
  revert bytes. induction columns as [|column rest IH]; intros bytes Hsave.
  - inversion Hsave. exists []. split; [reflexivity|constructor].
  - simpl in Hsave.
    destruct (serializeField (field_to_write record column) column) as [chunk|] eqn:Hser;
      [|discriminate].
    destruct (saveRecord record rest) as [more ok] eqn:Hrest.
    inversion Hsave; subst.
    destruct (IH more eq_refl) as (chunks & -> & Hall).
    exists (chunk :: chunks). split; [reflexivity|].
    constructor; [|exact Hall].
    unfold written_for. unfold field_to_write in Hser.
    destruct (record !! Column.name column); exact Hser.
Qed.

End SaveRecordFacts.

Lemma files_ensure_index (table_name : string) (schema : TableSchema.t) (st : State) :
  files (ensure_index table_name schema st) = files st.
Proof.
  unfold ensure_index, createIndex, open_tree.
  destruct (indexes st !! table_name); [reflexivity|].
  destruct (find_primary_key schema); [|reflexivity].
  destruct (index_files st !! TableSchema.index_file_path schema); reflexivity.
Qed.

Lemma find_table_name (tables : list TableSchema.t) (table_name : string)
    (schema : TableSchema.t) :
  find_table tables table_name = Some schema -> TableSchema.name schema = table_name.
Proof.
  unfold find_table. intros Hfind.
  apply find_some in Hfind. destruct Hfind as [_ Heq].
  now apply String.eqb_eq.
Qed.

Lemma ensure_index_present (st : State) (table_name : string) (schema : TableSchema.t)
    (column : Column.t) :
  TableSchema.name schema = table_name ->
  find_primary_key schema = Some column ->
  is_Some (indexes (ensure_index table_name schema st) !! table_name).
Proof.
  intros Hname Hpk. unfold ensure_index.
  destruct (indexes st !! table_name) as [handle|] eqn:Hidx.
  - rewrite Hidx. eauto.
  - unfold createIndex. rewrite Hpk, Hname. simpl.
    rewrite lookup_insert_eq. eauto.
Qed.

Lemma ensure_index_absent (st : State) (table_name : string) (schema : TableSchema.t) :
  find_primary_key schema = None ->
  indexes st !! table_name = None ->
  indexes (ensure_index table_name schema st) !! table_name = None.
Proof.
  intros Hpk Hidx. unfold ensure_index. rewrite Hidx.
  unfold createIndex. rewrite Hpk. exact Hidx.
Qed.

(** The encodings of the typed defaults. *)
Lemma default_encodings (column : Column.t) (n : nat) :
  size_of_int (Column.length column) = Some n ->
  serializeField (default_value (Column.type column)) column
  = Some match Column.type column with
         | Column.INT | Column.FLOAT => [0; 0; 0; 0]
         | Column.STRING => Bytes.le32 (Z.of_nat n) ++ repeat 0 n
         | Column.CHAR => repeat 0 n
         | Column.BOOL => [0]
         end.
Proof.
  intros Hn. unfold serializeField.
  destruct (Column.type column); simpl; try reflexivity; rewrite Hn.
  - unfold Bytes.resize. simpl. rewrite firstn_nil, Nat.sub_0_r. simpl.
    rewrite repeat_length, Nat2Z.id.
    now rewrite (firstn_all2 (repeat 0 n)) by (rewrite repeat_length; lia).
  - unfold Bytes.resize. simpl. rewrite firstn_nil, Nat.sub_0_r. simpl.
    now rewrite (firstn_all2 (repeat 0 n)) by (rewrite repeat_length; lia).
Qed.

Lemma serializeField_has_type (column : Column.t) (v : FieldValue) :
  has_type column v -> 0 <= Column.length column -> is_Some (serializeField v column).
Proof.
  unfold has_type, serializeField, size_of_int. intros Hty Hlen.
  destruct (Z.ltb_spec (Column.length column) 0); [lia|].
  destruct (Column.type column), v; try contradiction; eauto.
Qed.

Lemma has_type_default (column : Column.t) :
  has_type column (default_value (Column.type column)).
Proof. unfold has_type. now destruct (Column.type column). Qed.

Lemma saveRecord_writable (schema : TableSchema.t) (record : Rec) :
  writable schema record ->
  exists bytes, saveRecord record (TableSchema.columns schema) = (bytes, true).
Proof.
  unfold writable. induction (TableSchema.columns schema) as [|column more IH]; intros Hall.
  - exists []. reflexivity.
  - inversion Hall as [|? ? [Hlen Hty] Hmore]; subst.
    destruct (IH Hmore) as [bytes Hbytes].
    assert (Hfield : has_type column (field_to_write record column)).
    { unfold field_to_write. destruct (record !! Column.name column) as [v|] eqn:Hv.
      - now apply Hty.
      - apply has_type_default. }
    destruct (serializeField_has_type column _ Hfield Hlen) as [chunk Hchunk].
    exists (chunk ++ bytes). simpl. now rewrite Hchunk, Hbytes.
Qed.

(** The chunk written for a column the record has no value for. *)
Lemma written_for_absent (record : Rec) (column : Column.t) (chunk : list Z) :
  0 <= Column.length column ->
  written_for record column chunk ->
  record !! Column.name column = None ->
  chunk = default_bytes column.
Proof.
  intros Hlen Hwritten Hnone. unfold written_for in Hwritten. rewrite Hnone in Hwritten.
  assert (Hn : size_of_int (Column.length column) = Some (Z.to_nat (Column.length column))).
  { unfold size_of_int. now destruct (Z.ltb_spec (Column.length column) 0); [lia|]. }
  rewrite (default_encodings column _ Hn) in Hwritten.
  inversion Hwritten. reflexivity.
Qed.

Lemma defaults_of_chunks (record : Rec) (columns : list Column.t) (chunks : list (list Z)) :
  Forall (fun column => 0 <= Column.length column) columns ->
  Forall2 (written_for record) columns chunks ->
  Forall2 (fun column chunk =>
             record !! Column.name column = None -> chunk = default_bytes column)
    columns chunks.
Proof.
  intros Hlen Hall. induction Hall as [|column chunk columns chunks Hone Hall IH].
  - constructor.
  - inversion Hlen; subst. constructor; [|now apply IH].
    now apply written_for_absent.
Qed.

Lemma content_of_ensure_index (path table_name : string) (schema : TableSchema.t)
    (st : State) :
  content_of path (ensure_index table_name schema st) = content_of path st.
Proof. unfold content_of. now rewrite files_ensure_index. Qed.

(** An insert whose key was found, whose stream opened and whose record was
    saved: the record's bytes are at the end of the data file and the index
    step runs with the offset the stream reported. *)
Lemma insertRecord_on_saved
    (io : Stream) (st : State) (table_name : string) (record : Rec) (schema : TableSchema.t)
    (k : Z) (bytes : list Z) :
  find_table (catalog st) table_name = Some schema ->
  check_primary_key schema record = KeyValue k ->
  opens io (TableSchema.data_file_path schema) = true ->
  saveRecord record (TableSchema.columns schema) = (bytes, true) ->
  insertRecord_on io st table_name record
  = index_record table_name k
      (int_of_pos (tellp io (content_of (TableSchema.data_file_path schema) st)))
      (set_files
         (<[TableSchema.data_file_path schema
            := content_of (TableSchema.data_file_path schema) st ++ bytes]>)
         (ensure_index table_name schema st)).
Proof.
  intros Hfind Hkey Hopen Hsave.
  unfold insertRecord_on. rewrite Hfind, Hkey, Hopen. cbn [negb].
  unfold append_record. rewrite Hsave.
  now rewrite content_of_ensure_index.
Qed.

(** C1. For an insert into a table of the catalog, on any stream. When the
    key check passes, the stream opens and the record's values have the
    types of their columns, the insert completes (it returns [true] on a
    table with a primary-key column) and the data file has grown by one
    chunk per schema column, in schema order; the chunk of a column absent
    from the record is the encoding of the typed default (INT 0, FLOAT 0.0,
    STRING/CHAR the empty string padded to the declared length, BOOL
    false). When the primary-key column is absent from the record the insert
    returns [false], says so on [std::cerr] and leaves every file, index
    file and handle as it was. *)
Theorem insertRecord_defaults_and_key
    (io : Stream) (st : State) (table_name : string) (record : Rec)
    (schema : TableSchema.t) :
  find_table (catalog st) table_name = Some schema ->
  (forall k,
      check_primary_key schema record = KeyValue k ->
      writable schema record ->
      opens io (TableSchema.data_file_path schema) = true ->
      exists st' chunks,
        (insertRecord_on io st table_name record = Returned true st'
         \/ insertRecord_on io st table_name record = NullHandle st')
        /\ (find_primary_key schema <> None ->
            insertRecord_on io st table_name record = Returned true st')
        /\ files st' !! TableSchema.data_file_path schema
           = Some (content_of (TableSchema.data_file_path schema) st ++ concat chunks)
        /\ Forall2 (written_for record) (TableSchema.columns schema) chunks
        /\ Forall2 (fun column chunk =>
                      record !! Column.name column = None -> chunk = default_bytes column)
             (TableSchema.columns schema) chunks)
  /\ (forall column,
        find_primary_key schema = Some column ->
        record !! Column.name column = None ->
        exists st',
          insertRecord_on io st table_name record = Returned false st'
          /\ st' = report (missing_primary_key column) st
          /\ files st' = files st
          /\ index_files st' = index_files st
          /\ indexes st' = indexes st).
Proof.
  intros Hfind. pose proof (find_table_name _ _ _ Hfind) as Hname. split.
  - intros k Hkey Hwritable Hopen.
    destruct (saveRecord_writable schema record Hwritable) as [bytes Hsave].
    destruct (saveRecord_chunks record _ _ Hsave) as (chunks & -> & Hall).
    rewrite (insertRecord_on_saved io st table_name record schema k _ Hfind Hkey Hopen Hsave).
    assert (Hlen : Forall (fun column => 0 <= Column.length column)
                     (TableSchema.columns schema)).
    { eapply Forall_impl; [exact Hwritable|]. now intros column [H _]. }
    pose proof (defaults_of_chunks record _ _ Hlen Hall) as Hdefaults.
    unfold index_record.
    destruct (indexes _ !! table_name) as [handle|] eqn:Hhandle.
    + eexists _, chunks. split; [left; reflexivity|].
      split; [reflexivity|]. split; [|split; assumption].
      simpl. apply lookup_insert_eq.
    + eexists _, chunks. split; [right; reflexivity|].
      split; [|split; [|split; assumption]].
      * intros Hpk. destruct (find_primary_key schema) as [column|] eqn:Hcolumn;
          [|contradiction].
        destruct (ensure_index_present st table_name schema column Hname Hcolumn)
          as [handle Hsome].
        simpl in Hhandle. rewrite Hsome in Hhandle. discriminate.
      * simpl. apply lookup_insert_eq.
  - intros column Hpk Hmissing. unfold insertRecord_on. rewrite Hfind.
    unfold check_primary_key. rewrite Hpk, Hmissing.
    eexists. split; [reflexivity|]. repeat split.
Qed.

Lemma insertRecord_defaults_and_key_witness :
  (exists st' chunks,
      insertRecord_on at_end fresh "t" (<["id" := FInt 7]> ∅) = Returned true st'
      /\ files st' !! "data/t.dat" = Some (concat chunks)
      /\ Forall2 (fun column chunk =>
                    (<["id" := FInt 7]> ∅ : Rec) !! Column.name column = None ->
                    chunk = default_bytes column)
           [id_column; v_column] chunks)
  /\ exists st',
      insertRecord_on at_end fresh "t" (<["v" := FInt 5]> ∅) = Returned false st'
      /\ files st' = files fresh.
Proof.
  destruct (insertRecord_defaults_and_key at_end fresh "t" (<["id" := FInt 7]> ∅)
              t_schema eq_refl) as [Hwritten _].
  destruct (insertRecord_defaults_and_key at_end fresh "t" (<["v" := FInt 5]> ∅)
              t_schema eq_refl) as [_ Hkey].
  split.
  - destruct (Hwritten 7 eq_refl) as (st' & chunks & _ & Htrue & Hfile & _ & Hdefaults).
    + unfold writable. simpl.
      constructor; [split; [vm_compute; discriminate|]
                   |constructor; [split; [vm_compute; discriminate|]|constructor]].
      * intros v Hv. vm_compute in Hv. inversion Hv. exact I.
      * intros v Hv. vm_compute in Hv. discriminate.
    + reflexivity.
    + exists st', chunks. split; [apply Htrue; discriminate|].
      split; [exact Hfile|exact Hdefaults].
  - destruct (Hkey id_column eq_refl eq_refl) as (st' & Hret & _ & Hfiles & _).
    exists st'. split; assumption.
Defined.

(** ** C10: the index handle on the insert path *)

(** C10. For a table of the catalog whose primary-key column has type INT,
    a handle for the table is present once "Ensure the index exists" has run
    (it is created there when absent), so the insert never goes through a
    missing handle. For a table without primary-key column and without a
    handle, that step creates none, and an insert whose record is written
    reaches the index step with no handle for the table. *)
Theorem insert_index_handle
    (st : State) (table_name : string) (record : Rec) (schema : TableSchema.t) :
  find_table (catalog st) table_name = Some schema ->
  (forall column,
      find_primary_key schema = Some column ->
      Column.type column = Column.INT ->
      is_Some (indexes (ensure_index table_name schema st) !! table_name)
      /\ forall st', insertRecord st table_name record <> NullHandle st')
  /\ (find_primary_key schema = None ->
      indexes st !! table_name = None ->
      indexes (ensure_index table_name schema st) !! table_name = None
      /\ forall bytes,
          saveRecord record (TableSchema.columns schema) = (bytes, true) ->
          exists st',
            insertRecord st table_name record = NullHandle st'
            /\ indexes st' !! table_name = None
            /\ files st' !! TableSchema.data_file_path schema
               = Some (content_of (TableSchema.data_file_path schema) st ++ bytes)).
Proof.
  intros Hfind. pose proof (find_table_name _ _ _ Hfind) as Hname. split.
  - intros column Hpk Hty.
    pose proof (ensure_index_present st table_name schema column Hname Hpk) as Hsome.
    split; [exact Hsome|].
    intros st'. unfold insertRecord, insertRecord_on. rewrite Hfind.
    destruct (check_primary_key schema record); try discriminate.
    cbn [at_end opens negb]. unfold append_record.
    destruct (saveRecord record (TableSchema.columns schema)) as [bytes ok].
    destruct ok; [|discriminate].
    unfold index_record. simpl.
    destruct Hsome as [handle Hhandle]. rewrite Hhandle. discriminate.
  - intros Hpk Hidx.
    pose proof (ensure_index_absent st table_name schema Hpk Hidx) as Hnone.
    split; [exact Hnone|].
    intros bytes Hsave. unfold insertRecord, insertRecord_on. rewrite Hfind.
    unfold check_primary_key. rewrite Hpk.
    cbn [at_end opens negb]. unfold append_record. rewrite Hsave.
    unfold index_record. simpl. rewrite Hnone.
    eexists. split; [reflexivity|]. simpl. split; [exact Hnone|].
    rewrite lookup_insert_eq. unfold content_of.
    now rewrite files_ensure_index.
Qed.

Lemma insert_index_handle_witness :
  is_Some (indexes (ensure_index "t" t_schema fresh) !! "t")
  /\ exists st',
      insertRecord fresh "log" (<["v" := FInt 5]> ∅) = NullHandle st'
      /\ indexes st' !! "log" = None.
Proof.
  destruct (insert_index_handle fresh "t" (row 1 2) t_schema eq_refl) as (Hpk & _).
  destruct (insert_index_handle fresh "log" (<["v" := FInt 5]> ∅) log_schema eq_refl)
    as (_ & Hnone).
  split.
  - apply (Hpk id_column eq_refl eq_refl).
  - destruct (Hnone eq_refl eq_refl) as (_ & Hrun).
    destruct (Hrun (Bytes.le32 5) eq_refl) as (st' & Hres & Hidx & _).
    exists st'. split; assumption.
Defined.

(** ** C5: when the filtered search uses the index *)

Lemma filter_Forall {A} (f : A -> bool) (l : list A) :
  Forall (fun x => f x = true) (List.filter f l).
Proof.
  apply List.Forall_forall. intros x Hx.
  now apply List.filter_In in Hx.
Qed.

(** C5. For a filtered search on a table of the catalog whose data file
    exists: the index is used exactly when the condition list is not empty,
    its first condition is [primary key column = integer literal] and the
    table has an index handle; the search then returns the records found at
    the offsets the index gives for that key, kept only when they satisfy all
    the remaining conditions; otherwise it scans the file and keeps the
    records that satisfy all the conditions. *)
Theorem index_fast_path
    (st : State) (table_name : string) (conditions : list condition)
    (schema : TableSchema.t) (content : list Z) :
  find_table (catalog st) table_name = Some schema ->
  files st !! TableSchema.data_file_path schema = Some content ->
  (useIndex st schema table_name conditions = true
   <-> conditions <> []
       /\ (exists key others,
              conditions = (primary_key_column schema, FInt key, "=") :: others)
       /\ is_Some (indexes st !! table_name))
  /\ (forall key others handle,
         conditions = (primary_key_column schema, FInt key, "=") :: others ->
         indexes st !! table_name = Some handle ->
         searchRecordsAdvanced st table_name conditions
         = of_option st
             (records ← mapM (fun offset => load_at content offset schema)
                             (BPlusTree.search key (tree_of handle st));
              Some (List.filter (fun record => forallb (condition_holds record) others)
                                records))
         /\ forall results st',
             searchRecordsAdvanced st table_name conditions = Returned results st' ->
             Forall (fun record => forallb (condition_holds record) others = true) results)
  /\ (useIndex st schema table_name conditions = false ->
      searchRecordsAdvanced st table_name conditions
      = of_option st
          (records ← scan schema content;
           Some (List.filter (fun record => forallb (condition_holds record) conditions)
                             (map snd records)))).
Proof.
  intros Hfind Hfile. split; [|split].
  - unfold useIndex. split.
    + destruct conditions as [|[[col val] op] others]; [discriminate|].
      intros Huse.
      apply andb_prop in Huse as [Huse Hidx].
      apply andb_prop in Huse as [Huse Hint].
      apply andb_prop in Huse as [Hcol Hop].
      apply String.eqb_eq in Hcol, Hop. subst col op.
      destruct val; try discriminate.
      apply bool_decide_eq_true in Hidx.
      split; [discriminate|]. split; [|exact Hidx]. eauto.
    + intros (_ & (key & others & ->) & Hidx).
      rewrite !String.eqb_refl. simpl.
      now apply bool_decide_eq_true.
  - intros key others handle -> Hidx.
    assert (Heq : searchRecordsAdvanced st table_name
                    ((primary_key_column schema, FInt key, "=") :: others)
                  = of_option st
                      (records ← mapM (fun offset => load_at content offset schema)
                                 (BPlusTree.search key (tree_of handle st));
                       Some (List.filter
                               (fun record => forallb (condition_holds record) others)
                               records))).
    { unfold searchRecordsAdvanced. rewrite Hfind, Hfile.
      unfold useIndex, advanced_by_index. rewrite Hidx, !String.eqb_refl.
      reflexivity. }
    split; [exact Heq|].
    intros results st' Hres. rewrite Heq in Hres.
    destruct (mapM _ _) as [records|]; simpl in Hres; [|discriminate].
    inversion Hres; subst. apply filter_Forall.
  - intros Huse. unfold searchRecordsAdvanced.
    rewrite Hfind, Hfile, Huse. reflexivity.
Qed.

Lemma index_fast_path_witness :
  useIndex two_rows t_schema "t" [("id", FInt 2, "="); ("v", FInt 20, ">=")] = true
  /\ searchRecordsAdvanced two_rows "t" [("id", FInt 2, "="); ("v", FInt 20, ">=")]
     = Returned [row 2 20] two_rows
  /\ searchRecordsAdvanced two_rows "t" [("id", FInt 2, "="); ("v", FInt 20, "<")]
     = Returned [] two_rows.
Proof.
  split; [|split].
  - destruct (index_fast_path two_rows "t" [("id", FInt 2, "="); ("v", FInt 20, ">=")]
                t_schema (content_of "data/t.dat" two_rows) eq_refl eq_refl)
      as (Huse & _).
    apply Huse. split; [discriminate|]. split; [|vm_compute; eauto].
    exists 2, [("v", FInt 20, ">=")]. reflexivity.
  - destruct (index_fast_path two_rows "t" [("id", FInt 2, "="); ("v", FInt 20, ">=")]
                t_schema (content_of "data/t.dat" two_rows) eq_refl eq_refl)
      as (_ & Hfast & _).
    destruct (Hfast 2 [("v", FInt 20, ">=")] "data/t.idx" eq_refl eq_refl) as [Heq _].
    rewrite Heq. reflexivity.
  - destruct (index_fast_path two_rows "t" [("id", FInt 2, "="); ("v", FInt 20, "<")]
                t_schema (content_of "data/t.dat" two_rows) eq_refl eq_refl)
      as (_ & Hfast & _).
    destruct (Hfast 2 [("v", FInt 20, "<")] "data/t.idx" eq_refl eq_refl) as [Heq _].
    rewrite Heq. reflexivity.
Defined.

(** ** Records read from a file can be written back *)

Lemma deserializeField_has_type (input rest : list Z) (column : Column.t) (v : FieldValue) :
  deserializeField input column = Some (v, rest) -> has_type column v.
Proof.
  unfold deserializeField, has_type.
  destruct (Column.type column); intros H;
    repeat match type of H with
           | context [Bytes.read ?n ?i] => destruct (Bytes.read n i) as [[? ?]|]
           | context [size_of_int ?n] => destruct (size_of_int n)
           | _ => progress simpl in H
           end;
    inversion H; exact I.
Qed.

(** After [loadRecord] every column of the schema has a value in the
    record; with distinct names it is the one read for that column. *)
Lemma loadRecord_from_covers (columns : list Column.t) :
  forall (record : Rec) (input : list Z) (loaded : Rec) (rest : list Z),
    loadRecord_from record input columns = Some (loaded, rest) ->
    (forall k, is_Some (record !! k) -> is_Some (loaded !! k))
    /\ Forall (fun column => is_Some (loaded !! Column.name column)) columns.
Proof.
  induction columns as [|column more IH]; intros record input loaded rest Hload.
  - inversion Hload; subst. split; [auto|constructor].
  - simpl in Hload.
    destruct (deserializeField input column) as [[v input']|] eqn:Hfield;
      [|discriminate].
    simpl in Hload. destruct (IH _ _ _ _ Hload) as [Hkeep Hall].
    split.
    + intros k Hk. apply Hkeep.
      destruct (decide (Column.name column = k)) as [->|Hne].
      * rewrite lookup_insert_eq. eauto.
      * now rewrite lookup_insert_ne.
    + constructor; [|exact Hall].
      apply Hkeep. rewrite lookup_insert_eq. eauto.
Qed.

Lemma loadRecord_from_typed (columns : list Column.t) :
  NoDup (map Column.name columns) ->
  forall (record : Rec) (input : list Z) (loaded : Rec) (rest : list Z),
    loadRecord_from record input columns = Some (loaded, rest) ->
    (forall k, k ∉ map Column.name columns -> loaded !! k = record !! k)
    /\ Forall (fun column =>
                 exists v, loaded !! Column.name column = Some v /\ has_type column v)
              columns.
Proof.
  induction columns as [|column more IH]; intros Hnodup record input loaded rest Hload.
  - inversion Hload; subst. split; [auto|constructor].
  - simpl in Hload, Hnodup. apply NoDup_cons in Hnodup as [Hfresh Hnodup].
    destruct (deserializeField input column) as [[v input']|] eqn:Hfield;
      [|discriminate].
    simpl in Hload. destruct (IH Hnodup _ _ _ _ Hload) as [Hother Hall].
    split.
    + intros k Hk. simpl in Hk. apply not_elem_of_cons in Hk as [Hne Hk].
      rewrite (Hother _ Hk). apply lookup_insert_ne. congruence.
    + constructor; [|exact Hall].
      exists v. split; [|eapply deserializeField_has_type; eauto].
      rewrite (Hother _ Hfresh). apply lookup_insert_eq.
Qed.

Lemma saveRecord_typed (record : Rec) (columns : list Column.t) :
  Forall (fun column =>
            exists v, record !! Column.name column = Some v /\ has_type column v) columns ->
  Forall (fun column => 0 <= Column.length column) columns ->
  exists bytes, saveRecord record columns = (bytes, true).
Proof.
  induction columns as [|column more IH]; intros Hty Hlen.
  - exists []. reflexivity.
  - inversion Hty as [|? ? (v & Hv & Hvt) Hty']; subst.
    inversion Hlen as [|? ? Hl Hlen']; subst.
    destruct (IH Hty' Hlen') as [bytes Hbytes].
    destruct (serializeField_has_type column v Hvt Hl) as [chunk Hchunk].
    exists (chunk ++ bytes). simpl. unfold field_to_write.
    now rewrite Hv, Hchunk, Hbytes.
Qed.

(** A record read with a well-formed schema is written back in full. *)
Lemma saveRecord_loaded (schema : TableSchema.t) (input rest : list Z) (record : Rec) :
  well_formed schema ->
  loadRecord input schema = Some (record, rest) ->
  exists bytes, saveRecord record (TableSchema.columns schema) = (bytes, true).
Proof.
  intros [Hnodup Hlen] Hload.
  destruct (loadRecord_from_typed _ Hnodup _ _ _ _ Hload) as [_ Hty].
  now apply saveRecord_typed.
Qed.

(** Every record a scan returns was read by [loadRecord]. *)
Lemma scan_from_loaded (schema : TableSchema.t) (fuel : nat) :
  forall (offset : Z) (input : list Z) (records : list (Z * Rec)),
    scan_from fuel schema offset input = Some records ->
    Forall (fun entry => loaded_with schema (snd entry)) records.
Proof.
  induction fuel as [|fuel IH]; intros offset input records Hscan.
  - destruct input; [|discriminate]. inversion Hscan. constructor.
  - destruct input as [|b input]; [inversion Hscan; constructor|].
    cbn [scan_from] in Hscan.
    destruct (loadRecord (b :: input) schema) as [[record rest]|] eqn:Hload;
      [|discriminate].
    cbn [mbind option_bind] in Hscan.
    destruct (scan_from fuel schema _ rest) as [more|] eqn:Hmore; [|discriminate].
    inversion Hscan; subst. constructor.
    + exists (b :: input), rest. exact Hload.
    + eapply IH; eauto.
Qed.

(** ** C7: a rewrite that matches nothing *)

Lemma length_append (s1 s2 : string) :
  String.length (s1 +:+ s2) = (String.length s1 + String.length s2)%nat.
Proof. induction s1 as [|c s1 IH]; simpl; [reflexivity|now rewrite IH]. Qed.

Lemma temp_file_path_fresh (schema : TableSchema.t) :
  TableSchema.data_file_path schema <> temp_file_path schema.
Proof.
  unfold temp_file_path. intros Heq.
  apply (f_equal String.length) in Heq. rewrite length_append in Heq.
  simpl in Heq. lia.
Qed.

Section NoMatch.

Variables (schema : TableSchema.t) (key_column : string) (key_value : FieldValue).
Hypothesis Hwf : well_formed schema.

Lemma update_step_no_match (new_values : Rec) (acc : rewrite) (offset : Z) (record : Rec) :
  loaded_with schema record ->
  matches_key key_column key_value record = false ->
  exists acc',
    update_step schema key_column key_value new_values acc offset record = Some acc'
    /\ same_flags acc acc'.
Proof.
  intros (input & rest & Hload) Hno.
  destruct (saveRecord_loaded schema input rest record Hwf Hload) as [bytes Hbytes].
  unfold update_step. rewrite Hno. simpl. rewrite Hbytes.
  eexists. split; [reflexivity|]. repeat split.
Qed.

Lemma delete_step_no_match (acc : rewrite) (offset : Z) (record : Rec) :
  loaded_with schema record ->
  matches_key key_column key_value record = false ->
  exists acc',
    delete_step schema key_column key_value acc offset record = Some acc'
    /\ same_flags acc acc'.
Proof.
  intros (input & rest & Hload) Hno.
  destruct (saveRecord_loaded schema input rest record Hwf Hload) as [bytes Hbytes].
  unfold delete_step. rewrite Hno, Hbytes.
  eexists. split; [reflexivity|]. repeat split.
Qed.

Lemma rewrite_loop_no_match (step : rewrite -> Z -> Rec -> option rewrite)
    (records : list (Z * Rec)) :
  (forall acc offset record,
      loaded_with schema record ->
      matches_key key_column key_value record = false ->
      exists acc', step acc offset record = Some acc' /\ same_flags acc acc') ->
  Forall (fun entry => loaded_with schema (snd entry)) records ->
  Forall (fun entry => matches_key key_column key_value (snd entry) = false) records ->
  forall acc,
    exists acc', rewrite_loop step records acc = Some acc' /\ same_flags acc acc'.
Proof.
  intros Hstep. induction records as [|[offset record] more IH];
    intros Hloaded Hno acc.
  - exists acc. split; [reflexivity|]. repeat split.
  - inversion Hloaded as [|? ? Hl Hloaded']; subst.
    inversion Hno as [|? ? Hn Hno']; subst. simpl in Hl, Hn.
    destruct (Hstep acc offset record Hl Hn) as (acc1 & Hacc1 & Hf1 & Hc1 & Hd1).
    destruct (IH Hloaded' Hno' acc1) as (acc2 & Hacc2 & Hf2 & Hc2 & Hd2).
    exists acc2. simpl. rewrite Hacc1. simpl. split; [exact Hacc2|].
    repeat split; congruence.
Qed.

Lemma finish_rewrite_nothing
    (reindex : BPlusTree.t -> list Rec -> BPlusTree.t -> option BPlusTree.t)
    (wants_rebuild : bool) (table_name : string) (acc : rewrite) (st : State) :
  found acc = false ->
  nothing_matched st schema (finish_rewrite reindex wants_rebuild schema table_name acc st).
Proof.
  intros Hfound. unfold finish_rewrite. rewrite Hfound. simpl.
  pose proof (temp_file_path_fresh schema) as Hfresh.
  fold (temp_file_path schema).
  eexists. split; [reflexivity|]. simpl. repeat split.
  - rewrite lookup_delete_ne, lookup_insert_ne by congruence. reflexivity.
  - apply lookup_delete_eq.
  - intros path Hpath.
    rewrite lookup_delete_ne, lookup_insert_ne by congruence. reflexivity.
  - apply in_or_app. right. left. reflexivity.
Qed.

End NoMatch.

(** C7. For a table of the catalog with a well-formed schema whose data
    file exists and reads as a sequence of records: an update or a delete
    whose key matches none of them returns [false], reports "No record found
    matching the criteria", leaves the data file byte for byte as it was,
    removes the temporary file and touches no other file. *)
Theorem no_match_keeps_data_file
    (st : State) (table_name key_column : string) (key_value : FieldValue)
    (schema : TableSchema.t) (content : list Z) (records : list (Z * Rec)) :
  find_table (catalog st) table_name = Some schema ->
  well_formed schema ->
  files st !! TableSchema.data_file_path schema = Some content ->
  scan schema content = Some records ->
  Forall (fun entry => matches_key key_column key_value (snd entry) = false) records ->
  (forall new_values,
      nothing_matched st schema
        (updateRecord st table_name key_column key_value new_values))
  /\ nothing_matched st schema (deleteRecord st table_name key_column key_value).
Proof.
  intros Hfind Hwf Hfile Hscan Hno.
  pose proof (scan_from_loaded _ _ _ _ _ Hscan) as Hloaded.
  split.
  - intros new_values. unfold updateRecord, rewrite_table.
    rewrite Hfind, Hfile, Hscan.
    destruct (rewrite_loop_no_match schema key_column key_value
                (update_step schema key_column key_value new_values) records
                (fun acc offset record =>
                   update_step_no_match schema key_column key_value Hwf
                     new_values acc offset record)
                Hloaded Hno rewrite_start) as (acc & -> & Hfound & _).
    now apply finish_rewrite_nothing.
  - unfold deleteRecord, rewrite_table.
    rewrite Hfind, Hfile, Hscan.
    destruct (rewrite_loop_no_match schema key_column key_value
                (delete_step schema key_column key_value) records
                (fun acc offset record =>
                   delete_step_no_match schema key_column key_value Hwf
                     acc offset record)
                Hloaded Hno rewrite_start) as (acc & -> & Hfound & _).
    now apply finish_rewrite_nothing.
Qed.

Lemma t_schema_well_formed : well_formed t_schema.
Proof.
  split.
  - simpl. repeat (apply NoDup_cons; split; [compute_done|]). apply NoDup_nil_2.
  - repeat constructor; simpl; lia.
Qed.

Lemma no_match_keeps_data_file_witness :
  files two_rows !! "data/t.dat"
  = Some [1; 0; 0; 0; 10; 0; 0; 0; 2; 0; 0; 0; 20; 0; 0; 0]
  /\ nothing_matched two_rows t_schema
       (updateRecord two_rows "t" "id" (FInt 7) (<["v" := FInt 0]> ∅))
  /\ nothing_matched two_rows t_schema (deleteRecord two_rows "t" "id" (FInt 7)).
Proof.
  split; [reflexivity|].
  destruct (no_match_keeps_data_file two_rows "t" "id" (FInt 7) t_schema
              [1; 0; 0; 0; 10; 0; 0; 0; 2; 0; 0; 0; 20; 0; 0; 0]
              [(0, row 1 10); (8, row 2 20)]
              eq_refl t_schema_well_formed eq_refl eq_refl)
    as [Hupdate Hdelete].
  - repeat constructor.
  - split; [apply Hupdate | exact Hdelete].
Defined.

(** ** What a rewrite does to the index *)

Lemma getAllRecords_frame (st st' : State) (table_name : string) (records : list Rec) :
  getAllRecords st table_name = Returned records st' ->
  files st' = files st /\ index_files st' = index_files st
  /\ indexes st' = indexes st /\ fs_log st' = fs_log st.
Proof.
  unfold getAllRecords. intros H.
  destruct (find_table (catalog st) table_name) as [schema|];
    [|inversion H; subst; repeat split].
  destruct (files st !! TableSchema.data_file_path schema) as [content|];
    [|inversion H; subst; repeat split].
  destruct (scan schema content); inversion H; subst; repeat split.
Qed.

Lemma get_int_Some (v : FieldValue) (key : Z) : get_int v = Some key -> v = FInt key.
Proof. destruct v; simpl; congruence. Qed.

Lemma open_tree_frame (path : string) (st : State) :
  catalog (open_tree path st) = catalog st
  /\ files (open_tree path st) = files st
  /\ indexes (open_tree path st) = indexes st
  /\ fs_log (open_tree path st) = fs_log st.
Proof. unfold open_tree. destruct (index_files st !! path); repeat split. Qed.

Lemma tree_of_open_tree (path : string) (st : State) :
  tree_of path (open_tree path st) = tree_of path st.
Proof.
  unfold open_tree, tree_of.
  destruct (index_files st !! path) as [tree|] eqn:Htree.
  - now rewrite Htree.
  - simpl. now rewrite lookup_insert_eq.
Qed.

Lemma open_tree_existing (path : string) (tree : BPlusTree.t) (st : State) :
  index_files st !! path = Some tree -> open_tree path st = st.
Proof. unfold open_tree. now intros ->. Qed.

Lemma index_temp_path_fresh (schema : TableSchema.t) :
  TableSchema.index_file_path schema <> index_temp_path schema.
Proof.
  unfold index_temp_path. intros Heq.
  apply (f_equal String.length) in Heq. rewrite length_append in Heq.
  simpl in Heq. lia.
Qed.

Lemma getAllRecords_catalog (st st' : State) (table_name : string) (records : list Rec) :
  getAllRecords st table_name = Returned records st' -> catalog st' = catalog st.
Proof.
  unfold getAllRecords.
  destruct (find_table (catalog st) table_name) as [schema|]; [|now intros [= _ <-]].
  destruct (files st !! TableSchema.data_file_path schema) as [content|];
    [|now intros [= _ <-]].
  destruct (scan schema content); [now intros [= _ <-]|discriminate].
Qed.

(** What a completed rebuild leaves: the tree [reindex] made of the records
    of the data file is the index file, the temporary tree is gone, the
    handle of the table is open on the index file. *)
Lemma rebuild_index_effect
    (reindex : BPlusTree.t -> list Rec -> BPlusTree.t -> option BPlusTree.t)
    (schema : TableSchema.t) (table_name handle : string) (st st' : State) :
  rebuild_index reindex schema table_name handle st = Returned true st' ->
  exists all_records st2 new_index,
    getAllRecords (open_tree (index_temp_path schema) st) table_name
    = Returned all_records st2
    /\ reindex (tree_of handle st) all_records (tree_of (index_temp_path schema) st)
       = Some new_index
    /\ index_files st'
       = <[TableSchema.index_file_path schema := new_index]>
           (delete (index_temp_path schema) (index_files st))
    /\ indexes st' = <[table_name := TableSchema.index_file_path schema]> (indexes st)
    /\ files st' = files st
    /\ catalog st' = catalog st
    /\ fs_log st' = fs_log st
                    ++ [Renamed (index_temp_path schema) (TableSchema.index_file_path schema)].
Proof.
  unfold rebuild_index. fold (index_temp_path schema).
  destruct (open_tree_frame (index_temp_path schema) st) as (Hcat & Hfiles & Hidx & Hlog).
  destruct (getAllRecords (open_tree (index_temp_path schema) st) table_name)
    as [all_records st2| |] eqn:Hall; try discriminate.
  destruct (getAllRecords_frame _ _ _ _ Hall) as (Hfiles2 & Htrees2 & Hidx2 & Hlog2).
  pose proof (getAllRecords_catalog _ _ _ _ Hall) as Hcat2.
  assert (Htmp : tree_of (index_temp_path schema) st2 = tree_of (index_temp_path schema) st).
  { unfold tree_of at 1. rewrite Htrees2.
    fold (tree_of (index_temp_path schema) (open_tree (index_temp_path schema) st)).
    apply tree_of_open_tree. }
  rewrite Htmp.
  destruct (reindex (tree_of handle st) all_records (tree_of (index_temp_path schema) st))
    as [new_index|] eqn:Hre; [|discriminate].
  unfold rename_index_file. simpl. rewrite lookup_insert_eq.
  intros Hres. inversion Hres; subst st'; clear Hres.
  exists all_records, st2, new_index.
  split; [reflexivity|]. split; [exact Hre|].
  match goal with
  | |- context [open_tree (TableSchema.index_file_path schema) ?s] =>
      rewrite (open_tree_existing (TableSchema.index_file_path schema) new_index s)
        by (simpl; apply lookup_insert_eq)
  end.
  simpl.
  split; [|split; [|split; [|split]]].
  - rewrite delete_insert_eq, Htrees2. unfold open_tree.
    destruct (index_files st !! index_temp_path schema) eqn:Hlook; [reflexivity|].
    simpl. now rewrite delete_insert_eq.
  - now rewrite Hidx2, Hidx.
  - now rewrite Hfiles2, Hfiles.
  - now rewrite Hcat2, Hcat.
  - now rewrite Hlog2, Hlog.
Qed.

(** A rewrite that returned [true] has matched something, has renamed the
    temporary file over the data file and then, when asked to and when the
    table has a handle, has rebuilt the index. *)
Lemma finish_rewrite_found
    (reindex : BPlusTree.t -> list Rec -> BPlusTree.t -> option BPlusTree.t)
    (wants_rebuild : bool) (schema : TableSchema.t) (table_name : string)
    (acc : rewrite) (st st' : State) :
  finish_rewrite reindex wants_rebuild schema table_name acc st = Returned true st' ->
  exists st2,
    found acc = true
    /\ fs_log st2 = fs_log st
                    ++ [Renamed (temp_file_path schema) (TableSchema.data_file_path schema)]
    /\ catalog st2 = catalog st
    /\ indexes st2 = indexes st
    /\ index_files st2 = index_files st
    /\ files st2 !! TableSchema.data_file_path schema = Some (temp acc)
    /\ match (if wants_rebuild then indexes st !! table_name else None) with
       | Some handle => rebuild_index reindex schema table_name handle st2 = Returned true st'
       | None => st' = st2
       end.
Proof.
  unfold finish_rewrite. destruct (found acc); [|discriminate]. simpl.
  fold (temp_file_path schema).
  unfold rename_file. simpl. rewrite lookup_insert_eq. simpl.
  intros Hres.
  match type of Hres with
  | context [Returned true ?s] => exists s
  end.
  simpl. split; [reflexivity|]. split; [reflexivity|]. split; [reflexivity|].
  split; [reflexivity|]. split; [reflexivity|]. split; [apply lookup_insert_eq|].
  destruct (if wants_rebuild then indexes st !! table_name else None); [exact Hres|].
  now inversion Hres.
Qed.

Lemma update_loop_changed (schema : TableSchema.t) (key_column : string)
    (key_value : FieldValue) (new_values : Rec) (records : list (Z * Rec)) :
  forall acc acc',
    rewrite_loop (update_step schema key_column key_value new_values) records acc
    = Some acc' ->
    primary_key_changed acc = found acc && assigns_primary_key schema new_values ->
    (found acc = true -> found acc' = true)
    /\ primary_key_changed acc' = found acc' && assigns_primary_key schema new_values.
Proof.
  induction records as [|[offset record] more IH]; intros acc acc' Hloop Hinv.
  - inversion Hloop; subst. auto.
  - simpl in Hloop.
    destruct (update_step schema key_column key_value new_values acc offset record)
      as [acc1|] eqn:Hstep; [|discriminate].
    simpl in Hloop. unfold update_step in Hstep.
    destruct (matches_key key_column key_value record).
    + destruct (assigns_primary_key schema new_values) eqn:Hassign.
      * simpl in Hstep.
        destruct (get_int (subscript record (primary_key_column schema)));
          [|discriminate].
        simpl in Hstep.
        destruct (new_values !! primary_key_column schema ≫= get_int); [|discriminate].
        simpl in Hstep.
        written Hstep.
        inversion Hstep; subst acc1; clear Hstep.
        destruct (IH _ _ Hloop eq_refl) as [Hf Hc]. split; [|exact Hc].
        intros _. now apply Hf.
      * simpl in Hstep.
        written Hstep.
        inversion Hstep; subst acc1; clear Hstep.
        assert (Hacc : primary_key_changed acc = false).
        { rewrite Hinv. apply andb_false_r. }
        destruct (IH _ _ Hloop Hacc) as [Hf Hc]. split; [|exact Hc].
        intros _. now apply Hf.
    + simpl in Hstep.
      written Hstep.
      inversion Hstep; subst acc1; clear Hstep.
      apply (IH _ _ Hloop Hinv).
Qed.

Lemma loaded_has_primary_key (schema : TableSchema.t) (record : Rec) :
  primary_key_column schema <> "" ->
  loaded_with schema record ->
  is_Some (record !! primary_key_column schema).
Proof.
  unfold primary_key_column, find_primary_key. intros Hpk (input & rest & Hload).
  destruct (List.find Column.is_primary_key (TableSchema.columns schema))
    as [column|] eqn:Hfind; [|contradiction].
  apply find_some in Hfind as [Hin _].
  destruct (loadRecord_from_covers _ _ _ _ _ Hload) as [_ Hall].
  rewrite List.Forall_forall in Hall. now apply Hall.
Qed.

Lemma delete_loop_keys (schema : TableSchema.t) (key_column : string)
    (key_value : FieldValue) (records : list (Z * Rec)) :
  primary_key_column schema <> "" ->
  Forall (fun entry => loaded_with schema (snd entry)) records ->
  forall acc acc',
    rewrite_loop (delete_step schema key_column key_value) records acc = Some acc' ->
    (found acc = true -> deleted_keys acc <> []) ->
    found acc' = true -> deleted_keys acc' <> [].
Proof.
  intros Hpk. induction records as [|[offset record] more IH];
    intros Hloaded acc acc' Hloop Hinv.
  - inversion Hloop; subst. exact Hinv.
  - inversion Hloaded as [|? ? Hl Hloaded']; subst. simpl in Hl, Hloop.
    destruct (delete_step schema key_column key_value acc offset record)
      as [acc1|] eqn:Hstep; [|discriminate].
    simpl in Hloop. apply (IH Hloaded' _ _ Hloop).
    unfold delete_step in Hstep.
    destruct (matches_key key_column key_value record).
    + destruct (String.eqb_spec (primary_key_column schema) "") as [|_];
        [contradiction|].
      rewrite (bool_decide_eq_true_2 _ (loaded_has_primary_key _ _ Hpk Hl)) in Hstep.
      simpl in Hstep.
      destruct (get_int (subscript record (primary_key_column schema))) as [k|];
        [|discriminate].
      simpl in Hstep. inversion Hstep; subst acc1. simpl.
      intros _ Hnil. now apply app_eq_nil in Hnil as [_ Hnil].
    + written Hstep.
      inversion Hstep; subst acc1. exact Hinv.
Qed.


(** ** C6: full scan against index lookup *)

(** C6 fails on the code. After [INSERT (1, 10)], [INSERT (1, 20)] and
    [DELETE WHERE v = 10] the rebuilt index has lost the surviving record:
    the point query [id = 1] answered through the index returns nothing, the
    sequential scan of the same data file returns the record [(1, 20)]. *)
Theorem point_query_after_delete :
  exists st,
    deleteRecord shared_key "t" "v" (FInt 10) = Returned true st
    /\ files st !! "data/t.dat" = Some [1; 0; 0; 0; 20; 0; 0; 0]
    /\ index_files st !! "data/t.idx" = Some []
    /\ searchRecords st "t" "id" (FInt 1) = Returned [] st
    /\ search_by_index t_schema (content_of "data/t.dat" st)
         (tree_of "data/t.idx" st) (FInt 1) = Some []
    /\ search_by_scan t_schema (content_of "data/t.dat" st) "id" (FInt 1)
       = Some [row 1 20].
Proof.
  exists (after (deleteRecord shared_key "t" "v" (FInt 10))).
  conjuncts; vm_compute; reflexivity.
Qed.

(** ** C4: literals *)

Lemma substring_prefix (body tail : string) :
  String.substring 0 (String.length body) (body +:+ tail) = body.
Proof. induction body as [|c body IH]; simpl; [now destruct tail|now rewrite IH]. Qed.

Lemma last_quote (body : string) :
  last (list_ascii_of_string (body +:+ "'")) = Some "'"%char.
Proof.
  induction body as [|c body IH]; [reflexivity|].
  simpl. destruct (list_ascii_of_string (body +:+ "'")) eqn:Hl; [discriminate|exact IH].
Qed.

Lemma unquote_quoted (body : string) :
  unquote (String "'" (body +:+ "'")) = body.
Proof.
  unfold unquote.
  assert (Hback : match body +:+ "'" with
                  | EmptyString => "'"%char
                  | _ => default "'"%char (last (list_ascii_of_string (body +:+ "'")))
                  end = "'"%char).
  { destruct (body +:+ "'") eqn:Hb; [reflexivity|].
    rewrite <- Hb, last_quote. reflexivity. }
  rewrite Hback. simpl.
  rewrite length_append. simpl.
  replace (String.length body + 1 - 1)%nat with (String.length body) by lia.
  apply substring_prefix.
Qed.

(** C4, as the code has it. A literal is an integer when [std::stoi]
    converts it, else a float when [std::stof] converts it, else a boolean
    when it is spelled [true], [TRUE], [false] or [FALSE] (no other letter
    case), else a string; a literal between single quotes is always the
    string between the quotes. *)
Theorem parseValue_order (value_str : string) :
  (forall i, Strto.stoi value_str = Some i -> parseValue value_str = FInt i)
  /\ (forall f,
         Strto.stoi value_str = None -> Strto.stof value_str = Some f ->
         parseValue value_str = FFloat f)
  /\ (parseValue "true" = FBool true /\ parseValue "TRUE" = FBool true
      /\ parseValue "false" = FBool false /\ parseValue "FALSE" = FBool false)
  /\ (Strto.stoi value_str = None -> Strto.stof value_str = None ->
      ~ In value_str ["true"; "TRUE"; "false"; "FALSE"] ->
      parseValue value_str = FStr (unquote value_str))
  /\ (forall body, parseValue (String "'" (body +:+ "'")) = FStr body).
Proof.
  split; [|split; [|split; [|split]]].
  - intros i Hi. unfold parseValue. now rewrite Hi.
  - intros f Hi Hf. unfold parseValue. now rewrite Hi, Hf.
  - repeat split; reflexivity.
  - intros Hi Hf Hnot. unfold parseValue. rewrite Hi, Hf.
    destruct (String.eqb_spec value_str "true"); [subst; simpl in Hnot; tauto|].
    destruct (String.eqb_spec value_str "TRUE"); [subst; simpl in Hnot; tauto|].
    destruct (String.eqb_spec value_str "false"); [subst; simpl in Hnot; tauto|].
    destruct (String.eqb_spec value_str "FALSE"); [subst; simpl in Hnot; tauto|].
    reflexivity.
  - intros body. unfold parseValue.
    change (Strto.stoi (String "'" (body +:+ "'"))) with (@None Z).
    change (Strto.stof (String "'" (body +:+ "'"))) with (@None Z).
    change (String.eqb (String "'" (body +:+ "'")) "true") with false.
    change (String.eqb (String "'" (body +:+ "'")) "TRUE") with false.
    change (String.eqb (String "'" (body +:+ "'")) "false") with false.
    change (String.eqb (String "'" (body +:+ "'")) "FALSE") with false.
    simpl orb. cbv iota. now rewrite unquote_quoted.
Qed.

Lemma parseValue_order_witness :
  parseValue "42abc" = FInt 42
  /\ parseValue ".5" = FFloat 1056964608
  /\ parseValue "users" = FStr "users".
Proof.
  destruct (parseValue_order "42abc") as (Hint & _).
  destruct (parseValue_order ".5") as (_ & Hfloat & _).
  destruct (parseValue_order "users") as (_ & _ & _ & Hstr & _).
  split; [|split].
  - apply Hint. reflexivity.
  - apply Hfloat; reflexivity.
  - rewrite Hstr; [reflexivity| reflexivity | reflexivity |].
    simpl. intros [H|[H|[H|[H|[]]]]]; discriminate.
Defined.

(** C4 as stated fails: [True] is not read as a boolean. *)
Lemma mixed_case_true_is_a_string :
  parseValue "True" = FStr "True" /\ parseValue "True" <> FBool true.
Proof. split; [reflexivity|discriminate]. Qed.

(** [std::stoi] converts the integer a literal starts with: a decimal
    literal with an integer part is read as that integer. *)
Example parseValue_decimal_point : parseValue "1.5" = FInt 1.
Proof. reflexivity. Qed.

(** ** C9: the error message of the result envelope *)

Lemma after_call_explained (x : execution) (q : Query.t) (called : result bool)
    (message : string) :
  message <> "" -> step_explained (after_call x q called message).
Proof.
  intros Hmsg. unfold after_call. destruct called as [ok db| |]; simpl; try exact I.
  unfold failure_explained. simpl.
  destruct (success x && ok); [discriminate|]. intros _. exact Hmsg.
Qed.

Lemma execute_select_explained (engine : Engine) (x : execution) :
  failure_explained x -> step_explained (execute_select engine x).
Proof.
  intros Hx. unfold execute_select.
  assert (Hfinish : forall found complain message,
             message <> "" ->
             step_explained
               match found with
               | Returned records db' =>
                   Continue
                     (mkExecution (success x)
                        (filterRecordsByColumns records
                           (Query.select_columns (Query.set_type SELECT (query x))))
                        (Z.of_nat
                           (length
                              (filterRecordsByColumns records
                                 (Query.select_columns (Query.set_type SELECT (query x))))))
                        (if bool_decide
                              (filterRecordsByColumns records
                                 (Query.select_columns (Query.set_type SELECT (query x)))
                               = []) && complain
                         then Query.set_error_message message
                                (Query.set_type SELECT (query x))
                         else Query.set_type SELECT (query x))
                        db')
               | _ => Abort
               end).
  { intros found complain message Hmsg. destruct found as [records db'| |]; try exact I.
    simpl. unfold failure_explained. simpl. intros Hfail.
    destruct (bool_decide _ && complain); [exact Hmsg|]. now apply Hx. }
  repeat match goal with
         | |- step_explained (if ?b then _ else _) => destruct b
         end;
    try (apply Hfinish; discriminate); simpl; discriminate.
Qed.

Lemma execute_command_explained (engine : Engine) (tokens : list string) (x : execution) :
  failure_explained x -> step_explained (execute_command engine tokens x).
Proof.
  intros Hx. unfold execute_command.
  assert (Hcleared : failure_explained
                       (mkExecution (success x) [] 0 (query x) (database x))) by exact Hx.
  repeat match goal with
         | |- step_explained (if ?b then _ else _) => destruct b
         | |- step_explained (match ?r with Returned _ _ => _ | _ => _ end) =>
             destruct r
         end;
    try exact Hcleared;
    try exact I;
    try (apply after_call_explained; discriminate);
    try (apply execute_select_explained; exact Hcleared);
    try (simpl; discriminate);
    try (simpl; unfold failure_explained; simpl; assumption).
  simpl. unfold failure_explained. simpl.
  destruct (success x && (0 <=? a)); [discriminate|]. intros _. discriminate.
Qed.

Lemma execute_commands_explained (engine : Engine) (cmds : list string) :
  forall x, failure_explained x -> step_explained (execute_commands engine cmds x).
Proof.
  induction cmds as [|cmd rest IH]; intros x Hx; simpl; [exact Hx|].
  destruct (tokenize cmd) as [|first more] eqn:Htokens; [now apply IH|].
  pose proof (execute_command_explained engine (first :: more) x Hx) as Hstep.
  destruct (execute_command engine (first :: more) x); simpl in *; auto.
Qed.

(** C9, as the code has it. Whenever [execute] returns [false] the error
    message of the envelope is not empty; equivalently, an empty error
    message comes with success. *)
Theorem failure_has_message (engine : Engine) (p p' : QueryParser) (db db' : State)
    (ok : bool) :
  execute engine p db = Some (ok, p', db') ->
  (ok = false -> Query.error_message (current_query p') <> "")
  /\ (Query.error_message (current_query p') = "" -> ok = true).
Proof.
  intros Hexec.
  assert (Hfail : ok = false -> Query.error_message (current_query p') <> "").
  { unfold execute in Hexec.
    pose proof (execute_commands_explained engine (commands p)
                  (mkExecution true [] 0 (current_query p) db)
                  (fun H => match Bool.diff_true_false H with end)) as Hstep.
    destruct (execute_commands engine (commands p) _) as [x|q dbr|];
      inversion Hexec; subst; simpl in *.
    - exact Hstep.
    - intros _. exact Hstep. }
  split; [exact Hfail|].
  intros Hempty. destruct ok; [reflexivity|]. now destruct (Hfail eq_refl).
Qed.

Lemma failure_has_message_witness :
  execute unavailable rejected_insert two_rows
  = Some (false, parser_after (execute unavailable rejected_insert two_rows),
          engine_after (execute unavailable rejected_insert two_rows))
  /\ Query.error_message
       (current_query (parser_after (execute unavailable rejected_insert two_rows)))
     <> "".
Proof.
  assert (Hexec : execute unavailable rejected_insert two_rows
                  = Some (false,
                          parser_after (execute unavailable rejected_insert two_rows),
                          engine_after (execute unavailable rejected_insert two_rows)))
    by (vm_compute; reflexivity).
  split; [exact Hexec|].
  apply (failure_has_message _ _ _ _ _ _ Hexec). reflexivity.
Defined.

(** C9 as stated fails: on a table without records [SELECT * FROM t] is
    parsed, executed with success, and leaves a non-empty error message. *)
Lemma empty_select_succeeds_with_message :
  fst (parse fresh new_parser "SELECT * FROM t;") = true
  /\ exists p' db',
      execute unavailable (snd (parse fresh new_parser "SELECT * FROM t;")) fresh
      = Some (true, p', db')
      /\ Query.error_message (current_query p') = "No records found in table 't'"
      /\ Query.results (current_query p') = []
      /\ Query.records_found (current_query p') = 0.
Proof.
  split; [vm_compute; reflexivity|].
  set (r := execute unavailable _ fresh). vm_compute in r. subst r.
  eexists _, _. split; [reflexivity|].
  conjuncts; reflexivity.
Qed.

(** ** Scan and index on a table whose index lists its records

    The agreement C6 asks for holds as long as the index has exactly one
    entry per record of the file, with the record's key and offset. *)

Lemma read_split (n : nat) (input bs rest : list Z) :
  Bytes.read n input = Some (bs, rest) -> input = bs ++ rest.
Proof.
  unfold Bytes.read. destruct (n <=? length input)%nat; [|discriminate].
  intros H. inversion H. symmetry. apply firstn_skipn.
Qed.

Lemma deserializeField_split (input rest : list Z) (column : Column.t) (v : FieldValue) :
  deserializeField input column = Some (v, rest) -> exists bs, input = bs ++ rest.
Proof.
  unfold deserializeField.
  destruct (Column.type column); intros H.
  - destruct (Bytes.read 4 input) as [[bs r]|] eqn:Hr; [|discriminate].
    inversion H; subst. exists bs. now apply read_split in Hr.
  - destruct (Bytes.read 4 input) as [[bs r]|] eqn:Hr; [|discriminate].
    inversion H; subst. exists bs. now apply read_split in Hr.
  - destruct (Bytes.read 4 input) as [[bs r]|] eqn:Hr; [|discriminate]. simpl in H.
    destruct (size_of_int (Bytes.signed32 bs)) as [n|]; [|discriminate]. simpl in H.
    destruct (Bytes.read n r) as [[val r']|] eqn:Hr'; [|discriminate].
    inversion H; subst. exists (bs ++ val).
    apply read_split in Hr, Hr'. subst. now rewrite <- app_assoc.
  - destruct (size_of_int (Column.length column)) as [n|]; [|discriminate]. simpl in H.
    destruct (Bytes.read n input) as [[val r]|] eqn:Hr; [|discriminate].
    inversion H; subst. exists val. now apply read_split in Hr.
  - destruct (Bytes.read 1 input) as [[bs r]|] eqn:Hr; [|discriminate].
    inversion H; subst. exists bs. now apply read_split in Hr.
Qed.

Lemma loadRecord_from_split (columns : list Column.t) :
  forall (record loaded : Rec) (input rest : list Z),
    loadRecord_from record input columns = Some (loaded, rest) ->
    exists bs, input = bs ++ rest.
Proof.
  induction columns as [|column more IH]; intros record loaded input rest Hload.
  - inversion Hload. now exists [].
  - simpl in Hload.
    destruct (deserializeField input column) as [[v input']|] eqn:Hfield; [|discriminate].
    simpl in Hload. destruct (IH _ _ _ _ Hload) as [bs' ->].
    destruct (deserializeField_split _ _ _ _ Hfield) as [bs ->].
    exists (bs ++ bs'). now rewrite <- app_assoc.
Qed.

(** A record the scan meets at an offset is the record a seek to that
    offset loads. *)
Lemma scan_from_load_at (schema : TableSchema.t) (fuel : nat) :
  forall (before input : list Z) (records : list (Z * Rec)),
    scan_from fuel schema (Z.of_nat (length before)) input = Some records ->
    Forall (fun stored_at =>
              load_at (before ++ input) (fst stored_at) schema = Some (snd stored_at))
           records.
Proof.
  induction fuel as [|fuel IH]; intros before input records Hscan.
  - destruct input; [|discriminate]. inversion Hscan. constructor.
  - destruct input as [|b input]; [inversion Hscan; constructor|].
    cbn [scan_from] in Hscan.
    destruct (loadRecord (b :: input) schema) as [[record rest]|] eqn:Hload;
      [|discriminate].
    cbn [mbind option_bind] in Hscan.
    destruct (scan_from fuel schema _ rest) as [more|] eqn:Hmore; [|discriminate].
    inversion Hscan; subst; clear Hscan.
    destruct (loadRecord_from_split _ _ _ _ _ Hload) as [consumed Hsplit].
    constructor.
    + simpl. unfold load_at. rewrite length_app.
      destruct (Z.leb_spec 0 (Z.of_nat (length before))); [|lia].
      destruct (Z.leb_spec (Z.of_nat (length before))
                  (Z.of_nat (length before + length (b :: input)))); [|lia].
      simpl. rewrite Nat2Z.id, drop_app_length, Hload. reflexivity.
    + rewrite Hsplit in Hmore |- *.
      rewrite length_app in Hmore.
      replace (Z.of_nat (length before)
               + Z.of_nat (length consumed + length rest - length rest))
        with (Z.of_nat (length (before ++ consumed))) in Hmore
        by (rewrite length_app; lia).
      rewrite app_assoc. now apply IH.
Qed.

(** X8. When the index has exactly one entry per record of the data file,
    in file order, holding the record's primary key and its offset, a point
    query on the primary key finds the same records through the index as
    through a sequential scan. *)
Theorem scan_agrees_with_listing_index
    (schema : TableSchema.t) (content : list Z) (tree : BPlusTree.t) (key : Z) :
  indexes_file schema content tree ->
  search_by_index schema content tree (FInt key)
  = search_by_scan schema content (primary_key_column schema) (FInt key).
Proof.
  intros (records & Hscan & Hlisted).
  unfold search_by_index, search_by_scan. rewrite Hscan. simpl.
  pose proof (scan_from_load_at schema _ [] content records Hscan) as Hload.
  simpl in Hload. clear Hscan. unfold BPlusTree.search.
  induction Hlisted as [|[offset record] [k o] records tree [Ho Hk] Hrest IH];
    [reflexivity|].
  simpl in Ho, Hk. subst o.
  inversion Hload as [|? ? Hhere Hload']; subst. simpl in Hhere.
  specialize (IH Hload'). simpl.
  unfold matches_key at 1. rewrite Hk. simpl.
  destruct (k =? key).
  - simpl. rewrite Hhere. simpl.
    apply (f_equal (fmap (cons record))) in IH. simpl in IH.
    destruct (mapM _ _); simpl in *; exact IH.
  - exact IH.
Qed.

(** The index of [two_rows] lists its records, and a point query on it finds
    the same record both ways. *)
Example two_rows_point_query :
  indexes_file t_schema (content_of "data/t.dat" two_rows) (tree_of "data/t.idx" two_rows)
  /\ search_by_index t_schema (content_of "data/t.dat" two_rows)
       (tree_of "data/t.idx" two_rows) (FInt 2) = Some [row 2 20]
  /\ search_by_scan t_schema (content_of "data/t.dat" two_rows) "id" (FInt 2)
     = Some [row 2 20].
Proof.
  split; [|split; vm_compute; reflexivity].
  exists [(0, row 1 10); (8, row 2 20)]. split; [vm_compute; reflexivity|].
  repeat constructor.
Qed.

(** ** Inserts keep the index a listing of the file *)

Lemma read_more (n : nat) (input bs rest extra : list Z) :
  Bytes.read n input = Some (bs, rest) ->
  Bytes.read n (input ++ extra) = Some (bs, rest ++ extra).
Proof.
  unfold Bytes.read. destruct (Nat.leb_spec n (length input)) as [Hle|]; [|discriminate].
  intros H. inversion H; subst.
  rewrite length_app. destruct (Nat.leb_spec n (length input + length extra)); [|lia].
  now rewrite take_app_le, drop_app_le by lia.
Qed.

Lemma deserializeField_more (input rest extra : list Z) (column : Column.t)
    (v : FieldValue) :
  deserializeField input column = Some (v, rest) ->
  deserializeField (input ++ extra) column = Some (v, rest ++ extra).
Proof.
  unfold deserializeField.
  destruct (Column.type column); intros H.
  - destruct (Bytes.read 4 input) as [[bs r]|] eqn:Hr; [|discriminate].
    rewrite (read_more _ _ _ _ extra Hr). now inversion H.
  - destruct (Bytes.read 4 input) as [[bs r]|] eqn:Hr; [|discriminate].
    rewrite (read_more _ _ _ _ extra Hr). now inversion H.
  - destruct (Bytes.read 4 input) as [[bs r]|] eqn:Hr; [|discriminate].
    rewrite (read_more _ _ _ _ extra Hr). simpl in *.
    destruct (size_of_int (Bytes.signed32 bs)) as [n|]; [|discriminate]. simpl in *.
    destruct (Bytes.read n r) as [[val r']|] eqn:Hr'; [|discriminate].
    rewrite (read_more _ _ _ _ extra Hr'). now inversion H.
  - destruct (size_of_int (Column.length column)) as [n|]; [|discriminate]. simpl in *.
    destruct (Bytes.read n input) as [[val r]|] eqn:Hr; [|discriminate].
    rewrite (read_more _ _ _ _ extra Hr). now inversion H.
  - destruct (Bytes.read 1 input) as [[bs r]|] eqn:Hr; [|discriminate].
    rewrite (read_more _ _ _ _ extra Hr). now inversion H.
Qed.

Lemma loadRecord_from_more (columns : list Column.t) (extra : list Z) :
  forall (record loaded : Rec) (input rest : list Z),
    loadRecord_from record input columns = Some (loaded, rest) ->
    loadRecord_from record (input ++ extra) columns = Some (loaded, rest ++ extra).
Proof.
  induction columns as [|column more IH]; intros record loaded input rest Hload.
  - now inversion Hload.
  - simpl in *.
    destruct (deserializeField input column) as [[v input']|] eqn:Hfield; [|discriminate].
    rewrite (deserializeField_more _ _ extra _ _ Hfield). simpl in *. now apply IH.
Qed.

(** What is written for a column reads back as a value of the column; an
    [int] reads back as itself. *)
Lemma deserialize_serialized (column : Column.t) (v : FieldValue) (chunk rest : list Z) :
  Column.length column < 2 ^ 31 ->
  serializeField v column = Some chunk ->
  exists v',
    deserializeField (chunk ++ rest) column = Some (v', rest)
    /\ forall k, v = FInt k -> - 2 ^ 31 <= k < 2 ^ 31 -> v' = FInt k.
Proof.
  intros Hlen. unfold serializeField, deserializeField.
  destruct (Column.type column); destruct v; try discriminate.
  - intros H. inversion H; subst.
    rewrite (read_app 4 (Bytes.le32 i) rest eq_refl). simpl.
    eexists. split; [reflexivity|].
    intros k Hk Hrange. inversion Hk; subst. now rewrite signed32_le32.
  - intros H. inversion H; subst.
    rewrite (read_app 4 (Bytes.le32 bits) rest eq_refl). simpl.
    eexists. split; [reflexivity|]. discriminate.
  - unfold size_of_int.
    destruct (Z.ltb_spec (Column.length column) 0) as [|Hpos]; [discriminate|].
    intros Hser. injection Hser as <-.
    rewrite length_resize, Nat2Z.id, Z2Nat.id by lia.
    match goal with
    | |- context [Bytes.read 4 ((?a :: ?b :: ?c :: ?d :: ?p) ++ rest)] =>
        change ((a :: b :: c :: d :: p) ++ rest)
          with (Bytes.le32 (Column.length column) ++ (p ++ rest))
    end.
    rewrite (read_app 4 (Bytes.le32 _) _ eq_refl). simpl.
    rewrite signed32_le32 by lia.
    destruct (Z.ltb_spec (Column.length column) 0) as [|_]; [lia|]. simpl.
    rewrite read_app
      by (rewrite length_firstn, length_resize; lia).
    eexists. split; [reflexivity|]. discriminate.
  - unfold size_of_int.
    destruct (Z.ltb_spec (Column.length column) 0) as [|Hpos]; [discriminate|].
    intros Hser. injection Hser as <-. simpl.
    rewrite read_app
      by (rewrite length_firstn, length_resize; lia).
    eexists. split; [reflexivity|]. discriminate.
  - intros H. inversion H; subst.
    rewrite (read_app 1 [if b then 1 else 0] rest eq_refl). simpl.
    eexists. split; [reflexivity|]. discriminate.
Qed.

Lemma load_saved (record : Rec) (columns : list Column.t) :
  NoDup (map Column.name columns) ->
  Forall (fun column => Column.length column < 2 ^ 31) columns ->
  forall bytes,
    saveRecord record columns = (bytes, true) ->
    forall (acc : Rec) (rest : list Z),
    exists loaded,
      loadRecord_from acc (bytes ++ rest) columns = Some (loaded, rest)
      /\ forall column k,
          In column columns ->
          field_to_write record column = FInt k ->
          - 2 ^ 31 <= k < 2 ^ 31 ->
          loaded !! Column.name column = Some (FInt k).
Proof.
  induction columns as [|column more IH]; intros Hnodup Hlen bytes Hsave acc rest.
  - inversion Hsave; subst. exists acc. split; [reflexivity|]. intros ? ? [].
  - simpl in Hsave, Hnodup. apply NoDup_cons in Hnodup as [Hfresh Hnodup].
    inversion Hlen as [|? ? Hl Hlen']; subst.
    destruct (serializeField (field_to_write record column) column) as [chunk|] eqn:Hser;
      [|discriminate].
    destruct (saveRecord record more) as [tail ok] eqn:Htail.
    inversion Hsave; subst; clear Hsave.
    destruct (deserialize_serialized column _ chunk (tail ++ rest) Hl Hser)
      as (v' & Hread & Hint).
    destruct (IH Hnodup Hlen' tail eq_refl (<[Column.name column := v']> acc) rest)
      as (loaded & Hload & Hkeys).
    exists loaded. split.
    + simpl. rewrite <- app_assoc, Hread. exact Hload.
    + intros c k [<-|Hin] Hfield Hrange.
      * destruct (loadRecord_from_typed more Hnodup _ _ _ _ Hload) as [Hother _].
        rewrite (Hother _ Hfresh), lookup_insert_eq.
        f_equal. now apply Hint.
      * now apply Hkeys.
Qed.

Lemma saveRecord_int_column (record : Rec) (columns : list Column.t) (column : Column.t)
    (bytes : list Z) :
  In column columns ->
  Column.type column = Column.INT ->
  saveRecord record columns = (bytes, true) ->
  bytes <> [].
Proof.
  revert bytes. induction columns as [|c more IH]; intros bytes Hin Hty Hsave; [destruct Hin|].
  simpl in Hsave.
  destruct (serializeField (field_to_write record c) c) as [chunk|] eqn:Hser;
    [|discriminate].
  destruct (saveRecord record more) as [tail ok] eqn:Htail.
  inversion Hsave; subst; clear Hsave.
  destruct Hin as [->|Hin].
  - unfold serializeField in Hser. rewrite Hty in Hser.
    destruct (field_to_write record column); inversion Hser. discriminate.
  - specialize (IH tail Hin Hty eq_refl). intros Hnil.
    apply app_eq_nil in Hnil as [_ Hnil]. contradiction.
Qed.

(** Scanning a file that has grown by one record finds the records it had,
    then the new one at the old end of the file. *)
Lemma scan_from_extend (schema : TableSchema.t) (extra : list Z) (record : Rec) :
  extra <> [] ->
  loadRecord extra schema = Some (record, []) ->
  forall (fuel fuel' : nat) (offset : Z) (input : list Z) (records : list (Z * Rec)),
    (fuel < fuel')%nat ->
    scan_from fuel schema offset input = Some records ->
    scan_from fuel' schema offset (input ++ extra)
    = Some (records ++ [(offset + Z.of_nat (length input), record)]).
Proof.
  intros Hextra Hlast.
  assert (Hend : forall fuel' offset,
             (0 < fuel')%nat ->
             scan_from fuel' schema offset extra = Some [(offset, record)]).
  { intros [|fuel'] offset Hpos; [lia|].
    destruct extra as [|b extra]; [contradiction|].
    cbn [scan_from]. rewrite Hlast. cbn [mbind option_bind].
    now destruct fuel'. }
  induction fuel as [|fuel IH]; intros fuel' offset input records Hfuel Hscan.
  - destruct input; [|discriminate]. inversion Hscan; subst. simpl.
    rewrite Z.add_0_r. now apply Hend.
  - destruct input as [|b input].
    + inversion Hscan; subst. simpl. rewrite Z.add_0_r. apply Hend. lia.
    + cbn [scan_from] in Hscan.
      destruct (loadRecord (b :: input) schema) as [[first rest]|] eqn:Hload;
        [|discriminate].
      cbn [mbind option_bind] in Hscan.
      destruct (scan_from fuel schema _ rest) as [more|] eqn:Hmore; [|discriminate].
      inversion Hscan; subst; clear Hscan.
      destruct fuel' as [|fuel']; [lia|].
      destruct (loadRecord_from_split _ _ _ _ _ Hload) as [consumed Hsplit].
      pose proof (loadRecord_from_more _ extra _ _ _ _ Hload) as Hload'.
      change ((b :: input) ++ extra) with (b :: (input ++ extra)) in Hload' |- *.
      cbn [scan_from]. unfold loadRecord. rewrite Hload'. cbn [mbind option_bind].
      change (b :: (input ++ extra)) with ((b :: input) ++ extra).
      assert (Hlt : (fuel < fuel')%nat) by lia.
      replace (length ((b :: input) ++ extra) - length (rest ++ extra))%nat
        with (length (b :: input) - length rest)%nat
        by (rewrite !length_app; lia).
      rewrite (IH fuel' _ rest more Hlt Hmore).
      assert (Hoff : offset + Z.of_nat (length (b :: input) - length rest)
                     + Z.of_nat (length rest)
                     = offset + Z.of_nat (length (b :: input))).
      { apply (f_equal (@length Z)) in Hsplit. rewrite length_app in Hsplit.
        simpl in Hsplit. simpl. lia. }
      rewrite Hoff. reflexivity.
Qed.

Lemma tree_of_ensure_index (st : State) (table_name : string) (schema : TableSchema.t) :
  tree_of (handle_for st table_name schema) (ensure_index table_name schema st)
  = tree_of (handle_for st table_name schema) st.
Proof.
  unfold ensure_index, handle_for.
  destruct (indexes st !! table_name) as [handle|]; [reflexivity|]. simpl.
  unfold createIndex. destruct (find_primary_key schema); [|reflexivity].
  apply tree_of_open_tree.
Qed.

Lemma handle_after_ensure_index (st : State) (table_name : string) (schema : TableSchema.t)
    (column : Column.t) :
  TableSchema.name schema = table_name ->
  find_primary_key schema = Some column ->
  indexes (ensure_index table_name schema st) !! table_name
  = Some (handle_for st table_name schema).
Proof.
  intros Hname Hpk. unfold ensure_index, handle_for.
  destruct (indexes st !! table_name) as [handle|] eqn:Hidx; [exact Hidx|].
  unfold createIndex. rewrite Hpk, Hname. simpl. apply lookup_insert_eq.
Qed.

Lemma tree_of_tree_insert (handle : string) (key value : Z) (st : State) :
  tree_of handle (tree_insert handle key value st)
  = BPlusTree.insert key value (tree_of handle st).
Proof. unfold tree_of at 1, tree_insert. simpl. now rewrite lookup_insert_eq. Qed.

(** The state after an insert that returned [true] into a table with a
    primary key: the stream opened, the record's bytes are at the end of the
    data file, and the key is at the end of the index with the offset the
    stream reported. *)
Lemma insert_effect
    (io : Stream) (st st' : State) (table_name : string) (record : Rec)
    (schema : TableSchema.t) (column : Column.t) :
  find_table (catalog st) table_name = Some schema ->
  find_primary_key schema = Some column ->
  insertRecord_on io st table_name record = Returned true st' ->
  exists k bytes,
    record !! Column.name column = Some (FInt k)
    /\ Column.type column = Column.INT
    /\ opens io (TableSchema.data_file_path schema) = true
    /\ saveRecord record (TableSchema.columns schema) = (bytes, true)
    /\ st' = tree_insert (handle_for st table_name schema) k
               (int_of_pos (tellp io (content_of (TableSchema.data_file_path schema) st)))
               (set_files
                  (<[TableSchema.data_file_path schema
                     := content_of (TableSchema.data_file_path schema) st ++ bytes]>)
                  (ensure_index table_name schema st)).
Proof.
  intros Hfind Hpk Hins.
  pose proof (find_table_name _ _ _ Hfind) as Hname.
  unfold insertRecord_on in Hins. rewrite Hfind in Hins.
  unfold check_primary_key in Hins. rewrite Hpk in Hins.
  destruct (record !! Column.name column) as [v|] eqn:Hv; [|discriminate].
  destruct (Column.type column) eqn:Hty; try discriminate.
  destruct v as [k| | |]; try discriminate.
  destruct (opens io (TableSchema.data_file_path schema)) eqn:Hopen; [|discriminate].
  cbn [negb] in Hins. unfold append_record in Hins.
  rewrite content_of_ensure_index in Hins.
  destruct (saveRecord record (TableSchema.columns schema)) as [bytes ok] eqn:Hsave.
  destruct ok; [|discriminate].
  unfold index_record in Hins. simpl in Hins.
  rewrite (handle_after_ensure_index st table_name schema column Hname Hpk) in Hins.
  exists k, bytes. conjuncts; try reflexivity. now inversion Hins.
Qed.

(** The narrowing to [int] keeps a position below 2^31. *)
Lemma int_of_pos_small (pos : Z) : 0 <= pos < 2 ^ 31 -> int_of_pos pos = pos.
Proof. intros Hpos. unfold int_of_pos. apply signed32_le32. lia. Qed.

(** X7. An insert that returns [true] into a table with an INT primary key,
    on a stream that reports the end of the data file as its position, that
    end being below 2^31, keeps the index a listing of the data file: when
    the index had one entry per record of the file, with the record's key
    and offset, it still has after the insert, and the table has its
    handle. *)
Theorem insert_keeps_listing
    (io : Stream) (st st' : State) (table_name : string) (record : Rec)
    (schema : TableSchema.t) (column : Column.t) :
  find_table (catalog st) table_name = Some schema ->
  well_formed schema ->
  int_lengths schema ->
  find_primary_key schema = Some column ->
  (forall k, record !! Column.name column = Some (FInt k) -> - 2 ^ 31 <= k < 2 ^ 31) ->
  indexes_file schema (content_of (TableSchema.data_file_path schema) st)
    (tree_of (handle_for st table_name schema) st) ->
  tellp io (content_of (TableSchema.data_file_path schema) st)
  = Z.of_nat (length (content_of (TableSchema.data_file_path schema) st)) ->
  Z.of_nat (length (content_of (TableSchema.data_file_path schema) st)) < 2 ^ 31 ->
  insertRecord_on io st table_name record = Returned true st' ->
  indexes st' !! table_name = Some (handle_for st table_name schema)
  /\ indexes_file schema (content_of (TableSchema.data_file_path schema) st')
       (tree_of (handle_for st table_name schema) st').
Proof.
  intros Hfind [Hnodup _] Hlens Hpk Hrange (records & Hscan & Hlisted) Htellp Hsmall Hins.
  pose proof (find_table_name _ _ _ Hfind) as Hname.
  assert (Hin : In column (TableSchema.columns schema)).
  { unfold find_primary_key in Hpk. now apply find_some in Hpk as [Hin _]. }
  destruct (insert_effect _ _ _ _ _ _ _ Hfind Hpk Hins)
    as (k & bytes & Hv & Hty & _ & Hsave & ->).
  rewrite Htellp, int_of_pos_small by lia.
  set (handle := handle_for st table_name schema) in *.
  set (path := TableSchema.data_file_path schema) in *.
  split; [simpl; apply (handle_after_ensure_index _ _ _ _ Hname Hpk)|].
  destruct (load_saved record _ Hnodup Hlens bytes Hsave ∅ [])
    as (loaded & Hload & Hkeys).
  rewrite app_nil_r in Hload.
  assert (Hkey : loaded !! primary_key_column schema = Some (FInt k)).
  { unfold primary_key_column. rewrite Hpk.
    apply Hkeys; [exact Hin| |now apply Hrange].
    unfold field_to_write. now rewrite Hv. }
  exists (records ++ [(Z.of_nat (length (content_of path st)), loaded)]). split.
  - unfold content_of at 1. simpl. rewrite lookup_insert_eq. simpl.
    unfold scan in *. rewrite length_app.
    rewrite (scan_from_extend schema bytes loaded
               (saveRecord_int_column _ _ _ _ Hin Hty Hsave) Hload
               (length (content_of path st)) _ 0 _ records); [reflexivity| |exact Hscan].
    pose proof (saveRecord_int_column _ _ _ _ Hin Hty Hsave).
    destruct bytes; [contradiction|simpl; lia].
  - rewrite tree_of_tree_insert.
    change (tree_of handle (set_files _ (ensure_index table_name schema st)))
      with (tree_of handle (ensure_index table_name schema st)).
    unfold handle. rewrite tree_of_ensure_index.
    unfold BPlusTree.insert.
    apply Forall2_app; [exact Hlisted|].
    constructor; [|constructor]. simpl. split; [reflexivity|exact Hkey].
Qed.

(** * Further properties of the storage layer *)

(** ** Values through their bytes *)

Lemma unsigned32_le32_small (bits : Z) :
  0 <= bits < 2 ^ 32 -> Bytes.unsigned32 (Bytes.le32 bits) = bits.
Proof.
  intros Hb. rewrite unsigned32_le32, Z.land_ones by lia. apply Z.mod_small. lia.
Qed.

Lemma to_string_of_string (s : string) : Bytes.to_string (Bytes.of_string s) = s.
Proof.
  unfold Bytes.to_string, Bytes.of_string. rewrite map_map.
  rewrite (map_ext _ (fun a => a)).
  - rewrite map_id. apply string_of_list_ascii_of_string.
  - intros a. rewrite N2Z.id. apply ascii_N_embedding.
Qed.

Lemma length_to_string (bs : list Z) : String.length (Bytes.to_string bs) = length bs.
Proof.
  unfold Bytes.to_string. induction bs as [|b bs IH]; simpl; [reflexivity|now rewrite IH].
Qed.

Lemma length_of_string (s : string) : length (Bytes.of_string s) = String.length s.
Proof.
  unfold Bytes.of_string. rewrite length_map.
  induction s as [|c s IH]; simpl; [reflexivity|now rewrite IH].
Qed.

Lemma resize_exact (n : nat) (bs : list Z) : length bs = n -> Bytes.resize n bs = bs.
Proof.
  intros <-. unfold Bytes.resize. rewrite firstn_all, Nat.sub_diag. apply app_nil_r.
Qed.

(** X1. A value written to an INT, FLOAT or BOOL column reads back as
    itself, and the stream is left right after its bytes, provided an [int]
    is in the 32-bit range and a [float] pattern has 32 bits. *)
Theorem scalar_round_trip (column : Column.t) (v : FieldValue) (chunk rest : list Z) :
  textual column = false ->
  fits v ->
  serializeField v column = Some chunk ->
  deserializeField (chunk ++ rest) column = Some (v, rest).
Proof.
  unfold textual, serializeField, deserializeField.
  destruct (Column.type column); try discriminate; intros _ Hfits;
    destruct v as [i|bits|s|b]; try discriminate; intros [= <-].
  - rewrite (read_app 4 (Bytes.le32 i) rest eq_refl). simpl.
    now rewrite signed32_le32.
  - rewrite (read_app 4 (Bytes.le32 bits) rest eq_refl).
    cbn -[Bytes.unsigned32 Bytes.le32].
    now rewrite unsigned32_le32_small.
  - rewrite (read_app 1 [if b then 1 else 0] rest eq_refl). simpl.
    now destruct b.
Qed.

Lemma scalar_round_trip_witness :
  deserializeField (Bytes.le32 (-7) ++ [1; 2]) id_column = Some (FInt (-7), [1; 2]).
Proof.
  apply (scalar_round_trip id_column (FInt (-7)) (Bytes.le32 (-7)) [1; 2]).
  - reflexivity.
  - simpl. lia.
  - reflexivity.
Defined.

(** Any written value reads back as [read_back] says. *)
Lemma field_read_back (column : Column.t) (v : FieldValue) (chunk rest : list Z) :
  Column.length column < 2 ^ 31 ->
  fits v ->
  serializeField v column = Some chunk ->
  deserializeField (chunk ++ rest) column = Some (read_back column v, rest).
Proof.
  intros Hlen Hfits. unfold serializeField, deserializeField, read_back, padded.
  destruct (Column.type column); destruct v as [i|bits|s|b]; try discriminate.
  - intros [= <-]. rewrite (read_app 4 (Bytes.le32 i) rest eq_refl). simpl.
    now rewrite signed32_le32.
  - intros [= <-]. rewrite (read_app 4 (Bytes.le32 bits) rest eq_refl).
    cbn -[Bytes.unsigned32 Bytes.le32]. now rewrite unsigned32_le32_small.
  - unfold size_of_int.
    destruct (Z.ltb_spec (Column.length column) 0) as [|Hpos]; [discriminate|].
    intros Hser. injection Hser as <-.
    rewrite length_resize, Nat2Z.id, Z2Nat.id by lia.
    match goal with
    | |- context [Bytes.read 4 ((?a :: ?b :: ?c :: ?d :: ?p) ++ rest)] =>
        change ((a :: b :: c :: d :: p) ++ rest)
          with (Bytes.le32 (Column.length column) ++ (p ++ rest))
    end.
    rewrite (read_app 4 (Bytes.le32 _) _ eq_refl). simpl.
    rewrite signed32_le32 by lia.
    destruct (Z.ltb_spec (Column.length column) 0) as [|_]; [lia|]. simpl.
    rewrite read_app by (rewrite length_firstn, length_resize; lia).
    simpl. rewrite firstn_all2 by (rewrite length_resize; lia). reflexivity.
  - unfold size_of_int.
    destruct (Z.ltb_spec (Column.length column) 0) as [|Hpos]; [discriminate|].
    intros Hser. injection Hser as <-. simpl.
    rewrite read_app by (rewrite length_firstn, length_resize; lia).
    simpl. rewrite firstn_all2 by (rewrite length_resize; lia). reflexivity.
  - intros [= <-]. rewrite (read_app 1 [if b then 1 else 0] rest eq_refl). simpl.
    now destruct b.
Qed.

Lemma length_padded (n : Z) (s : string) : String.length (padded n s) = Z.to_nat n.
Proof. unfold padded. now rewrite length_to_string, length_resize. Qed.

(** X2. A string written to a STRING(n) or CHAR(n) column ([0 <= n < 2^31])
    comes back with exactly [n] characters: unchanged when it had [n]
    characters, and otherwise cut or NUL-padded, so that [operator==] no
    longer holds between what was written and what is read. *)
Theorem text_read_back (column : Column.t) (s : string) :
  textual column = true ->
  0 <= Column.length column < 2 ^ 31 ->
  exists chunk,
    serializeField (FStr s) column = Some chunk
    /\ (forall rest,
          deserializeField (chunk ++ rest) column
          = Some (FStr (padded (Column.length column) s), rest))
    /\ String.length (padded (Column.length column) s) = Z.to_nat (Column.length column)
    /\ (String.length s = Z.to_nat (Column.length column) ->
        padded (Column.length column) s = s)
    /\ (String.length s <> Z.to_nat (Column.length column) ->
        FieldValue_eq (FStr (padded (Column.length column) s)) (FStr s) = false).
Proof.
  intros Htext [Hpos Hlen].
  destruct (serializeField (FStr s) column) as [chunk|] eqn:Hser.
  - exists chunk. conjuncts.
    + reflexivity.
    + intros rest. apply (field_read_back column (FStr s) chunk rest); [lia|exact I|exact Hser].
    + apply length_padded.
    + intros Hn. unfold padded. rewrite resize_exact.
      * apply to_string_of_string.
      * now rewrite length_of_string.
    + intros Hn. simpl. apply String.eqb_neq. intros Heq.
      apply Hn. rewrite <- Heq at 1. apply length_padded.
  - exfalso. unfold textual, serializeField, size_of_int in *.
    destruct (Column.type column); try discriminate;
      destruct (Z.ltb_spec (Column.length column) 0); (lia || discriminate).
Qed.

Lemma text_read_back_witness :
  exists chunk,
    serializeField (FStr "Ann") string4 = Some chunk
    /\ (forall rest,
          deserializeField (chunk ++ rest) string4 = Some (FStr (padded 4 "Ann"), rest))
    /\ String.length (padded 4 "Ann") = 4%nat
    /\ (String.length "Ann" = 4%nat -> padded 4 "Ann" = "Ann"%string)
    /\ (String.length "Ann" <> 4%nat ->
        FieldValue_eq (FStr (padded 4 "Ann")) (FStr "Ann") = false).
Proof.
  apply (text_read_back string4 "Ann").
  - reflexivity.
  - simpl. lia.
Defined.

(** Records have a fixed width: whatever the values, the bytes [saveRecord]
    writes for a record are as many as [getFieldSize] adds up to over the
    columns. *)
Lemma length_saveRecord (record : Rec) (columns : list Column.t) (bytes : list Z) :
  saveRecord record columns = (bytes, true) ->
  Z.of_nat (length bytes) = record_size columns.
Proof.
  revert bytes. induction columns as [|column more IH]; intros bytes Hsave.
  - inversion Hsave. reflexivity.
  - simpl in Hsave.
    destruct (serializeField (field_to_write record column) column) as [chunk|] eqn:Hser;
      [|discriminate].
    destruct (saveRecord record more) as [tail ok] eqn:Htail.
    inversion Hsave; subst; clear Hsave.
    rewrite length_app, Nat2Z.inj_add. simpl.
    rewrite (IH tail eq_refl). now rewrite (serializeField_size _ _ _ Hser).
Qed.

(** Loading the bytes of a saved record on top of [acc]: every column holds
    what was written for it, the other keys are those of [acc]. *)
Lemma loadRecord_from_saved (record : Rec) (rest : list Z) (columns : list Column.t) :
  NoDup (map Column.name columns) ->
  Forall (fun column => Column.length column < 2 ^ 31) columns ->
  Forall (fun column => fits (field_to_write record column)) columns ->
  forall (bytes : list Z) (acc : Rec),
    saveRecord record columns = (bytes, true) ->
    exists loaded,
      loadRecord_from acc (bytes ++ rest) columns = Some (loaded, rest)
      /\ Forall (fun column =>
                   loaded !! Column.name column
                   = Some (read_back column (field_to_write record column)))
           columns
      /\ forall k, k ∉ map Column.name columns -> loaded !! k = acc !! k.
Proof.
  induction columns as [|column more IH]; intros Hnodup Hlens Hfits bytes acc Hsave.
  - inversion Hsave; subst. exists acc. conjuncts; [reflexivity|constructor|auto].
  - simpl in Hsave, Hnodup. apply NoDup_cons in Hnodup as [Hfresh Hnodup].
    inversion Hlens as [|? ? Hl Hlens']; subst.
    inversion Hfits as [|? ? Hf Hfits']; subst.
    destruct (serializeField (field_to_write record column) column) as [chunk|] eqn:Hser;
      [|discriminate].
    destruct (saveRecord record more) as [tail ok] eqn:Htail.
    inversion Hsave; subst; clear Hsave.
    pose proof (field_read_back column _ chunk (tail ++ rest) Hl Hf Hser) as Hread.
    destruct (IH Hnodup Hlens' Hfits' tail
                (<[Column.name column := read_back column (field_to_write record column)]> acc)
                eq_refl)
      as (loaded & Hload & Hcols & Hother).
    exists loaded. conjuncts.
    + simpl. rewrite <- app_assoc, Hread. exact Hload.
    + constructor; [|exact Hcols].
      rewrite (Hother _ Hfresh). apply lookup_insert_eq.
    + intros k Hk. simpl in Hk. apply not_elem_of_cons in Hk as [Hne Hk].
      rewrite (Hother _ Hk). apply lookup_insert_ne. congruence.
Qed.

(** X3. Saving a record and loading the bytes gives a record with exactly
    the columns of the schema: every column holds what was written for it
    (the record's value or the typed default; a string cut or padded to the
    declared length), a key of the record that names no column is gone, and
    the stream is left right after the record. *)
Theorem record_round_trip (record : Rec) (schema : TableSchema.t) (bytes rest : list Z) :
  well_formed schema ->
  int_lengths schema ->
  Forall (fun column => fits (field_to_write record column)) (TableSchema.columns schema) ->
  saveRecord record (TableSchema.columns schema) = (bytes, true) ->
  exists loaded,
    loadRecord (bytes ++ rest) schema = Some (loaded, rest)
    /\ Forall (fun column =>
                 loaded !! Column.name column
                 = Some (read_back column (field_to_write record column)))
         (TableSchema.columns schema)
    /\ forall k, k ∉ map Column.name (TableSchema.columns schema) -> loaded !! k = None.
Proof.
  intros [Hnodup _] Hlens Hfits Hsave. unfold loadRecord.
  destruct (loadRecord_from_saved record rest _ Hnodup Hlens Hfits bytes ∅ Hsave)
    as (loaded & Hload & Hcols & Hother).
  exists loaded. conjuncts; [exact Hload|exact Hcols|].
  intros k Hk. now rewrite (Hother k Hk).
Qed.

Lemma record_round_trip_witness :
  exists loaded,
    loadRecord (fst (saveRecord (row 1 2) (TableSchema.columns t_schema)) ++ [9]) t_schema
    = Some (loaded, [9])
    /\ Forall (fun column =>
                 loaded !! Column.name column
                 = Some (read_back column (field_to_write (row 1 2) column)))
         (TableSchema.columns t_schema)
    /\ forall k, k ∉ map Column.name (TableSchema.columns t_schema) -> loaded !! k = None.
Proof.
  apply (record_round_trip (row 1 2) t_schema).
  - exact t_schema_well_formed.
  - repeat constructor.
  - repeat constructor; vm_compute; intuition discriminate.
  - vm_compute. reflexivity.
Defined.

(** ** What an insert leaves behind *)

Lemma catalog_ensure_index (table_name : string) (schema : TableSchema.t) (st : State) :
  catalog (ensure_index table_name schema st) = catalog st.
Proof.
  unfold ensure_index. destruct (indexes st !! table_name); [reflexivity|].
  unfold createIndex. destruct (find_primary_key schema); [|reflexivity].
  simpl. unfold open_tree. now destruct (index_files st !! _).
Qed.

(** X5. After an insert that returned [true], [getAllRecords] returns the
    records the data file held, in the same order, then the new record: for
    every column what was written for it (the record's value or the typed
    default, strings cut or padded). *)
Theorem insert_then_getAllRecords
    (st st' : State) (table_name : string) (record : Rec) (schema : TableSchema.t)
    (column : Column.t) (held : list (Z * Rec)) :
  find_table (catalog st) table_name = Some schema ->
  well_formed schema ->
  int_lengths schema ->
  find_primary_key schema = Some column ->
  Forall (fun column => fits (field_to_write record column)) (TableSchema.columns schema) ->
  scan schema (content_of (TableSchema.data_file_path schema) st) = Some held ->
  insertRecord st table_name record = Returned true st' ->
  exists loaded,
    getAllRecords st' table_name = Returned (map snd held ++ [loaded]) st'
    /\ Forall (fun column =>
                 loaded !! Column.name column
                 = Some (read_back column (field_to_write record column)))
         (TableSchema.columns schema).
Proof.
  intros Hfind Hwf Hlens Hpk Hfits Hscan Hins.
  destruct (insert_effect at_end _ _ _ _ _ _ Hfind Hpk Hins)
    as (k & bytes & Hv & Hty & _ & Hsave & ->).
  assert (Hin : In column (TableSchema.columns schema)).
  { unfold find_primary_key in Hpk. now apply find_some in Hpk as [Hin _]. }
  destruct (loadRecord_from_saved record [] _ (proj1 Hwf) Hlens Hfits bytes ∅ Hsave)
    as (loaded & Hload & Hcols & _).
  rewrite app_nil_r in Hload. fold (loadRecord bytes schema) in Hload.
  exists loaded. split; [|exact Hcols].
  unfold getAllRecords. cbn [catalog tree_insert set_index_files set_files files].
  rewrite catalog_ensure_index, Hfind, lookup_insert_eq.
  unfold scan in *. rewrite length_app.
  rewrite (scan_from_extend schema bytes loaded
             (saveRecord_int_column _ _ _ _ Hin Hty Hsave) Hload
             (length (content_of (TableSchema.data_file_path schema) st)) _ 0 _ held);
    [|pose proof (saveRecord_int_column _ _ _ _ Hin Hty Hsave);
      destruct bytes; [contradiction|simpl; lia]
     |exact Hscan].
  now rewrite map_app.
Qed.

Lemma insert_then_getAllRecords_witness :
  exists loaded,
    getAllRecords (after (insertRecord fresh "t" (row 1 10))) "t"
    = Returned (map snd (@nil (Z * Rec)) ++ [loaded]) (after (insertRecord fresh "t" (row 1 10)))
    /\ Forall (fun column =>
                 loaded !! Column.name column
                 = Some (read_back column (field_to_write (row 1 10) column)))
         (TableSchema.columns t_schema).
Proof.
  apply (insert_then_getAllRecords fresh (after (insertRecord fresh "t" (row 1 10)))
           "t" (row 1 10) t_schema id_column []).
  - vm_compute. reflexivity.
  - exact t_schema_well_formed.
  - repeat constructor.
  - vm_compute. reflexivity.
  - repeat constructor; vm_compute; intuition discriminate.
  - vm_compute. reflexivity.
  - vm_compute. reflexivity.
Defined.

(** A seek and load that succeeds still succeeds, with the same record, once
    the file has grown. *)
Lemma load_at_more (content extra : list Z) (offset : Z) (schema : TableSchema.t)
    (record : Rec) :
  load_at content offset schema = Some record ->
  load_at (content ++ extra) offset schema = Some record.
Proof.
  unfold load_at. rewrite length_app.
  destruct (Z.leb_spec 0 offset) as [Hpos|]; [|discriminate].
  destruct (Z.leb_spec offset (Z.of_nat (length content))) as [Hle|]; [|discriminate].
  simpl. destruct (Z.leb_spec offset (Z.of_nat (length content + length extra))); [|lia].
  intros Hload.
  destruct (loadRecord (drop (Z.to_nat offset) content) schema) as [[r rest]|] eqn:Hrec;
    [|discriminate].
  simpl in Hload. inversion Hload; subst.
  rewrite drop_app_le by lia.
  unfold loadRecord in *. now rewrite (loadRecord_from_more _ extra _ _ _ _ Hrec).
Qed.

(** The record appended to a file is the one a seek to the old end loads. *)
Lemma load_at_end (content extra : list Z) (schema : TableSchema.t) (record : Rec) :
  loadRecord extra schema = Some (record, []) ->
  load_at (content ++ extra) (Z.of_nat (length content)) schema = Some record.
Proof.
  intros Hload. unfold load_at. rewrite length_app.
  destruct (Z.leb_spec 0 (Z.of_nat (length content))); [|lia].
  destruct (Z.leb_spec (Z.of_nat (length content))
              (Z.of_nat (length content + length extra))); [|lia].
  simpl. rewrite Nat2Z.id, drop_app_length, Hload. reflexivity.
Qed.

Lemma search_insert (key k offset : Z) (tree : BPlusTree.t) :
  BPlusTree.search key (BPlusTree.insert k offset tree)
  = BPlusTree.search key tree ++ (if k =? key then [offset] else []).
Proof.
  unfold BPlusTree.search, BPlusTree.insert.
  rewrite List.filter_app, map_app. simpl. now destruct (k =? key).
Qed.

Lemma is_primary_key_column_found (schema : TableSchema.t) (column : Column.t) :
  find_primary_key schema = Some column ->
  is_primary_key_column schema (Column.name column) = true.
Proof.
  unfold find_primary_key, is_primary_key_column. intros Hpk.
  apply find_some in Hpk as [Hin Hflag].
  apply existsb_exists. exists column. split; [exact Hin|].
  now rewrite String.eqb_refl, Hflag.
Qed.

(** X6. After an insert that returned [true] of a record with key [k], on
    a stream that reports the end of the data file as its position, that
    end being below 2^31, a point query on the primary key goes through the
    index and returns what the index lookup found before, followed by the
    new record when the key asked for is [k]: the new record is found, no
    other lookup changes. *)
Theorem insert_then_searchRecords
    (io : Stream) (st st' : State) (table_name : string) (record : Rec)
    (schema : TableSchema.t) (column : Column.t) (k key : Z) (found : list Rec) :
  find_table (catalog st) table_name = Some schema ->
  well_formed schema ->
  int_lengths schema ->
  find_primary_key schema = Some column ->
  Forall (fun column => fits (field_to_write record column)) (TableSchema.columns schema) ->
  record !! Column.name column = Some (FInt k) ->
  search_by_index schema (content_of (TableSchema.data_file_path schema) st)
    (tree_of (handle_for st table_name schema) st) (FInt key) = Some found ->
  tellp io (content_of (TableSchema.data_file_path schema) st)
  = Z.of_nat (length (content_of (TableSchema.data_file_path schema) st)) ->
  Z.of_nat (length (content_of (TableSchema.data_file_path schema) st)) < 2 ^ 31 ->
  insertRecord_on io st table_name record = Returned true st' ->
  exists loaded,
    searchRecords st' table_name (Column.name column) (FInt key)
    = Returned (found ++ (if k =? key then [loaded] else [])) st'
    /\ loaded !! Column.name column = Some (FInt k).
Proof.
  intros Hfind Hwf Hlens Hpk Hfits Hk Hfound Htellp Hsmall Hins.
  pose proof (find_table_name _ _ _ Hfind) as Hname.
  destruct (insert_effect _ _ _ _ _ _ _ Hfind Hpk Hins)
    as (k' & bytes & Hv & Hty & _ & Hsave & ->).
  rewrite Htellp, int_of_pos_small by lia.
  rewrite Hk in Hv. injection Hv as <-.
  assert (Hin : In column (TableSchema.columns schema)).
  { unfold find_primary_key in Hpk. now apply find_some in Hpk as [Hin _]. }
  destruct (loadRecord_from_saved record [] _ (proj1 Hwf) Hlens Hfits bytes ∅ Hsave)
    as (loaded & Hload & Hcols & _).
  rewrite app_nil_r in Hload. fold (loadRecord bytes schema) in Hload.
  exists loaded. split.
  - unfold searchRecords. cbn [catalog tree_insert set_index_files set_files files indexes].
    rewrite catalog_ensure_index, Hfind, lookup_insert_eq.
    rewrite (is_primary_key_column_found _ _ Hpk).
    rewrite (handle_after_ensure_index st table_name schema column Hname Hpk).
    match goal with
    | |- of_option ?s (search_by_index _ _ (tree_of ?h ?s) _) = _ =>
        change (tree_of h s)
          with (tree_of h (tree_insert h k
                  (Z.of_nat (length (content_of (TableSchema.data_file_path schema) st)))
                  (ensure_index table_name schema st)))
    end.
    rewrite tree_of_tree_insert, tree_of_ensure_index.
    unfold search_by_index in *. rewrite search_insert.
    apply mapM_Some_1 in Hfound.
    erewrite mapM_Some_2; [reflexivity|].
    apply Forall2_app.
    + eapply Forall2_impl; [exact Hfound|].
      intros offset r Hr. now apply load_at_more.
    + destruct (k =? key); constructor; [|constructor].
      now apply load_at_end.
  - rewrite Forall_forall in Hcols. rewrite (Hcols column (proj2 (list_elem_of_In _ _) Hin)).
    unfold field_to_write. now rewrite Hk.
Qed.

Lemma insert_then_searchRecords_witness :
  exists loaded,
    searchRecords (after (insertRecord_on at_end two_rows "t" (row 2 30))) "t" "id" (FInt 2)
    = Returned ([row 2 20] ++ (if 2 =? 2 then [loaded] else []))
        (after (insertRecord_on at_end two_rows "t" (row 2 30)))
    /\ loaded !! "id" = Some (FInt 2).
Proof.
  apply (insert_then_searchRecords at_end two_rows
           (after (insertRecord_on at_end two_rows "t" (row 2 30)))
           "t" (row 2 30) t_schema id_column 2 2 [row 2 20]).
  - vm_compute. reflexivity.
  - exact t_schema_well_formed.
  - repeat constructor.
  - vm_compute. reflexivity.
  - repeat constructor; vm_compute; intuition discriminate.
  - vm_compute. reflexivity.
  - vm_compute. reflexivity.
  - vm_compute. reflexivity.
  - vm_compute. reflexivity.
  - vm_compute. reflexivity.
Defined.

Lemma index_files_ensure_index (table_name path : string) (schema : TableSchema.t)
    (st : State) :
  path <> handle_for st table_name schema ->
  index_files (ensure_index table_name schema st) !! path = index_files st !! path.
Proof.
  unfold ensure_index, handle_for.
  destruct (indexes st !! table_name) as [handle|]; [reflexivity|]. simpl.
  unfold createIndex. destruct (find_primary_key schema); [|reflexivity].
  unfold open_tree. simpl.
  destruct (index_files st !! TableSchema.index_file_path schema); [reflexivity|].
  intros Hne. simpl. now rewrite lookup_insert_ne by congruence.
Qed.

Lemma indexes_ensure_index (table_name other : string) (schema : TableSchema.t)
    (st : State) :
  TableSchema.name schema = table_name ->
  other <> table_name ->
  indexes (ensure_index table_name schema st) !! other = indexes st !! other.
Proof.
  intros Hname Hne. unfold ensure_index.
  destruct (indexes st !! table_name); [reflexivity|].
  unfold createIndex. destruct (find_primary_key schema); [|reflexivity].
  simpl. rewrite lookup_insert_ne by congruence.
  unfold open_tree. now destruct (index_files st !! _).
Qed.

(** X4. An insert that returned [true], on any stream: the data file keeps
    every byte it held and has one record's width more, the sum of
    [getFieldSize] over the columns; the index behind the table's handle has
    one entry more, the record's key with the position the stream reported,
    narrowed to [int]. No other data file, no other index file, no handle of
    another table and no catalog entry changes. *)
Theorem insert_grows_by_one_record
    (io : Stream) (st st' : State) (table_name : string) (record : Rec)
    (schema : TableSchema.t) (column : Column.t) :
  find_table (catalog st) table_name = Some schema ->
  find_primary_key schema = Some column ->
  insertRecord_on io st table_name record = Returned true st' ->
  exists k bytes,
    record !! Column.name column = Some (FInt k)
    /\ files st' !! TableSchema.data_file_path schema
       = Some (content_of (TableSchema.data_file_path schema) st ++ bytes)
    /\ Z.of_nat (length bytes) = record_size (TableSchema.columns schema)
    /\ (forall path, path <> TableSchema.data_file_path schema ->
                     files st' !! path = files st !! path)
    /\ indexes st' !! table_name = Some (handle_for st table_name schema)
    /\ index_files st' !! handle_for st table_name schema
       = Some (tree_of (handle_for st table_name schema) st
               ++ [(k, int_of_pos
                         (tellp io (content_of (TableSchema.data_file_path schema) st)))])
    /\ (forall path, path <> handle_for st table_name schema ->
                     index_files st' !! path = index_files st !! path)
    /\ (forall other, other <> table_name -> indexes st' !! other = indexes st !! other)
    /\ catalog st' = catalog st.
Proof.
  intros Hfind Hpk Hins.
  pose proof (find_table_name _ _ _ Hfind) as Hname.
  destruct (insert_effect _ _ _ _ _ _ _ Hfind Hpk Hins)
    as (k & bytes & Hk & _ & _ & Hsave & ->).
  exists k, bytes.
  cbn [tree_insert set_index_files set_files files index_files indexes catalog]. conjuncts.
  - exact Hk.
  - apply lookup_insert_eq.
  - now apply (length_saveRecord record).
  - intros path Hne. rewrite lookup_insert_ne by congruence.
    now rewrite files_ensure_index.
  - now apply (handle_after_ensure_index st table_name schema column).
  - rewrite lookup_insert_eq. f_equal. unfold BPlusTree.insert. f_equal.
    match goal with
    | |- tree_of ?h (set_files _ ?s) = _ => change (tree_of h (set_files _ s)) with (tree_of h s)
    end.
    apply tree_of_ensure_index.
  - intros path Hne. rewrite lookup_insert_ne by congruence.
    now apply index_files_ensure_index.
  - intros other Hne. now apply indexes_ensure_index.
  - apply catalog_ensure_index.
Qed.

Lemma insert_grows_by_one_record_witness :
  exists k bytes,
    row 3 30 !! "id" = Some (FInt k)
    /\ files (after (insertRecord_on at_end two_rows "t" (row 3 30))) !! "data/t.dat"
       = Some (content_of "data/t.dat" two_rows ++ bytes)
    /\ Z.of_nat (length bytes) = record_size [id_column; v_column]
    /\ (forall path, path <> "data/t.dat"%string ->
                     files (after (insertRecord_on at_end two_rows "t" (row 3 30))) !! path
                     = files two_rows !! path)
    /\ indexes (after (insertRecord_on at_end two_rows "t" (row 3 30))) !! "t"
       = Some "data/t.idx"%string
    /\ index_files (after (insertRecord_on at_end two_rows "t" (row 3 30))) !! "data/t.idx"
       = Some (tree_of "data/t.idx" two_rows ++ [(k, 16)])
    /\ (forall path, path <> "data/t.idx"%string ->
                     index_files (after (insertRecord_on at_end two_rows "t" (row 3 30)))
                       !! path
                     = index_files two_rows !! path)
    /\ (forall other, other <> "t"%string ->
                      indexes (after (insertRecord_on at_end two_rows "t" (row 3 30)))
                        !! other
                      = indexes two_rows !! other)
    /\ catalog (after (insertRecord_on at_end two_rows "t" (row 3 30))) = catalog two_rows.
Proof.
  apply (insert_grows_by_one_record at_end two_rows
           (after (insertRecord_on at_end two_rows "t" (row 3 30)))
           "t" (row 3 30) t_schema id_column).
  - vm_compute. reflexivity.
  - vm_compute. reflexivity.
  - vm_compute. reflexivity.
Defined.

(** ** Rejected calls *)

Lemma same_storage_report (line : string) (st : State) : same_storage st (report line st).
Proof. unfold same_storage. simpl. auto. Qed.


Lemma find_table_unlisted (tables : list TableSchema.t) (table_name : string) :
  ~ In table_name (map TableSchema.name tables) -> find_table tables table_name = None.
Proof.
  induction tables as [|table more IH]; intros Hout; [reflexivity|].
  unfold find_table in *. simpl in *.
  destruct (String.eqb_spec (TableSchema.name table) table_name) as [Heq|Hne].
  - exfalso. apply Hout. now left.
  - apply IH. intros Hin. apply Hout. now right.
Qed.

(** X11. A name [listTables] does not list is turned away by every
    operation: [insertRecord], [updateRecord] and [deleteRecord] return
    [false], the three searches return no record, [getTableSchema] returns
    the empty schema; each call writes "Table '...' not found" and changes
    nothing else. *)
Theorem unlisted_table (st : State) (table_name : string) :
  ~ In table_name (listTables st) ->
  (forall record,
      insertRecord st table_name record
      = Returned false (report (table_not_found table_name) st))
  /\ getAllRecords st table_name = Returned [] (report (table_not_found table_name) st)
  /\ (forall key_column key_value,
         searchRecords st table_name key_column key_value
         = Returned [] (report (table_not_found table_name) st))
  /\ (forall conditions,
         searchRecordsAdvanced st table_name conditions
         = Returned [] (report (table_not_found table_name) st))
  /\ (forall key_column key_value new_values,
         updateRecord st table_name key_column key_value new_values
         = Returned false (report (table_not_found table_name) st))
  /\ (forall key_column key_value,
         deleteRecord st table_name key_column key_value
         = Returned false (report (table_not_found table_name) st))
  /\ getTableSchema st table_name = TableSchema.empty
  /\ same_storage st (report (table_not_found table_name) st).
Proof.
  intros Hout. apply find_table_unlisted in Hout.
  unfold insertRecord, insertRecord_on, getAllRecords, searchRecords,
    searchRecordsAdvanced, updateRecord, deleteRecord, rewrite_table, getTableSchema.
  rewrite Hout. conjuncts; try reflexivity. apply same_storage_report.
Qed.

Lemma unlisted_table_witness :
  (forall record,
      insertRecord fresh "u" record = Returned false (report (table_not_found "u") fresh))
  /\ getAllRecords fresh "u" = Returned [] (report (table_not_found "u") fresh)
  /\ (forall key_column key_value,
         searchRecords fresh "u" key_column key_value
         = Returned [] (report (table_not_found "u") fresh))
  /\ (forall conditions,
         searchRecordsAdvanced fresh "u" conditions
         = Returned [] (report (table_not_found "u") fresh))
  /\ (forall key_column key_value new_values,
         updateRecord fresh "u" key_column key_value new_values
         = Returned false (report (table_not_found "u") fresh))
  /\ (forall key_column key_value,
         deleteRecord fresh "u" key_column key_value
         = Returned false (report (table_not_found "u") fresh))
  /\ getTableSchema fresh "u" = TableSchema.empty
  /\ same_storage fresh (report (table_not_found "u") fresh).
Proof.
  apply (unlisted_table fresh "u").
  vm_compute. intuition discriminate.
Defined.

(** ** Creating tables *)

Lemma existsb_listed (tables : list TableSchema.t) (table_name : string) :
  existsb (fun table => String.eqb (TableSchema.name table) table_name) tables = true
  <-> In table_name (map TableSchema.name tables).
Proof.
  rewrite existsb_exists, in_map_iff. split.
  - intros (table & Hin & Heq). apply String.eqb_eq in Heq. eauto.
  - intros (table & Heq & Hin). exists table. split; [exact Hin|].
    now apply String.eqb_eq.
Qed.

Lemma make_columns_spec (primary_key : string) (foreign_keys : gmap string (string * string))
    (triples : list (string * string * Z)) :
  forall (st st1 : State) (cols : list Column.t),
    make_columns primary_key foreign_keys triples st = (cols, st1) ->
    same_storage st st1
    /\ catalog_path st1 = catalog_path st
    /\ Forall2 (fun column triple =>
                  Column.name column = triple_name triple
                  /\ Column.type column = fst (stringToColumnType (triple_type triple))
                  /\ Column.length column = snd triple
                  /\ Column.is_primary_key column
                     = String.eqb (triple_name triple) primary_key)
         cols triples.
Proof.
  induction triples as [|[[col_name col_type] col_length] more IH]; intros st st1 cols Hmake.
  - inversion Hmake; subst. unfold same_storage. conjuncts; auto.
  - simpl in Hmake.
    destruct (stringToColumnType col_type) as [ty known] eqn:Hty.
    destruct (default ("", "") (foreign_keys !! col_name)) as [ref_table ref_column].
    destruct (make_columns primary_key foreign_keys more _) as [columns st2] eqn:Hmore.
    inversion Hmake; subst; clear Hmake.
    destruct (IH _ _ _ Hmore) as ((Hc & Hi & Hf & Ht & Hl) & Hp & Hall).
    split; [|split].
    + unfold same_storage. destruct known; simpl in *; conjuncts; assumption.
    + destruct known; simpl in *; assumption.
    + constructor; [|exact Hall]. unfold triple_name, triple_type.
      cbn [fst snd Column.name Column.type Column.length Column.is_primary_key].
      rewrite Hty. conjuncts; reflexivity.
Qed.

Lemma same_storage_createIndex_files (table : TableSchema.t) (st : State) :
  catalog (createIndex table st) = catalog st
  /\ files (createIndex table st) = files st.
Proof.
  unfold createIndex. destruct (find_primary_key table); [|split; reflexivity].
  simpl. unfold open_tree. destruct (index_files st !! _); split; reflexivity.
Qed.

Lemma find_in_app {A} (f : A -> bool) (l1 l2 : list A) :
  List.find f (l1 ++ l2)
  = match List.find f l1 with
    | Some x => Some x
    | None => List.find f l2
    end.
Proof.
  induction l1 as [|a l1 IH]; [reflexivity|]. simpl. now destruct (f a).
Qed.

Lemma find_table_app_new (tables : list TableSchema.t) (table : TableSchema.t)
    (table_name : string) :
  ~ In table_name (map TableSchema.name tables) ->
  TableSchema.name table = table_name ->
  find_table (tables ++ [table]) table_name = Some table.
Proof.
  intros Hout Hname. unfold find_table. rewrite find_in_app.
  fold (find_table tables table_name). rewrite (find_table_unlisted _ _ Hout).
  simpl. rewrite Hname. now rewrite String.eqb_refl.
Qed.

Lemma find_table_app_other (tables : list TableSchema.t) (table : TableSchema.t)
    (other : string) :
  other <> TableSchema.name table ->
  find_table (tables ++ [table]) other = find_table tables other.
Proof.
  intros Hne. unfold find_table. rewrite find_in_app.
  destruct (List.find _ tables); [reflexivity|]. simpl.
  destruct (String.eqb_spec (TableSchema.name table) other); [congruence|reflexivity].
Qed.

Lemma find_primary_key_made (primary_key : string) (cols : list Column.t)
    (triples : list (string * string * Z)) (table : TableSchema.t) :
  TableSchema.columns table = cols ->
  Forall2 (fun column triple =>
             Column.name column = triple_name triple
             /\ Column.type column = fst (stringToColumnType (triple_type triple))
             /\ Column.length column = snd triple
             /\ Column.is_primary_key column = String.eqb (triple_name triple) primary_key)
    cols triples ->
  (In primary_key (map triple_name triples) ->
   exists column triple,
     find_primary_key table = Some column
     /\ Column.name column = primary_key
     /\ In triple triples
     /\ Column.type column = fst (stringToColumnType (triple_type triple)))
  /\ (~ In primary_key (map triple_name triples) -> find_primary_key table = None).
Proof.
  intros Hcols Hall. unfold find_primary_key. rewrite Hcols. clear Hcols.
  induction Hall as [|column triple cols triples (Hn & Ht & Hl & Hp) Hrest IH].
  - split; [intros []|reflexivity].
  - simpl. rewrite Hp.
    destruct (String.eqb_spec (triple_name triple) primary_key) as [Heq|Hne].
    + split.
      * intros _. exists column, triple. conjuncts; auto. congruence.
      * intros Hout. exfalso. apply Hout. now left.
    + destruct IH as [IHin IHout]. split.
      * intros [Heq|Hin]; [congruence|].
        destruct (IHin Hin) as (c & tr & Hf & Hname & Hint & Hty).
        exists c, tr. conjuncts; auto.
      * intros Hout. apply IHout. intros Hin. apply Hout. now right.
Qed.

(** What [createTable] does with a name the catalog does not list. *)
Lemma createTable_fresh
    (st : State) (table_name : string) (columns : list (string * string * Z))
    (primary_key : string) (foreign_keys : gmap string (string * string)) :
  ~ In table_name (listTables st) ->
  exists st' table,
    createTable st table_name columns primary_key foreign_keys = Returned true st'
    /\ catalog st' = catalog st ++ [table]
    /\ files st' = files st
    /\ find_table (catalog st') table_name = Some table
    /\ TableSchema.name table = table_name
    /\ TableSchema.data_file_path table = data_path_of st table_name
    /\ TableSchema.index_file_path table = index_path_of st table_name
    /\ Forall2 (fun column triple =>
                  Column.name column = triple_name triple
                  /\ Column.type column = fst (stringToColumnType (triple_type triple))
                  /\ Column.length column = snd triple
                  /\ Column.is_primary_key column
                     = String.eqb (triple_name triple) primary_key)
         (TableSchema.columns table) columns
    /\ (In primary_key (map triple_name columns) ->
        indexes st' !! table_name = Some (index_path_of st table_name))
    /\ (~ In primary_key (map triple_name columns) -> indexes st' = indexes st).
Proof.
  intros Hout. unfold createTable.
  destruct (existsb _ (catalog st)) eqn:Hex.
  { exfalso. apply Hout. now apply existsb_listed. }
  destruct (make_columns primary_key foreign_keys columns st) as [cols st1] eqn:Hmake.
  destruct (make_columns_spec _ _ _ _ _ _ Hmake) as ((Hc & Hi & Hf & Ht & Hl) & Hp & Hall).
  set (table := TableSchema.mk table_name cols _ _).
  exists (createIndex table (set_catalog (fun tables => tables ++ [table]) st1)), table.
  destruct (same_storage_createIndex_files table
              (set_catalog (fun tables => tables ++ [table]) st1)) as [Hcat Hfiles].
  destruct (find_primary_key_made primary_key cols columns table eq_refl Hall)
    as [Hkeyed Hplain].
  conjuncts; try reflexivity.
  - rewrite Hcat. simpl. now rewrite Hc.
  - rewrite Hfiles. simpl. exact Hf.
  - rewrite Hcat. simpl. rewrite Hc. now apply find_table_app_new.
  - exact Hall.
  - intros Hin. destruct (Hkeyed Hin) as (column & triple & Hfind & _).
    unfold createIndex. rewrite Hfind. simpl. apply lookup_insert_eq.
  - intros Hno. unfold createIndex. rewrite (Hplain Hno). simpl. exact Hi.
Qed.

(** X12. [createTable] returns [false] exactly for a name the catalog
    lists, and then changes nothing but [std::cerr]. For a new name it
    returns [true] and appends one schema to the catalog: [getTableSchema]
    finds it under its name with one column per triple, in order, and the
    data and index paths next to the catalog file; the schema of every other
    name is as before; no data file is written; an index handle is
    registered exactly when [primary_key] names one of the columns. *)
Theorem createTable_outcome
    (st : State) (table_name : string) (columns : list (string * string * Z))
    (primary_key : string) (foreign_keys : gmap string (string * string)) :
  (In table_name (listTables st) ->
   createTable st table_name columns primary_key foreign_keys
   = Returned false (report (already_exists table_name) st))
  /\ (~ In table_name (listTables st) ->
      exists st',
        createTable st table_name columns primary_key foreign_keys = Returned true st'
        /\ listTables st' = listTables st ++ [table_name]
        /\ files st' = files st
        /\ TableSchema.name (getTableSchema st' table_name) = table_name
        /\ map Column.name (TableSchema.columns (getTableSchema st' table_name))
           = map triple_name columns
        /\ TableSchema.data_file_path (getTableSchema st' table_name)
           = data_path_of st table_name
        /\ TableSchema.index_file_path (getTableSchema st' table_name)
           = index_path_of st table_name
        /\ (forall other, other <> table_name ->
                          getTableSchema st' other = getTableSchema st other)
        /\ (In primary_key (map triple_name columns) ->
            indexes st' !! table_name = Some (index_path_of st table_name))
        /\ (~ In primary_key (map triple_name columns) -> indexes st' = indexes st)).
Proof.
  split.
  - intros Hin. unfold createTable.
    now rewrite (proj2 (existsb_listed _ _) Hin).
  - intros Hout.
    destruct (createTable_fresh st table_name columns primary_key foreign_keys Hout)
      as (st' & table & Hres & Hcat & Hfiles & Hfind & Hname & Hdata & Hidx & Hall
          & Hkeyed & Hplain).
    exists st'. unfold getTableSchema, listTables. rewrite Hfind, Hcat. simpl.
    conjuncts; auto.
    + now rewrite map_app, <- Hname.
    + clear -Hall. induction Hall as [|? ? ? ? (Hn & _) _ IH]; [reflexivity|].
      simpl. now rewrite Hn, IH.
    + intros other Hne. rewrite find_table_app_other by congruence. reflexivity.
Qed.

(** X13. A table is created without a data file. Until the first insert
    every read of it returns no record, and an update or a delete returns
    [false]; each of them reports "Data file not found" and changes nothing
    else. *)
Theorem created_table_has_no_data
    (st st' : State) (table_name : string) (columns : list (string * string * Z))
    (primary_key : string) (foreign_keys : gmap string (string * string)) :
  ~ In table_name (listTables st) ->
  files st !! data_path_of st table_name = None ->
  createTable st table_name columns primary_key foreign_keys = Returned true st' ->
  exists line,
    line = ("Data file not found: " +:+ data_path_of st table_name)%string
    /\ getAllRecords st' table_name = Returned [] (report line st')
    /\ (forall key_column key_value,
           searchRecords st' table_name key_column key_value = Returned [] (report line st'))
    /\ (forall conditions,
           searchRecordsAdvanced st' table_name conditions = Returned [] (report line st'))
    /\ (forall key_column key_value new_values,
           updateRecord st' table_name key_column key_value new_values
           = Returned false (report line st'))
    /\ (forall key_column key_value,
           deleteRecord st' table_name key_column key_value
           = Returned false (report line st')).
Proof.
  intros Hout Hnone Hcreate.
  destruct (createTable_fresh st table_name columns primary_key foreign_keys Hout)
    as (st1 & table & Hres & Hcat & Hfiles & Hfind & Hname & Hdata & _).
  rewrite Hres in Hcreate. injection Hcreate as <-.
  eexists. split; [reflexivity|].
  unfold getAllRecords, searchRecords, searchRecordsAdvanced, updateRecord, deleteRecord,
    rewrite_table.
  rewrite Hfind, Hfiles, Hdata, Hnone. conjuncts; reflexivity.
Qed.

Lemma created_table_has_no_data_witness :
  exists line,
    line = ("Data file not found: " +:+ data_path_of fresh "u")%string
    /\ getAllRecords (after (createTable fresh "u" [("id", "int", 0)] "id" ∅)) "u"
       = Returned [] (report line (after (createTable fresh "u" [("id", "int", 0)] "id" ∅)))
    /\ (forall key_column key_value,
           searchRecords (after (createTable fresh "u" [("id", "int", 0)] "id" ∅)) "u"
             key_column key_value
           = Returned []
               (report line (after (createTable fresh "u" [("id", "int", 0)] "id" ∅))))
    /\ (forall conditions,
           searchRecordsAdvanced (after (createTable fresh "u" [("id", "int", 0)] "id" ∅)) "u"
             conditions
           = Returned []
               (report line (after (createTable fresh "u" [("id", "int", 0)] "id" ∅))))
    /\ (forall key_column key_value new_values,
           updateRecord (after (createTable fresh "u" [("id", "int", 0)] "id" ∅)) "u"
             key_column key_value new_values
           = Returned false
               (report line (after (createTable fresh "u" [("id", "int", 0)] "id" ∅))))
    /\ (forall key_column key_value,
           deleteRecord (after (createTable fresh "u" [("id", "int", 0)] "id" ∅)) "u"
             key_column key_value
           = Returned false
               (report line (after (createTable fresh "u" [("id", "int", 0)] "id" ∅)))).
Proof.
  apply (created_table_has_no_data fresh
           (after (createTable fresh "u" [("id", "int", 0)] "id" ∅))
           "u" [("id", "int", 0)] "id" ∅).
  - vm_compute. intuition discriminate.
  - vm_compute. reflexivity.
  - vm_compute. reflexivity.
Defined.

(** ** Type names *)

Lemma toupper_not_lower (c : ascii) :
  ~ (97 <= Strto.code (toupper c) <= 122).
Proof.
  destruct c as [[] [] [] [] [] [] [] []]; vm_compute; intuition discriminate.
Qed.

Lemma toupper_idempotent (c : ascii) : toupper (toupper c) = toupper c.
Proof.
  destruct c as [[] [] [] [] [] [] [] []]; vm_compute; reflexivity.
Qed.

Lemma upper_idempotent (s : string) : upper (upper s) = upper s.
Proof.
  induction s as [|c s IH]; [reflexivity|]. simpl. now rewrite toupper_idempotent, IH.
Qed.

(** No upper-cased string is one of the names [stringToColumnType] knows. *)
Lemma upper_defaults_to_string (s : string) : defaults_to_string (upper s).
Proof.
  unfold defaults_to_string, stringToColumnType.
  destruct s as [|c s]; [reflexivity|]. simpl.
  pose proof (toupper_not_lower c) as Hup.
  destruct (Ascii.eqb_spec (toupper c) "i") as [Heq|_];
    [rewrite Heq in Hup; exfalso; apply Hup; vm_compute; intuition discriminate|].
  destruct (Ascii.eqb_spec (toupper c) "f") as [Heq|_];
    [rewrite Heq in Hup; exfalso; apply Hup; vm_compute; intuition discriminate|].
  destruct (Ascii.eqb_spec (toupper c) "s") as [Heq|_];
    [rewrite Heq in Hup; exfalso; apply Hup; vm_compute; intuition discriminate|].
  destruct (Ascii.eqb_spec (toupper c) "c") as [Heq|_];
    [rewrite Heq in Hup; exfalso; apply Hup; vm_compute; intuition discriminate|].
  destruct (Ascii.eqb_spec (toupper c) "b") as [Heq|_];
    [rewrite Heq in Hup; exfalso; apply Hup; vm_compute; intuition discriminate|].
  reflexivity.
Qed.

(** X14. The two readers of type names. [parseColumnType] ignores letter
    case and knows every name [stringToColumnType] knows, with the same
    type; [stringToColumnType] knows the five names in lower case only: an
    upper-cased name is never one of them, and it makes the column a STRING
    column. *)
Theorem type_names (type_str : string) :
  parseColumnType (upper type_str) = parseColumnType type_str
  /\ (forall ty, stringToColumnType type_str = (ty, true) ->
                 parseColumnType type_str = Some ty)
  /\ stringToColumnType (upper type_str) = (Column.STRING, false).
Proof.
  conjuncts.
  - unfold parseColumnType. now rewrite upper_idempotent.
  - intros ty. unfold stringToColumnType.
    destruct (String.eqb_spec type_str "int") as [->|_]; [now intros [= <-]|].
    destruct (String.eqb_spec type_str "float") as [->|_]; [now intros [= <-]|].
    destruct (String.eqb_spec type_str "string") as [->|_]; [now intros [= <-]|].
    destruct (String.eqb_spec type_str "char") as [->|_]; [now intros [= <-]|].
    destruct (String.eqb_spec type_str "bool") as [->|_]; [now intros [= <-]|].
    discriminate.
  - apply upper_defaults_to_string.
Qed.

(** ** Tables created from SQL *)

Lemma scan_column_type_types (tokens : list string) (s s' : table_scan) (tok : string) :
  unknown_types (scan_columns s) ->
  scan_column_type tokens s (upper tok) = inr s' ->
  unknown_types (scan_columns s') /\ defaults_to_string (current_col_type s').
Proof.
  intros Hcols. unfold scan_column_type.
  match goal with
  | |- match ?x with Some _ => _ | None => _ end = _ -> _ =>
      destruct x as [col_length|]; [|discriminate]
  end.
  match goal with |- (if ?c then _ else _) = _ -> _ => destruct c end;
    intros [= <-]; simpl.
  - split; [|reflexivity]. apply Forall_app. split; [exact Hcols|].
    constructor; [|constructor]. apply upper_defaults_to_string.
  - split; [exact Hcols|]. apply upper_defaults_to_string.
Qed.

Lemma scan_table_token_types (tokens : list string) (s s' : table_scan) :
  unknown_types (scan_columns s) /\ defaults_to_string (current_col_type s) ->
  scan_table_token tokens s = inr s' ->
  unknown_types (scan_columns s') /\ defaults_to_string (current_col_type s').
Proof.
  intros [Hcols Hty]. unfold scan_table_token.
  repeat match goal with
         | |- (if ?c then _ else _) = _ -> _ => destruct c
         end;
    try (intros [= <-]; simpl; split; assumption);
    try discriminate.
  now apply scan_column_type_types.
Qed.

Lemma scan_table_types (tokens : list string) (fuel : nat) :
  forall s s',
    unknown_types (scan_columns s) /\ defaults_to_string (current_col_type s) ->
    scan_table fuel tokens s = inr s' ->
    unknown_types (scan_columns s') /\ defaults_to_string (current_col_type s').
Proof.
  induction fuel as [|fuel IH]; intros s s' Hinv; simpl.
  - now intros [= <-].
  - destruct (_ && _); [|now intros [= <-]].
    destruct (scan_table_token tokens s) as [message|s1] eqn:Hstep; [discriminate|].
    apply IH. now apply (scan_table_token_types tokens s).
Qed.

(** The column list of a CREATE TABLE statement that parses: every type name
    is upper-cased, and a primary key that was named is one of the
    columns. *)
Lemma parseCreateTable_types (tokens : list string) (q q' : Query.t) :
  parseCreateTable tokens q = (true, q') ->
  unknown_types (Query.columns q')
  /\ (Query.primary_key q' <> ""%string ->
      In (Query.primary_key q') (map triple_name (Query.columns q'))).
Proof.
  unfold parseCreateTable, fail.
  destruct (length tokens <? 4)%nat; [discriminate|].
  destruct (length tokens <=? open_paren tokens)%nat; [discriminate|].
  destruct (scan_table _ tokens _) as [message|s] eqn:Hscan; [discriminate|].
  apply scan_table_types in Hscan; [|split; [constructor|reflexivity]].
  destruct Hscan as [Hcols Hty].
  set (pending := negb (String.eqb (current_col_name s) "")
                  && negb (String.eqb (current_col_type s) "")).
  set (columns := if pending then _ else scan_columns s).
  set (primary_key := if pending && is_primary_key s then _ else scan_primary_key s).
  destruct (bool_decide (columns = [])); [discriminate|].
  destruct (negb (String.eqb primary_key "") && negb _) eqn:Hpk; [discriminate|].
  intros [= <-]. simpl. split.
  - subst columns. destruct pending; [|exact Hcols].
    apply Forall_app. split; [exact Hcols|]. constructor; [exact Hty|constructor].
  - intros Hne. apply andb_false_iff in Hpk as [Hpk|Hpk].
    + apply negb_false_iff, String.eqb_eq in Hpk. contradiction.
    + apply negb_false_iff, existsb_exists in Hpk as (col & Hin & Heq).
      apply String.eqb_eq in Heq. rewrite <- Heq.
      change (col.1.1) with (triple_name col). now apply in_map.
Qed.

(** X15. A table created from a CREATE TABLE statement that names a primary
    key takes no record. The parser hands the type names over in upper
    case, [createTable] knows none of them and makes every column a STRING
    column, and [insertRecord] turns away a primary key that is not an INT
    column: every insert returns [false] and writes nothing but one line to
    [std::cerr]. *)
Theorem sql_table_rejects_inserts
    (tokens : list string) (q q' : Query.t) (st st' : State) :
  parseCreateTable tokens q = (true, q') ->
  Query.primary_key q' <> ""%string ->
  ~ In (Query.table_name q') (listTables st) ->
  createTable st (Query.table_name q') (Query.columns q') (Query.primary_key q')
    (Query.foreign_keys q') = Returned true st' ->
  Forall (fun column => Column.type column = Column.STRING)
    (TableSchema.columns (getTableSchema st' (Query.table_name q')))
  /\ forall record,
      exists line,
        insertRecord st' (Query.table_name q') record = Returned false (report line st').
Proof.
  intros Hparse Hne Hout Hcreate.
  destruct (parseCreateTable_types _ _ _ Hparse) as [Htypes Hkey].
  specialize (Hkey Hne).
  destruct (createTable_fresh st _ (Query.columns q') (Query.primary_key q')
              (Query.foreign_keys q') Hout)
    as (st1 & table & Hres & _ & _ & Hfind & _ & _ & _ & Hall & _).
  rewrite Hres in Hcreate. injection Hcreate as <-.
  destruct (find_primary_key_made _ _ _ table eq_refl Hall) as [Hkeyed _].
  destruct (Hkeyed Hkey) as (column & triple & Hpk & _ & Hin & Hty).
  unfold unknown_types in Htypes. rewrite List.Forall_forall in Htypes.
  split.
  - unfold getTableSchema. rewrite Hfind. simpl.
    clear -Hall Htypes. induction Hall as [|c tr cols trs (_ & Ht & _) _ IH]; constructor.
    + rewrite Ht. unfold defaults_to_string in Htypes.
      rewrite (Htypes tr); [reflexivity|now left].
    + apply IH. intros x Hx. apply Htypes. now right.
  - intros record. unfold insertRecord, insertRecord_on, check_primary_key. rewrite Hfind, Hpk.
    destruct (record !! Column.name column); [|eexists; reflexivity].
    rewrite Hty. unfold defaults_to_string in Htypes.
    rewrite (Htypes triple Hin). simpl. eexists. reflexivity.
Qed.

Lemma sql_table_rejects_inserts_witness :
  Forall (fun column => Column.type column = Column.STRING)
    (TableSchema.columns
       (getTableSchema
          (after (createTable empty_db (Query.table_name users_query)
                    (Query.columns users_query) (Query.primary_key users_query)
                    (Query.foreign_keys users_query)))
          (Query.table_name users_query)))
  /\ forall record,
      exists line,
        insertRecord
          (after (createTable empty_db (Query.table_name users_query)
                    (Query.columns users_query) (Query.primary_key users_query)
                    (Query.foreign_keys users_query)))
          (Query.table_name users_query) record
        = Returned false
            (report line
               (after (createTable empty_db (Query.table_name users_query)
                         (Query.columns users_query) (Query.primary_key users_query)
                         (Query.foreign_keys users_query)))).
Proof.
  apply (sql_table_rejects_inserts create_users Query.empty users_query empty_db).
  - vm_compute. reflexivity.
  - vm_compute. discriminate.
  - vm_compute. intuition.
  - vm_compute. reflexivity.
Defined.

(** ** Opening the indexes *)

Lemma load_index_grows (st : State) (table : TableSchema.t) :
  (forall k, is_Some (indexes st !! k) -> is_Some (indexes (load_index st table) !! k))
  /\ (forall path tree, index_files st !! path = Some tree ->
                        index_files (load_index st table) !! path = Some tree)
  /\ files (load_index st table) = files st
  /\ catalog (load_index st table) = catalog st
  /\ (indexable st table -> is_Some (indexes (load_index st table) !! TableSchema.name table)).
Proof.
  unfold load_index, indexable, createIndex, open_tree.
  destruct (index_files st !! TableSchema.index_file_path table) as [tree|] eqn:Hfile.
  - simpl. conjuncts; auto.
    + intros k Hk. destruct (decide (TableSchema.name table = k)) as [->|Hne].
      * rewrite lookup_insert_eq. eauto.
      * now rewrite lookup_insert_ne.
    + intros _. rewrite lookup_insert_eq. eauto.
  - destruct (find_primary_key table) as [column|] eqn:Hpk; simpl.
    + conjuncts; auto.
      * intros k Hk. destruct (decide (TableSchema.name table = k)) as [->|Hne].
        -- rewrite lookup_insert_eq. eauto.
        -- now rewrite lookup_insert_ne.
      * intros path tree Hpath.
        rewrite lookup_insert_ne; [exact Hpath|].
        intros Heq. rewrite Heq in Hfile. congruence.
      * intros _. rewrite lookup_insert_eq. eauto.
    + conjuncts; auto. intros [[? Hx]|[? Hx]]; discriminate.
Qed.

Lemma fold_load_index (tables : list TableSchema.t) :
  forall st,
    (forall k, is_Some (indexes st !! k) ->
               is_Some (indexes (fold_left load_index tables st) !! k))
    /\ (forall path tree, index_files st !! path = Some tree ->
                          index_files (fold_left load_index tables st) !! path = Some tree)
    /\ files (fold_left load_index tables st) = files st
    /\ catalog (fold_left load_index tables st) = catalog st
    /\ Forall (fun table =>
                 indexable st table ->
                 is_Some (indexes (fold_left load_index tables st) !! TableSchema.name table))
         tables.
Proof.
  induction tables as [|table more IH]; intros st; simpl.
  - conjuncts; auto.
  - destruct (load_index_grows st table) as (Hidx & Htrees & Hfiles & Hcat & Hhere).
    destruct (IH (load_index st table)) as (Hidx' & Htrees' & Hfiles' & Hcat' & Hall).
    conjuncts.
    + auto.
    + auto.
    + congruence.
    + congruence.
    + constructor; [auto|].
      eapply Forall_impl; [exact Hall|]. intros other Hother Hable. apply Hother.
      destruct Hable as [[tree Hfile]|Hpk]; [left|now right].
      exists tree. now apply Htrees.
Qed.

(** X16. [loadIndexes] gives a handle to every table of the catalog whose
    index file is on disk or that has a primary-key column, keeps the
    handles there were, and leaves every index file that was on disk as it
    was, like the data files and the catalog. *)
Theorem loadIndexes_opens (st : State) :
  Forall (fun table =>
            indexable st table ->
            is_Some (indexes (loadIndexes st) !! TableSchema.name table))
    (catalog st)
  /\ (forall k, is_Some (indexes st !! k) -> is_Some (indexes (loadIndexes st) !! k))
  /\ (forall path tree, index_files st !! path = Some tree ->
                        index_files (loadIndexes st) !! path = Some tree)
  /\ files (loadIndexes st) = files st
  /\ catalog (loadIndexes st) = catalog st.
Proof.
  unfold loadIndexes.
  destruct (fold_load_index (catalog st) st) as (Hidx & Htrees & Hfiles & Hcat & Hall).
  conjuncts; assumption.
Qed.

(** On [restarted] both tables get a handle: [t] for its primary key, [log]
    for its index file, whose entry is still there. *)
Example loadIndexes_restarted :
  indexes (loadIndexes restarted) !! "t" = Some "data/t.idx"%string
  /\ indexes (loadIndexes restarted) !! "log" = Some "data/log.idx"%string
  /\ index_files (loadIndexes restarted) !! "data/log.idx" = Some [(1, 0)]
  /\ index_files (loadIndexes restarted) !! "data/t.idx" = Some BPlusTree.empty.
Proof. conjuncts; vm_compute; reflexivity. Qed.

(** ** What a rewrite leaves in the data file *)

Lemma rebuild_index_files
    (reindex : BPlusTree.t -> list Rec -> BPlusTree.t -> option BPlusTree.t)
    (schema : TableSchema.t) (table_name handle : string) (st st' : State) (b : bool) :
  rebuild_index reindex schema table_name handle st = Returned b st' ->
  files st' = files st.
Proof.
  unfold rebuild_index.
  destruct (open_tree_frame (TableSchema.index_file_path schema +:+ ".tmp") st)
    as (_ & Hfiles & _ & _).
  destruct (getAllRecords (open_tree (TableSchema.index_file_path schema +:+ ".tmp") st)
              table_name) as [all_records st2| |] eqn:Hall; try discriminate.
  destruct (getAllRecords_frame _ _ _ _ Hall) as (Hfiles2 & _).
  destruct (reindex _ all_records _) as [new_index|]; [|discriminate].
  unfold rename_index_file. simpl. rewrite lookup_insert_eq.
  intros Hres. inversion Hres; subst st'; clear Hres.
  match goal with
  | |- files (set_indexes _ (open_tree ?p ?s)) = _ =>
      change (files (open_tree p s) = files st);
        destruct (open_tree_frame p s) as (_ & Hfiles3 & _ & _); rewrite Hfiles3
  end.
  simpl. now rewrite Hfiles2, Hfiles.
Qed.

(** The files after a rewrite that returned [true]: the temporary file has
    taken the place of the data file. *)
Lemma finish_rewrite_files
    (reindex : BPlusTree.t -> list Rec -> BPlusTree.t -> option BPlusTree.t)
    (wants_rebuild : bool) (schema : TableSchema.t) (table_name : string)
    (acc : rewrite) (st st' : State) :
  finish_rewrite reindex wants_rebuild schema table_name acc st = Returned true st' ->
  found acc = true
  /\ files st' !! TableSchema.data_file_path schema = Some (temp acc)
  /\ files st' !! temp_file_path schema = None
  /\ forall path,
      path <> TableSchema.data_file_path schema ->
      path <> temp_file_path schema ->
      files st' !! path = files st !! path.
Proof.
  unfold finish_rewrite. fold (temp_file_path schema).
  pose proof (temp_file_path_fresh schema) as Hfresh.
  destruct (found acc); [|discriminate]. simpl.
  unfold rename_file. simpl. rewrite lookup_insert_eq. simpl.
  set (st2 := record_event _ _).
  assert (Hdata : files st2 !! TableSchema.data_file_path schema = Some (temp acc)).
  { subst st2. simpl. apply lookup_insert_eq. }
  assert (Htemp : files st2 !! temp_file_path schema = None).
  { subst st2. simpl. rewrite lookup_insert_ne by congruence. apply lookup_delete_eq. }
  assert (Hother : forall path,
             path <> TableSchema.data_file_path schema ->
             path <> temp_file_path schema ->
             files st2 !! path = files st !! path).
  { intros path H1 H2. subst st2. simpl.
    rewrite lookup_insert_ne, lookup_delete_ne, lookup_insert_ne by congruence.
    reflexivity. }
  clearbody st2.
  match goal with
  | |- match ?x with Some _ => _ | None => _ end = _ -> _ => destruct x as [handle|]
  end.
  - intros Hre. apply rebuild_index_files in Hre. rewrite Hre. auto.
  - intros [= <-]. auto.
Qed.

(** The index files and the handles after a rewrite that returned [true]:
    only the index file of the table and its temporary file can differ, only
    the handle of the table can differ; without a rebuild nothing differs,
    with one the handle is open on the index file and the temporary tree is
    gone. *)
Lemma finish_rewrite_indexes
    (reindex : BPlusTree.t -> list Rec -> BPlusTree.t -> option BPlusTree.t)
    (wants_rebuild : bool) (schema : TableSchema.t) (table_name : string)
    (acc : rewrite) (st st' : State) :
  finish_rewrite reindex wants_rebuild schema table_name acc st = Returned true st' ->
  (forall path,
      path <> TableSchema.index_file_path schema ->
      path <> index_temp_path schema ->
      index_files st' !! path = index_files st !! path)
  /\ (forall other, other <> table_name -> indexes st' !! other = indexes st !! other)
  /\ (wants_rebuild = false \/ indexes st !! table_name = None ->
      index_files st' = index_files st /\ indexes st' = indexes st)
  /\ (wants_rebuild = true ->
      is_Some (indexes st !! table_name) ->
      indexes st' !! table_name = Some (TableSchema.index_file_path schema)
      /\ is_Some (index_files st' !! TableSchema.index_file_path schema)
      /\ index_files st' !! index_temp_path schema = None).
Proof.
  intros Hfinish.
  destruct (finish_rewrite_found _ _ _ _ _ _ _ Hfinish)
    as (st2 & _ & _ & _ & Hidx & Htrees & _ & Hnext).
  destruct wants_rebuild; [destruct (indexes st !! table_name) as [handle|] eqn:Hhandle|].
  - destruct (rebuild_index_effect _ _ _ _ _ _ Hnext)
      as (all_records & st3 & new_index & _ & _ & Htrees' & Hidx' & _).
    rewrite Htrees', Hidx', Htrees, Hidx. conjuncts.
    + intros path H1 H2. now rewrite lookup_insert_ne, lookup_delete_ne by congruence.
    + intros other Hne. now rewrite lookup_insert_ne by congruence.
    + intros [Hno|Hno]; discriminate.
    + intros _ _. conjuncts.
      * apply lookup_insert_eq.
      * rewrite lookup_insert_eq. eauto.
      * rewrite lookup_insert_ne by apply index_temp_path_fresh.
        apply lookup_delete_eq.
  - subst st'. rewrite Htrees, Hidx. conjuncts; auto.
    intros _ [handle Hsome]. discriminate.
  - subst st'. rewrite Htrees, Hidx. conjuncts; auto.
    intros Hno. discriminate.
Qed.

Lemma update_loop_temp (schema : TableSchema.t) (key_column : string)
    (key_value : FieldValue) (new_values : Rec) (records : list (Z * Rec)) :
  forall acc acc',
    rewrite_loop (update_step schema key_column key_value new_values) records acc
    = Some acc' ->
    temp acc'
    = temp acc
      ++ concat (map (fun entry =>
                        bytes_of schema (updated key_column key_value new_values (snd entry)))
                     records)
    /\ found acc'
       = found acc || existsb (fun entry => matches_key key_column key_value (snd entry))
                        records
    /\ Z.of_nat (length (temp acc'))
       = Z.of_nat (length (temp acc))
         + Z.of_nat (length records) * record_size (TableSchema.columns schema).
Proof.
  induction records as [|[offset record] more IH]; intros acc acc' Hloop.
  - inversion Hloop; subst. simpl. rewrite app_nil_r, orb_false_r. conjuncts; auto. lia.
  - simpl in Hloop.
    destruct (update_step schema key_column key_value new_values acc offset record)
      as [acc1|] eqn:Hstep; [|discriminate].
    simpl in Hloop. destruct (IH _ _ Hloop) as (Htemp & Hfound & Hlen).
    assert (Hone : temp acc1
                   = temp acc ++ bytes_of schema (updated key_column key_value new_values record)
                   /\ found acc1 = found acc || matches_key key_column key_value record
                   /\ Z.of_nat (length (temp acc1))
                      = Z.of_nat (length (temp acc))
                        + record_size (TableSchema.columns schema)).
    { unfold update_step, updated, bytes_of in *.
      destruct (matches_key key_column key_value record).
      - destruct (if assigns_primary_key schema new_values then _ else _) as [changed|];
          [|discriminate].
        cbn [mbind option_bind] in Hstep.
        destruct (saveRecord (new_values ∪ record) (TableSchema.columns schema))
          as [bytes ok] eqn:Hsave.
        destruct ok; [|discriminate]. inversion Hstep; subst acc1. simpl.
        rewrite orb_true_r, length_app, Nat2Z.inj_add, (length_saveRecord _ _ _ Hsave).
        auto.
      - cbn [mbind option_bind] in Hstep.
        destruct (saveRecord record (TableSchema.columns schema)) as [bytes ok] eqn:Hsave.
        destruct ok; [|discriminate]. inversion Hstep; subst acc1. simpl.
        rewrite orb_false_r, length_app, Nat2Z.inj_add, (length_saveRecord _ _ _ Hsave).
        auto. }
    destruct Hone as (Htemp1 & Hfound1 & Hlen1).
    cbn [map concat existsb length snd]. conjuncts.
    + rewrite Htemp, Htemp1. now rewrite <- app_assoc.
    + rewrite Hfound, Hfound1. now rewrite orb_assoc.
    + rewrite Hlen, Hlen1. lia.
Qed.

(** X17. An update that returned [true] matched at least one record and has
    replaced the data file by the records it read, written back in the same
    order at their fixed width: the new values laid over each record that
    matches the key, every other record as it was read. The file holds as
    many record widths as it held records, the temporary file is gone and
    no other data file has changed. Of the index files only the table's own
    and its temporary file can have changed, of the handles only the
    table's own: when the new values do not assign the primary key, or the
    table has no handle, no index file and no handle has changed; when they
    do and the table has a handle, the handle is open on the index file and
    the temporary tree is gone. *)
Theorem update_rewrites_file
    (st st' : State) (table_name key_column : string) (key_value : FieldValue)
    (new_values : Rec) (schema : TableSchema.t) (content : list Z)
    (records : list (Z * Rec)) :
  find_table (catalog st) table_name = Some schema ->
  files st !! TableSchema.data_file_path schema = Some content ->
  scan schema content = Some records ->
  updateRecord st table_name key_column key_value new_values = Returned true st' ->
  existsb (fun entry => matches_key key_column key_value (snd entry)) records = true
  /\ (exists rewritten,
        files st' !! TableSchema.data_file_path schema = Some rewritten
        /\ rewritten
           = concat (map (fun entry =>
                            bytes_of schema
                              (updated key_column key_value new_values (snd entry)))
                         records)
        /\ Z.of_nat (length rewritten)
           = Z.of_nat (length records) * record_size (TableSchema.columns schema))
  /\ files st' !! temp_file_path schema = None
  /\ (forall path,
        path <> TableSchema.data_file_path schema ->
        path <> temp_file_path schema ->
        files st' !! path = files st !! path)
  /\ (forall path,
        path <> TableSchema.index_file_path schema ->
        path <> index_temp_path schema ->
        index_files st' !! path = index_files st !! path)
  /\ (forall other, other <> table_name -> indexes st' !! other = indexes st !! other)
  /\ (assigns_primary_key schema new_values = false \/ indexes st !! table_name = None ->
      index_files st' = index_files st /\ indexes st' = indexes st)
  /\ (assigns_primary_key schema new_values = true ->
      is_Some (indexes st !! table_name) ->
      indexes st' !! table_name = Some (TableSchema.index_file_path schema)
      /\ is_Some (index_files st' !! TableSchema.index_file_path schema)
      /\ index_files st' !! index_temp_path schema = None).
Proof.
  intros Hfind Hfile Hscan. unfold updateRecord, rewrite_table.
  rewrite Hfind, Hfile, Hscan.
  destruct (rewrite_loop _ records rewrite_start) as [acc|] eqn:Hloop; [|discriminate].
  intros Hfinish.
  destruct (finish_rewrite_files _ _ _ _ _ _ _ Hfinish) as (Hfound & Hdata & Htemp & Hother).
  destruct (update_loop_temp _ _ _ _ _ _ _ Hloop) as (Hbytes & Hmatched & Hlen).
  destruct (update_loop_changed _ _ _ _ _ _ _ Hloop eq_refl) as [_ Hchanged].
  rewrite Hfound in Hchanged. cbn [andb] in Hchanged.
  destruct (finish_rewrite_indexes _ _ _ _ _ _ _ Hfinish)
    as (Htrees & Hhandles & Hsame & Hrebuilt).
  rewrite Hchanged in Hsame, Hrebuilt.
  simpl in Hbytes, Hmatched, Hlen. conjuncts.
  - now rewrite <- Hmatched.
  - exists (temp acc). conjuncts; [exact Hdata|exact Hbytes|exact Hlen].
  - exact Htemp.
  - exact Hother.
  - exact Htrees.
  - exact Hhandles.
  - exact Hsame.
  - exact Hrebuilt.
Qed.

(** On a table without primary-key column a delete collects no key. *)
Lemma delete_loop_keyless (schema : TableSchema.t) (key_column : string)
    (key_value : FieldValue) (records : list (Z * Rec)) :
  primary_key_column schema = ""%string ->
  forall acc acc',
    rewrite_loop (delete_step schema key_column key_value) records acc = Some acc' ->
    deleted_keys acc' = deleted_keys acc.
Proof.
  intros Hnone. induction records as [|[offset record] more IH]; intros acc acc' Hloop.
  - now inversion Hloop.
  - simpl in Hloop.
    destruct (delete_step schema key_column key_value acc offset record)
      as [acc1|] eqn:Hstep; [|discriminate].
    simpl in Hloop. rewrite (IH _ _ Hloop).
    unfold delete_step in Hstep. rewrite Hnone in Hstep.
    destruct (matches_key key_column key_value record).
    + simpl in Hstep. now inversion Hstep.
    + written Hstep. now inversion Hstep.
Qed.

Lemma delete_loop_temp (schema : TableSchema.t) (key_column : string)
    (key_value : FieldValue) (records : list (Z * Rec)) :
  forall acc acc',
    rewrite_loop (delete_step schema key_column key_value) records acc = Some acc' ->
    temp acc'
    = temp acc
      ++ concat (map (fun entry => bytes_of schema (snd entry))
                     (survivors key_column key_value records))
    /\ found acc'
       = found acc || existsb (fun entry => matches_key key_column key_value (snd entry))
                        records
    /\ Z.of_nat (length (temp acc'))
       = Z.of_nat (length (temp acc))
         + Z.of_nat (length (survivors key_column key_value records))
           * record_size (TableSchema.columns schema).
Proof.
  induction records as [|[offset record] more IH]; intros acc acc' Hloop.
  - inversion Hloop; subst. unfold survivors. simpl.
    rewrite app_nil_r, orb_false_r. conjuncts; auto. lia.
  - simpl in Hloop.
    destruct (delete_step schema key_column key_value acc offset record)
      as [acc1|] eqn:Hstep; [|discriminate].
    simpl in Hloop. destruct (IH _ _ Hloop) as (Htemp & Hfound & Hlen).
    unfold survivors in *. cbn [List.filter existsb snd].
    unfold delete_step, bytes_of in *.
    destruct (matches_key key_column key_value record).
    + destruct (if _ && _ then _ else Some (deleted_keys acc)) as [keys|]; [|discriminate].
      cbn [mbind option_bind] in Hstep. inversion Hstep; subst acc1.
      cbn [negb temp found] in *. rewrite orb_true_r.
      conjuncts; [exact Htemp|exact Hfound|exact Hlen].
    + destruct (saveRecord record (TableSchema.columns schema)) as [bytes ok] eqn:Hsave.
      destruct ok; [|discriminate]. inversion Hstep; subst acc1.
      cbn [negb temp found map concat length] in *. rewrite orb_false_l.
      rewrite length_app, Nat2Z.inj_add, (length_saveRecord _ _ _ Hsave) in Hlen.
      conjuncts.
      * rewrite Htemp. cbn [snd]. rewrite Hsave. cbn [fst]. now rewrite <- app_assoc.
      * exact Hfound.
      * rewrite Hlen. lia.
Qed.

(** X18. A delete that returned [true] matched at least one record and has
    replaced the data file by the records that do not match the key, in the
    order they were read and at their fixed width: the file holds one record
    width per surviving record, the temporary file is gone and no other data
    file has changed. Of the index files only the table's own and its
    temporary file can have changed, of the handles only the table's own:
    on a table without primary-key column or without handle no index file
    and no handle has changed; on a table with both, the handle is open on
    the index file and the temporary tree is gone. *)
Theorem delete_rewrites_file
    (st st' : State) (table_name key_column : string) (key_value : FieldValue)
    (schema : TableSchema.t) (content : list Z) (records : list (Z * Rec)) :
  find_table (catalog st) table_name = Some schema ->
  files st !! TableSchema.data_file_path schema = Some content ->
  scan schema content = Some records ->
  deleteRecord st table_name key_column key_value = Returned true st' ->
  existsb (fun entry => matches_key key_column key_value (snd entry)) records = true
  /\ (exists rewritten,
        files st' !! TableSchema.data_file_path schema = Some rewritten
        /\ rewritten
           = concat (map (fun entry => bytes_of schema (snd entry))
                         (survivors key_column key_value records))
        /\ Z.of_nat (length rewritten)
           = Z.of_nat (length (survivors key_column key_value records))
             * record_size (TableSchema.columns schema))
  /\ files st' !! temp_file_path schema = None
  /\ (forall path,
        path <> TableSchema.data_file_path schema ->
        path <> temp_file_path schema ->
        files st' !! path = files st !! path)
  /\ (forall path,
        path <> TableSchema.index_file_path schema ->
        path <> index_temp_path schema ->
        index_files st' !! path = index_files st !! path)
  /\ (forall other, other <> table_name -> indexes st' !! other = indexes st !! other)
  /\ (primary_key_column schema = ""%string \/ indexes st !! table_name = None ->
      index_files st' = index_files st /\ indexes st' = indexes st)
  /\ (primary_key_column schema <> ""%string ->
      is_Some (indexes st !! table_name) ->
      indexes st' !! table_name = Some (TableSchema.index_file_path schema)
      /\ is_Some (index_files st' !! TableSchema.index_file_path schema)
      /\ index_files st' !! index_temp_path schema = None).
Proof.
  intros Hfind Hfile Hscan. unfold deleteRecord, rewrite_table.
  rewrite Hfind, Hfile, Hscan.
  destruct (rewrite_loop _ records rewrite_start) as [acc|] eqn:Hloop; [|discriminate].
  intros Hfinish.
  destruct (finish_rewrite_files _ _ _ _ _ _ _ Hfinish) as (Hfound & Hdata & Htemp & Hother).
  destruct (delete_loop_temp _ _ _ _ _ _ Hloop) as (Hbytes & Hmatched & Hlen).
  destruct (finish_rewrite_indexes _ _ _ _ _ _ _ Hfinish)
    as (Htrees & Hhandles & Hsame & Hrebuilt).
  simpl in Hbytes, Hmatched, Hlen. conjuncts.
  - now rewrite <- Hmatched.
  - exists (temp acc). conjuncts; [exact Hdata|exact Hbytes|exact Hlen].
  - exact Htemp.
  - exact Hother.
  - exact Htrees.
  - exact Hhandles.
  - intros [Hnone|Hnone]; [|now apply Hsame; right].
    apply Hsame. left.
    rewrite (delete_loop_keyless _ _ _ _ Hnone _ _ Hloop). reflexivity.
  - intros Hpk Hhandle. apply Hrebuilt; [|exact Hhandle].
    pose proof (delete_loop_keys schema key_column key_value records Hpk
                  (scan_from_loaded _ _ _ _ _ Hscan) _ _ Hloop
                  (fun H => match Bool.diff_false_true H with end) Hfound) as Hkeys.
    now rewrite (bool_decide_eq_false_2 _ Hkeys).
Qed.

Lemma update_rewrites_file_witness :
  (exists rewritten,
      files (after (updateRecord two_rows "t" "id" (FInt 2) set_v))
        !! TableSchema.data_file_path t_schema = Some rewritten
      /\ rewritten
         = concat (map (fun entry =>
                          bytes_of t_schema (updated "id" (FInt 2) set_v (snd entry)))
                       two_rows_records)
      /\ Z.of_nat (length rewritten)
         = Z.of_nat (length two_rows_records) * record_size (TableSchema.columns t_schema))
  /\ files (after (updateRecord two_rows "t" "id" (FInt 2) set_v))
       !! temp_file_path t_schema = None
  /\ index_files (after (updateRecord two_rows "t" "id" (FInt 2) set_v))
     = index_files two_rows
  /\ indexes (after (updateRecord two_rows "t" "id" (FInt 2) set_v)) = indexes two_rows.
Proof.
  destruct (update_rewrites_file two_rows
              (after (updateRecord two_rows "t" "id" (FInt 2) set_v))
              "t" "id" (FInt 2) set_v t_schema (content_of "data/t.dat" two_rows)
              two_rows_records)
    as (_ & Hdata & Htemp & _ & _ & _ & Hsame & _).
  - vm_compute. reflexivity.
  - vm_compute. reflexivity.
  - vm_compute. reflexivity.
  - vm_compute. reflexivity.
  - split; [exact Hdata|]. split; [exact Htemp|].
    apply Hsame. left. vm_compute. reflexivity.
Defined.

Lemma delete_rewrites_file_witness :
  (exists rewritten,
      files (after (deleteRecord two_rows "t" "id" (FInt 1)))
        !! TableSchema.data_file_path t_schema = Some rewritten
      /\ rewritten
         = concat (map (fun entry => bytes_of t_schema (snd entry))
                       (survivors "id" (FInt 1) two_rows_records))
      /\ Z.of_nat (length rewritten)
         = Z.of_nat (length (survivors "id" (FInt 1) two_rows_records))
           * record_size (TableSchema.columns t_schema))
  /\ files (after (deleteRecord two_rows "t" "id" (FInt 1)))
       !! temp_file_path t_schema = None
  /\ indexes (after (deleteRecord two_rows "t" "id" (FInt 1))) !! "t"
     = Some (TableSchema.index_file_path t_schema)
  /\ is_Some (index_files (after (deleteRecord two_rows "t" "id" (FInt 1)))
                !! TableSchema.index_file_path t_schema)
  /\ index_files (after (deleteRecord two_rows "t" "id" (FInt 1)))
       !! index_temp_path t_schema = None.
Proof.
  destruct (delete_rewrites_file two_rows
              (after (deleteRecord two_rows "t" "id" (FInt 1)))
              "t" "id" (FInt 1) t_schema (content_of "data/t.dat" two_rows)
              two_rows_records)
    as (_ & Hdata & Htemp & _ & _ & _ & _ & Hrebuilt).
  - vm_compute. reflexivity.
  - vm_compute. reflexivity.
  - vm_compute. reflexivity.
  - vm_compute. reflexivity.
  - split; [exact Hdata|]. split; [exact Htemp|].
    apply Hrebuilt; [discriminate|]. vm_compute. eauto.
Defined.

(** * Further properties of the comparisons *)

Lemma string_compare_refl (a : string) : String.compare a a = Eq.
Proof.
  pose proof (String.compare_antisym a a) as H.
  destruct (String.compare a a); simpl in H; [reflexivity|discriminate|discriminate].
Qed.

Lemma string_leb_ltb_eqb (a b : string) :
  String.leb a b = String.ltb a b || String.eqb b a.
Proof.
  unfold String.leb, String.ltb.
  destruct (String.eqb_spec b a) as [->|Hne].
  - rewrite string_compare_refl. reflexivity.
  - destruct (String.compare a b) eqn:Hcmp; try reflexivity.
    apply String.compare_eq_iff in Hcmp. congruence.
Qed.

(** X21. The operators of [compareValues] fit together. An operator that is
    not one of the six ([LIKE], say) holds of no pair of values; [!=] holds
    exactly when the tags agree and [=] does not hold, so both are false
    across tags; and on everything but booleans [>=] is [>] or [=], and
    [<=] is [<] or [=]. *)
Theorem compareValues_operators (left right : FieldValue) :
  (forall op, ~ In op comparison_operators -> compareValues left right op = false)
  /\ compareValues left right "!="
     = (index left =? index right)%nat && negb (compareValues left right "=")
  /\ (holds_bool left = false ->
      compareValues left right ">="
      = compareValues left right ">" || compareValues left right "="
      /\ compareValues left right "<="
         = compareValues left right "<" || compareValues left right "=").
Proof.
  conjuncts.
  - intros op Hop. unfold compareValues, comparison_operators in *.
    destruct (negb (index left =? index right)%nat); [reflexivity|].
    destruct (String.eqb_spec op "=") as [->|_]; [exfalso; apply Hop; simpl; auto|].
    destruct (String.eqb_spec op "!=") as [->|_]; [exfalso; apply Hop; simpl; auto|].
    destruct (String.eqb_spec op ">") as [->|_]; [exfalso; apply Hop; simpl; auto|].
    destruct (String.eqb_spec op "<") as [->|_]; [exfalso; apply Hop; simpl; auto|].
    destruct (String.eqb_spec op ">=") as [->|_]; [exfalso; apply Hop; simpl; auto 7|].
    destruct (String.eqb_spec op "<=") as [->|_]; [exfalso; apply Hop; simpl; auto 7|].
    reflexivity.
  - unfold compareValues. destruct (index left =? index right)%nat; reflexivity.
  - intros Hbool. unfold compareValues.
    destruct left as [a|a|a|a], right as [b|b|b|b]; try discriminate;
      try (split; reflexivity); cbn [index Nat.eqb negb String.eqb Ascii.eqb Bool.eqb
                                       FieldValue_eq].
    + split.
      * destruct (Z.geb_spec a b), (Z.gtb_spec a b), (Z.eqb_spec a b); try reflexivity; lia.
      * destruct (Z.leb_spec a b), (Z.ltb_spec a b), (Z.eqb_spec a b); try reflexivity; lia.
    + unfold Float32.geb, Float32.gtb, Float32.leb, Float32.ltb, Float32.eqb,
        Float32.ordered.
      destruct (Float32.is_nan a), (Float32.is_nan b); simpl; try (split; reflexivity).
      split.
      * destruct (Z.leb_spec (Float32.key b) (Float32.key a)),
          (Z.ltb_spec (Float32.key b) (Float32.key a)),
          (Z.eqb_spec (Float32.key a) (Float32.key b)); try reflexivity; lia.
      * destruct (Z.leb_spec (Float32.key a) (Float32.key b)),
          (Z.ltb_spec (Float32.key a) (Float32.key b)),
          (Z.eqb_spec (Float32.key a) (Float32.key b)); try reflexivity; lia.
    + split.
      * apply string_leb_ltb_eqb.
      * rewrite string_leb_ltb_eqb. f_equal.
        destruct (String.eqb_spec b a), (String.eqb_spec a b); congruence.
Qed.

(** X22. [operator==] on field values is symmetric and holds only between
    values of the same alternative; a value equals itself unless it is a
    [float] holding a NaN, and [operator!=] is its negation. *)
Theorem operator_eq_laws (lhs rhs : FieldValue) :
  FieldValue_eq lhs rhs = FieldValue_eq rhs lhs
  /\ (FieldValue_eq lhs rhs = true -> index lhs = index rhs)
  /\ FieldValue_eq lhs lhs = negb (is_nan_value lhs)
  /\ FieldValue_ne lhs rhs = negb (FieldValue_eq lhs rhs).
Proof.
  conjuncts.
  - destruct lhs as [a|a|a|a], rhs as [b|b|b|b]; try reflexivity; simpl.
    + apply Z.eqb_sym.
    + unfold Float32.eqb, Float32.ordered.
      now rewrite Z.eqb_sym, (andb_comm (negb (Float32.is_nan a))).
    + apply String.eqb_sym.
    + now destruct a, b.
  - destruct lhs, rhs; simpl; (reflexivity || discriminate).
  - destruct lhs as [a|a|a|a]; simpl.
    + apply Z.eqb_refl.
    + unfold Float32.eqb, Float32.ordered. rewrite Z.eqb_refl.
      now destruct (Float32.is_nan a).
    + apply String.eqb_refl.
    + now destruct a.
  - reflexivity.
Qed.

(** * Further properties of the parser *)

(** ** Tokens *)

Lemma append_nil_r (s : string) : (s +:+ "")%string = s.
Proof.
  induction s as [|c s IH]; [reflexivity|].
  change (String c (s +:+ "") = String c s). now rewrite IH.
Qed.

Lemma append_assoc (a b c : string) : ((a +:+ b) +:+ c = a +:+ (b +:+ c))%string.
Proof.
  induction a as [|x a IH]; [reflexivity|].
  change (String x ((a +:+ b) +:+ c) = String x (a +:+ (b +:+ c))). now rewrite IH.
Qed.

Lemma glue_app (l1 l2 : list string) : glue (l1 ++ l2) = (glue l1 +:+ glue l2)%string.
Proof.
  unfold glue. induction l1 as [|x l1 IH]; simpl; [reflexivity|].
  now rewrite IH, append_assoc.
Qed.

Lemma glue_flush (tokens : list string) (current_token : string) :
  glue (flush tokens current_token) = (glue tokens +:+ current_token)%string.
Proof.
  unfold flush. destruct (String.eqb_spec current_token "") as [->|_].
  - now rewrite append_nil_r.
  - rewrite glue_app. simpl. now rewrite append_nil_r.
Qed.

Lemma flush_nonempty (tokens : list string) (current_token : string) :
  Forall (fun tok => tok <> ""%string) tokens ->
  Forall (fun tok => tok <> ""%string) (flush tokens current_token).
Proof.
  intros Hall. unfold flush. destruct (String.eqb_spec current_token "") as [|Hne].
  - exact Hall.
  - apply Forall_app. split; [exact Hall|]. constructor; [exact Hne|constructor].
Qed.

Lemma tokenize_from_glue (s : string) :
  forall tokens current_token in_quotes,
    glue (tokenize_from s tokens current_token in_quotes)
    = (glue tokens +:+ current_token +:+ unspaced s in_quotes)%string.
Proof.
  induction s as [|c s IH]; intros tokens current_token in_quotes; simpl.
  - now rewrite glue_flush, append_nil_r.
  - destruct (Ascii.eqb c "'").
    + rewrite IH. now rewrite !append_assoc.
    + destruct (negb in_quotes && is_delimiter c) eqn:Hdelim.
      * rewrite IH, glue_app, glue_flush. simpl.
        assert (Hspace : negb in_quotes && Strto.isspace c = false).
        { apply andb_true_iff in Hdelim as [-> Hd]. simpl.
          unfold is_delimiter in Hd.
          repeat match type of Hd with
                 | (_ || _) = true => apply orb_true_iff in Hd as [Hd|Hd]
                 end;
            apply Ascii.eqb_eq in Hd; subst c; reflexivity. }
        rewrite Hspace. now rewrite !append_assoc.
      * destruct (negb in_quotes && Strto.isspace c).
        -- rewrite IH, glue_flush. now rewrite !append_assoc.
        -- rewrite IH. now rewrite !append_assoc.
Qed.

Lemma tokenize_from_nonempty (s : string) :
  forall tokens current_token in_quotes,
    Forall (fun tok => tok <> ""%string) tokens ->
    Forall (fun tok => tok <> ""%string) (tokenize_from s tokens current_token in_quotes).
Proof.
  induction s as [|c s IH]; intros tokens current_token in_quotes Hall; simpl.
  - now apply flush_nonempty.
  - destruct (Ascii.eqb c "'"); [now apply IH|].
    destruct (negb in_quotes && is_delimiter c).
    + apply IH. apply Forall_app. split; [now apply flush_nonempty|].
      constructor; [discriminate|constructor].
    + destruct (negb in_quotes && Strto.isspace c); apply IH; [|exact Hall].
      now apply flush_nonempty.
Qed.

Lemma all_chars_list (p : ascii -> bool) (s : string) :
  all_chars p s = forallb p (list_ascii_of_string s).
Proof. induction s as [|c s IH]; simpl; [reflexivity|now rewrite IH]. Qed.

Lemma all_chars_of_list (p : ascii -> bool) (l : list ascii) :
  all_chars p (string_of_list_ascii l) = forallb p l.
Proof. induction l as [|c l IH]; simpl; [reflexivity|now rewrite IH]. Qed.

Lemma all_chars_append (p : ascii -> bool) (a b : string) :
  all_chars p (a +:+ b) = all_chars p a && all_chars p b.
Proof.
  induction a as [|c a IH]; [reflexivity|].
  change (p c && all_chars p (a +:+ b) = p c && all_chars p a && all_chars p b).
  now rewrite IH, andb_assoc.
Qed.

Lemma forallb_trim_leading (p : ascii -> bool) (l : list ascii) :
  forallb p l = true -> forallb p (trim_leading l) = true.
Proof.
  induction l as [|c l IH]; simpl; [reflexivity|].
  intros Hall. destruct (Ascii.eqb c " "); [|exact Hall].
  apply andb_true_iff in Hall as [_ Hall]. now apply IH.
Qed.

Lemma forallb_rev (p : ascii -> bool) (l : list ascii) :
  forallb p l = true -> forallb p (rev l) = true.
Proof.
  rewrite !forallb_forall. intros Hall c Hin. apply Hall. now apply in_rev.
Qed.

Lemma all_chars_squeeze (p : ascii -> bool) (s : string) :
  p " "%char = true -> all_chars p s = true -> all_chars p (squeeze s) = true.
Proof.
  intros Hspace. induction s as [|c s IH]; [reflexivity|].
  cbn [all_chars squeeze]. intros Hall. apply andb_true_iff in Hall as [Hc Hall].
  specialize (IH Hall).
  destruct (_ || _); [cbn [all_chars]; now rewrite Hspace, IH|].
  destruct (Ascii.eqb c " " && _); [exact IH|].
  cbn [all_chars]. now rewrite Hc, IH.
Qed.

Lemma all_chars_cleaned (p : ascii -> bool) (s : string) :
  p " "%char = true -> all_chars p s = true -> all_chars p (cleaned s) = true.
Proof.
  intros Hspace Hall. unfold cleaned, trim.
  rewrite all_chars_of_list.
  apply forallb_rev, forallb_trim_leading, forallb_rev, forallb_trim_leading.
  rewrite <- all_chars_list. now apply all_chars_squeeze.
Qed.

Lemma flush_words (tokens : list string) (current_token : string) :
  Forall delimiter_or_word tokens ->
  all_chars (fun c => negb (is_delimiter c) && negb (Strto.isspace c)) current_token = true ->
  Forall delimiter_or_word (flush tokens current_token).
Proof.
  intros Hall Hword. unfold flush. destruct (String.eqb current_token ""); [exact Hall|].
  apply Forall_app. split; [exact Hall|]. constructor; [now right|constructor].
Qed.

Lemma tokenize_from_words (s : string) :
  no_quote s = true ->
  forall tokens current_token,
    Forall delimiter_or_word tokens ->
    all_chars (fun c => negb (is_delimiter c) && negb (Strto.isspace c)) current_token
    = true ->
    Forall delimiter_or_word (tokenize_from s tokens current_token false).
Proof.
  unfold no_quote. induction s as [|c s IH]; intros Hquote tokens current_token Hall Hword.
  - now apply flush_words.
  - cbn [all_chars] in Hquote. apply andb_true_iff in Hquote as [Hc Hquote].
    apply negb_true_iff in Hc. cbn [tokenize_from]. rewrite Hc. cbn [negb andb].
    destruct (is_delimiter c) eqn:Hdelim.
    + apply (IH Hquote); [|reflexivity].
      apply Forall_app. split; [now apply flush_words|].
      constructor; [|constructor]. left. now exists c.
    + destruct (Strto.isspace c) eqn:Hspace.
      * apply (IH Hquote); [now apply flush_words|reflexivity].
      * apply (IH Hquote); [exact Hall|].
        rewrite all_chars_append, Hword. cbn [all_chars]. now rewrite Hdelim, Hspace.
Qed.

(** X23. The tokens [tokenize] returns: none is empty; put one after the
    other they are the cleaned query without its white space outside
    quotes, so no other character is lost or moved; and in a query without
    quotes each token is a single delimiter, or a word that holds neither a
    delimiter nor white space. *)
Theorem tokenize_tokens (query : string) :
  Forall (fun tok => tok <> ""%string) (tokenize query)
  /\ glue (tokenize query) = unspaced (cleaned query) false
  /\ (no_quote query = true -> Forall delimiter_or_word (tokenize query)).
Proof.
  unfold tokenize. conjuncts.
  - apply tokenize_from_nonempty. constructor.
  - now rewrite tokenize_from_glue.
  - intros Hquote. apply tokenize_from_words; [|constructor|reflexivity].
    now apply all_chars_cleaned.
Qed.

(** ** Statements *)

Lemma split_commands_glue (s : string) :
  forall commands current_command in_quotes,
    glue (split_commands s commands current_command in_quotes)
    = (glue commands +:+ current_command +:+ unseparated s in_quotes)%string.
Proof.
  induction s as [|c s IH]; intros commands current_command in_quotes; simpl.
  - now rewrite glue_flush, append_nil_r.
  - destruct (Ascii.eqb c "'").
    + rewrite IH. now rewrite !append_assoc.
    + destruct (Ascii.eqb c ";" && negb in_quotes).
      * rewrite IH, glue_flush. now rewrite !append_assoc.
      * rewrite IH. now rewrite !append_assoc.
Qed.

Lemma split_commands_nonempty (s : string) :
  forall commands current_command in_quotes,
    Forall (fun cmd => cmd <> ""%string) commands ->
    Forall (fun cmd => cmd <> ""%string)
      (split_commands s commands current_command in_quotes).
Proof.
  induction s as [|c s IH]; intros commands current_command in_quotes Hall; simpl.
  - now apply flush_nonempty.
  - destruct (Ascii.eqb c "'"); [now apply IH|].
    destruct (Ascii.eqb c ";" && negb in_quotes); apply IH; [|exact Hall].
    now apply flush_nonempty.
Qed.

Lemma parse_where_explained (tokens : list string) (q : Query.t) :
  parser_explained q (parse_where tokens q).
Proof.
  unfold parse_where.
  destruct (find_token "WHERE" tokens <? length tokens)%nat; [|reflexivity].
  destruct (parse_conditions _ [] []) as [[conditions condition_operators] complete].
  explained.
Qed.

Lemma scan_table_message (tokens : list string) (fuel : nat) :
  forall s message, scan_table fuel tokens s = inl message -> message <> ""%string.
Proof.
  induction fuel as [|fuel IH]; intros s message; simpl; [discriminate|].
  destruct (_ && _); [|discriminate].
  destruct (scan_table_token tokens s) as [m|s'] eqn:Hstep; [|apply IH].
  intros [= <-]. unfold scan_table_token, scan_column_type in Hstep.
  repeat match type of Hstep with
         | (if ?b then _ else _) = _ => destruct b
         | match ?x with Some _ => _ | None => _ end = _ => destruct x
         end;
    try discriminate; inversion Hstep; discriminate.
Qed.

Lemma parseCreateTable_explained (tokens : list string) (q : Query.t) :
  parser_explained q (parseCreateTable tokens q).
Proof.
  unfold parseCreateTable.
  destruct (length tokens <? 4)%nat; [explained|].
  destruct (length tokens <=? open_paren tokens)%nat; [explained|].
  destruct (scan_table _ tokens _) as [message|s] eqn:Hscan.
  - unfold parser_explained, fail. simpl. eapply scan_table_message; eauto.
  - explained.
Qed.

Lemma bind_values_message (table_name : string) (value_tokens : list string) :
  forall columns values message,
    bind_values table_name value_tokens columns values = inl message ->
    message <> ""%string.
Proof.
  induction value_tokens as [|tok more IH]; intros [|column columns] values message; simpl;
    try (intros [= <-]; discriminate).
  destruct (coerce (Column.type column) tok); [apply IH|].
  intros [= <-]. discriminate.
Qed.

Lemma parseInsert_explained (db : State) (tokens : list string) (q : Query.t) :
  parser_explained q (parseInsert db tokens q).
Proof.
  unfold parseInsert.
  destruct (length tokens <? 6)%nat; [explained|].
  destruct (String.eqb _ ""); [explained|].
  destruct (negb _); [explained|].
  destruct (collect_values _ false "" []) as [value_tokens closed].
  destruct (negb closed); [explained|].
  destruct (bind_values _ value_tokens _ ∅) as [message|values] eqn:Hbind.
  - unfold parser_explained, fail. simpl. eapply bind_values_message; eauto.
  - reflexivity.
Qed.

Lemma parse_join_explained (tokens : list string) (q : Query.t) :
  parser_explained q (parse_join tokens q).
Proof. unfold parse_join. explained. Qed.

Lemma parseSelect_explained (db : State) (tokens : list string) (q : Query.t) :
  parser_explained q (parseSelect db tokens q).
Proof.
  unfold parseSelect.
  destruct (length tokens <? 4)%nat; [explained|].
  destruct (_ =? length tokens)%nat; [explained|].
  destruct (length tokens <=? _)%nat; [explained|].
  pose proof (parse_join_explained tokens
                (Query.set_table_name (token tokens (find_token "FROM" tokens + 1))
                   (Query.set_type SELECT q))) as Hjoin.
  destruct (parse_join tokens _) as [joined q3].
  unfold parser_explained in Hjoin. simpl in Hjoin.
  destruct joined; simpl; [|exact Hjoin].
  destruct (String.eqb _ ""); [explained|].
  destruct (_ && _); [explained|].
  destruct (if String.eqb _ "*" then None else _) as [col|]; [explained|].
  pose proof (parse_where_explained tokens
                (Query.set_select_columns
                   (projection tokens (find_token "FROM" tokens)) q3)) as Hwhere.
  unfold parser_explained in *. destruct (parse_where tokens _) as [ok q4].
  simpl in *. destruct ok; [|exact Hwhere]. now rewrite Hwhere.
Qed.

Lemma parseUpdate_explained (tokens : list string) (q : Query.t) :
  parser_explained q (parseUpdate tokens q).
Proof.
  unfold parseUpdate.
  destruct (length tokens <? 6)%nat; [explained|].
  destruct (_ =? length tokens)%nat; [explained|].
  apply (parse_where_explained tokens
           (Query.set_values _ (Query.set_table_name _ (Query.set_type UPDATE q)))).
Qed.

Lemma parseDelete_explained (tokens : list string) (q : Query.t) :
  parser_explained q (parseDelete tokens q).
Proof.
  unfold parseDelete.
  destruct (length tokens <? 3)%nat; [explained|].
  apply (parse_where_explained tokens
           (Query.set_table_name _ (Query.set_type DELETE_OP q))).
Qed.

Lemma simple_parsers_explained (tokens : list string) (q : Query.t) :
  parser_explained q (parseCreateDatabase tokens q)
  /\ parser_explained q (parseDropDatabase tokens q)
  /\ parser_explained q (parseUseDatabase tokens q)
  /\ parser_explained q (parseDropTable tokens q).
Proof.
  unfold parseCreateDatabase, parseDropDatabase, parseUseDatabase, parseDropTable.
  conjuncts; explained.
Qed.

Lemma go_explained (all_success : bool) (q q0 : Query.t) (r : bool * Query.t) :
  flag_explained all_success q ->
  parser_explained q0 r ->
  Query.error_message q0 = Query.error_message q ->
  flag_explained (all_success && fst r) (snd r).
Proof.
  unfold flag_explained, parser_explained. intros Hflag Hr Hq.
  destruct r as [ok q']. simpl in *. destruct ok.
  - rewrite andb_true_r, Hr, Hq. exact Hflag.
  - rewrite andb_false_r. split; [discriminate|]. intros Hempty. contradiction.
Qed.

Lemma parse_command_explained (db : State) (tokens : list string) (all_success : bool)
    (q : Query.t) :
  flag_explained all_success q ->
  match parse_command db tokens all_success q with
  | (true, all_success', q') => flag_explained all_success' q'
  | (false, _, q') => Query.error_message q' <> ""%string
  end.
Proof.
  intros Hflag. unfold parse_command.
  repeat match goal with
         | |- context [if ?b then _ else _] => destruct b
         end;
    try (simpl; discriminate);
    (eapply go_explained;
     [ exact Hflag
     | first [ apply parseCreateTable_explained
             | apply parseInsert_explained
             | apply parseSelect_explained
             | apply parseUpdate_explained
             | apply parseDelete_explained
             | apply simple_parsers_explained
             | reflexivity ]
     | reflexivity ]).
Qed.

Lemma parse_commands_explained (db : State) (cmds : list string) :
  forall all_success q,
    flag_explained all_success q ->
    flag_explained (fst (parse_commands db cmds all_success q))
                   (snd (parse_commands db cmds all_success q)).
Proof.
  induction cmds as [|cmd rest IH]; intros all_success q Hflag; simpl; [exact Hflag|].
  destruct (tokenize cmd) as [|first more]; [now apply IH|].
  pose proof (parse_command_explained db (first :: more) all_success q Hflag) as Hstep.
  destruct (parse_command db (first :: more) all_success q) as [[continue ok] q'].
  destruct continue; [now apply IH|].
  simpl. unfold flag_explained. split; [discriminate|]. intros Hempty. contradiction.
Qed.

(** X24. [parse] returns [true] exactly when it leaves an empty error
    message: a command that does not parse always leaves a message, and the
    commands after it do not erase it. The commands it keeps for [execute]
    are never empty, and put one after the other they are the cleaned query
    without its semicolons outside quotes. *)
Theorem parse_outcome (db : State) (p : QueryParser) (query_string : string) :
  (fst (parse db p query_string) = true
   <-> Query.error_message (current_query (snd (parse db p query_string))) = ""%string)
  /\ Forall (fun cmd => cmd <> ""%string) (commands (snd (parse db p query_string)))
  /\ glue (commands (snd (parse db p query_string)))
     = unseparated (cleaned query_string) false.
Proof.
  unfold parse.
  pose proof (parse_commands_explained db
                (split_commands (cleaned query_string) [] "" false) true
                (Query.set_error_message "" (current_query p))) as Hflag.
  destruct (parse_commands db _ true _) as [ok q]. simpl in *. conjuncts.
  - apply Hflag. unfold flag_explained. simpl. split; reflexivity.
  - apply split_commands_nonempty. constructor.
  - now rewrite split_commands_glue.
Qed.

(** ** WHERE clauses *)

Lemma find_token_In (word : string) (tokens : list string) :
  In word tokens <-> (find_token word tokens < length tokens)%nat.
Proof.
  induction tokens as [|t rest IH]; simpl.
  - split; [intros []|lia].
  - destruct (String.eqb_spec t word) as [->|Hne].
    + split; [lia|auto].
    + rewrite <- Nat.succ_lt_mono, <- IH. split; [intros [Heq|Hin]; [congruence|exact Hin]|auto].
Qed.

Lemma is_connective_In (word : string) : is_connective word = true -> In word connectives.
Proof.
  unfold is_connective, connectives. intros H.
  apply orb_true_iff in H as [H|H]; [apply orb_true_iff in H as [H|H]|];
    apply String.eqb_eq in H; subst; simpl; auto.
Qed.

Lemma parse_conditions_count (n : nat) :
  forall tokens conditions operators conditions' operators',
    (length tokens <= n)%nat ->
    parse_conditions tokens conditions operators = (conditions', operators', true) ->
    (3 * length conditions' + length operators'
     = 3 * length conditions + length operators + length tokens)%nat
    /\ (Forall (fun o => In o connectives) operators ->
        Forall (fun o => In o connectives) operators').
Proof.
  induction n as [|n IH]; intros tokens conditions operators conditions' operators' Hlen.
  - destruct tokens; [|simpl in Hlen; lia]. intros [= <- <-]. simpl. split; [lia|auto].
  - destruct tokens as [|t rest]; [intros [= <- <-]; simpl; split; [lia|auto]|].
    simpl in Hlen. cbn [parse_conditions].
    destruct (is_connective (upper t)) eqn:Hconn.
    + intros Hparse. apply IH in Hparse as [Hcount Hops]; [|lia].
      rewrite length_app in Hcount. simpl in *. split; [lia|].
      intros Hall. apply Hops. apply Forall_app. split; [exact Hall|].
      constructor; [now apply is_connective_In|constructor].
    + destruct rest as [|o [|v rest']]; try discriminate.
      intros Hparse. apply IH in Hparse as [Hcount Hops]; [|simpl in Hlen; lia].
      rewrite length_app in Hcount. simpl in *. split; [lia|exact Hops].
Qed.

(** X25. A WHERE clause that [parse_where] accepts holds at least one
    comparison. The tokens after WHERE are exactly its comparisons, three
    tokens each, and its connectives, which are AND, OR and NOT; and the
    connectives are at least one fewer than the comparisons and at most
    that many more than the NOTs among them. *)
Theorem where_clause_accepted (tokens : list string) (q q' : Query.t) :
  In "WHERE"%string tokens ->
  Z.of_nat (length tokens) < 2 ^ 64 - 1 ->
  parse_where tokens q = (true, q') ->
  Query.conditions q' <> []
  /\ Forall (fun o => In o connectives) (Query.condition_operators q')
  /\ (3 * length (Query.conditions q') + length (Query.condition_operators q')
      = length tokens - S (find_token "WHERE" tokens))%nat
  /\ Z.of_nat (length (Query.conditions q')) - 1
     <= Z.of_nat (length (Query.condition_operators q'))
     <= Z.of_nat (length (Query.conditions q')) - 1
        + Z.of_nat (count_not (Query.condition_operators q')).
Proof.
  intros Hwhere Hsize. apply find_token_In in Hwhere.
  unfold parse_where.
  destruct (Nat.ltb_spec (find_token "WHERE" tokens) (length tokens)) as [_|]; [|lia].
  destruct (parse_conditions (drop (S (find_token "WHERE" tokens)) tokens) [] [])
    as [[conditions operators] complete] eqn:Hparse.
  destruct complete; [|discriminate]. cbn [negb].
  destruct (mismatched conditions operators) eqn:Hmis; [discriminate|].
  intros [= <-]. cbn [Query.conditions Query.condition_operators Query.set_where].
  destruct (parse_conditions_count _ _ _ _ _ _ (Nat.le_refl _) Hparse) as [Hcount Hops].
  rewrite length_drop in Hcount. simpl in Hcount.
  assert (Hbound : (3 * length conditions + length operators <= length tokens)%nat) by lia.
  assert (Hnot : (count_not operators <= length operators)%nat).
  { unfold count_not. apply List.filter_length_le. }
  unfold mismatched, size_t in Hmis. fold (count_not operators) in Hmis.
  apply orb_false_iff in Hmis as [Hlow Hhigh].
  apply Z.ltb_ge in Hlow, Hhigh.
  destruct conditions as [|first more].
  - exfalso. change (Z.of_nat (length (@nil Condition.t)) - 1) with (-1) in Hlow.
    change ((-1) mod 2 ^ 64) with (2 ^ 64 - 1) in Hlow. lia.
  - assert (Hone : (1 <= length (first :: more))%nat) by (simpl; lia).
    conjuncts.
    + discriminate.
    + apply Hops. constructor.
    + lia.
    + rewrite Z.mod_small in Hlow by lia. exact Hlow.
    + rewrite (Z.mod_small (Z.of_nat (length (first :: more)) - 1)) in Hhigh by lia.
      rewrite Z.mod_small in Hhigh by lia. exact Hhigh.
Qed.

Lemma where_clause_accepted_witness :
  Query.conditions (snd (parse_where delete_tokens Query.empty)) <> []
  /\ Forall (fun o => In o connectives)
       (Query.condition_operators (snd (parse_where delete_tokens Query.empty)))
  /\ (3 * length (Query.conditions (snd (parse_where delete_tokens Query.empty)))
      + length (Query.condition_operators (snd (parse_where delete_tokens Query.empty)))
      = length delete_tokens - S (find_token "WHERE" delete_tokens))%nat
  /\ Z.of_nat (length (Query.conditions (snd (parse_where delete_tokens Query.empty)))) - 1
     <= Z.of_nat
          (length (Query.condition_operators (snd (parse_where delete_tokens Query.empty))))
     <= Z.of_nat (length (Query.conditions (snd (parse_where delete_tokens Query.empty)))) - 1
        + Z.of_nat
            (count_not
               (Query.condition_operators (snd (parse_where delete_tokens Query.empty)))).
Proof.
  apply (where_clause_accepted delete_tokens Query.empty).
  - vm_compute. auto 10.
  - vm_compute. reflexivity.
  - vm_compute. reflexivity.
Defined.

(** ** INSERT statements *)

Lemma coerce_has_type (column : Column.t) (tok : string) (v : FieldValue) :
  coerce (Column.type column) tok = Some v -> has_type column v.
Proof.
  unfold coerce, has_type. destruct (Column.type column).
  - destruct (Strto.stoi tok); [|discriminate]. now intros [= <-].
  - destruct (Strto.stof tok); [|discriminate]. now intros [= <-].
  - now intros [= <-].
  - now intros [= <-].
  - now intros [= <-].
Qed.

Lemma bind_values_typed (table_name : string) (value_tokens : list string) :
  forall columns values bound,
    NoDup (map Column.name columns) ->
    bind_values table_name value_tokens columns values = inr bound ->
    length value_tokens = length columns
    /\ (forall k, ~ In k (map Column.name columns) -> bound !! k = values !! k)
    /\ Forall (fun column =>
                 exists v, bound !! Column.name column = Some v /\ has_type column v)
         columns.
Proof.
  induction value_tokens as [|tok more IH]; intros [|column columns] values bound Hnodup;
    simpl; try discriminate.
  - intros [= <-]. conjuncts; [reflexivity|auto|constructor].
  - destruct (coerce (Column.type column) tok) as [v|] eqn:Hv; [|discriminate].
    simpl in Hnodup. apply NoDup_cons in Hnodup as [Hfresh Hnodup].
    intros Hbind. destruct (IH _ _ _ Hnodup Hbind) as (Hlen & Hother & Hall).
    conjuncts.
    + now rewrite Hlen.
    + intros k Hk. rewrite Hother by tauto. apply lookup_insert_ne. tauto.
    + constructor; [|exact Hall].
      exists v. split; [|now apply (coerce_has_type column tok)].
      rewrite Hother; [apply lookup_insert_eq|].
      intros Hin. apply Hfresh. now apply list_elem_of_In.
Qed.

Lemma getTableSchema_found (db : State) (table_name : string) :
  TableSchema.name (getTableSchema db table_name) <> ""%string ->
  find_table (catalog db) table_name = Some (getTableSchema db table_name).
Proof.
  unfold getTableSchema. destruct (find_table (catalog db) table_name); [reflexivity|].
  simpl. congruence.
Qed.

(** X26. The record of an INSERT statement that parses fits the table it
    names: the statement has one value for every column of the schema and
    none besides, each bound to its column in schema order with the
    alternative the column type asks for. [insertRecord] therefore never
    throws on it: it returns, or it ends on the missing index handle of a
    table without primary key. *)
Theorem parsed_insert_fits (db : State) (tokens : list string) (q q' : Query.t) :
  well_formed (getTableSchema db (token tokens 2)) ->
  parseInsert db tokens q = (true, q') ->
  Query.table_name q' = token tokens 2
  /\ find_table (catalog db) (Query.table_name q')
     = Some (getTableSchema db (Query.table_name q'))
  /\ fits_schema (getTableSchema db (Query.table_name q')) (Query.values q')
  /\ insertRecord db (Query.table_name q') (Query.values q') <> Failed.
Proof.
  intros [Hnodup Hlens]. unfold parseInsert, fail.
  destruct (length tokens <? 6)%nat; [discriminate|].
  cbn [Query.table_name Query.set_table_name Query.set_type].
  set (table_name := token tokens 2) in *.
  set (schema := getTableSchema db table_name) in *.
  destruct (String.eqb_spec (TableSchema.name schema) "") as [|Hname]; [discriminate|].
  destruct (negb _); [discriminate|].
  destruct (collect_values _ false "" []) as [value_tokens closed].
  destruct (negb closed); [discriminate|].
  destruct (bind_values table_name value_tokens _ ∅) as [message|values] eqn:Hbind;
    [discriminate|].
  intros [= <-]. cbn [Query.table_name Query.values Query.set_values Query.set_table_name
                       Query.set_type].
  destruct (bind_values_typed _ _ _ _ _ Hnodup Hbind) as (_ & Hother & Hall).
  pose proof (getTableSchema_found db table_name Hname) as Hfind. fold schema in Hfind.
  conjuncts.
  - reflexivity.
  - exact Hfind.
  - split; [exact Hall|].
    intros k [v Hk].
    destruct (in_dec string_dec k (map Column.name (TableSchema.columns schema)))
      as [Hin|Hout]; [exact Hin|].
    rewrite (Hother k Hout) in Hk. discriminate.
  - unfold insertRecord, insertRecord_on. rewrite Hfind.
    destruct (saveRecord_typed values _ Hall Hlens) as [bytes Hsave].
    assert (Hkey : exists key, check_primary_key schema values = KeyValue key
                               \/ check_primary_key schema values = KeyNotInt).
    { unfold check_primary_key.
      destruct (find_primary_key schema) as [column|] eqn:Hpk; [|eauto].
      unfold find_primary_key in Hpk. apply find_some in Hpk as [Hin _].
      rewrite List.Forall_forall in Hall.
      destruct (Hall column Hin) as (v & Hv & Hty). rewrite Hv.
      unfold has_type in Hty.
      destruct (Column.type column); try (exists 0; now right).
      destruct v; try contradiction. eauto. }
    destruct Hkey as (key & [-> | ->]); [|discriminate].
    unfold append_record. rewrite Hsave.
    unfold index_record. destruct (indexes _ !! table_name); discriminate.
Qed.

Lemma parsed_insert_fits_witness :
  Query.table_name (snd (parseInsert two_rows insert_tokens Query.empty))
  = token insert_tokens 2
  /\ find_table (catalog two_rows)
       (Query.table_name (snd (parseInsert two_rows insert_tokens Query.empty)))
     = Some (getTableSchema two_rows
               (Query.table_name (snd (parseInsert two_rows insert_tokens Query.empty))))
  /\ fits_schema
       (getTableSchema two_rows
          (Query.table_name (snd (parseInsert two_rows insert_tokens Query.empty))))
       (Query.values (snd (parseInsert two_rows insert_tokens Query.empty)))
  /\ insertRecord two_rows
       (Query.table_name (snd (parseInsert two_rows insert_tokens Query.empty)))
       (Query.values (snd (parseInsert two_rows insert_tokens Query.empty)))
     <> Failed.
Proof.
  apply (parsed_insert_fits two_rows insert_tokens Query.empty).
  - exact t_schema_well_formed.
  - vm_compute. reflexivity.
Defined.

(** ** Projections *)

Lemma filter_record_lookup (record : Rec) (columns : list string) :
  forall filtered k,
    filter_record record columns filtered !! k
    = if bool_decide (k ∈ columns)
      then match shown record k with
           | Some v => Some v
           | None => filtered !! k
           end
      else filtered !! k.
Proof.
  induction columns as [|col rest IH]; intros filtered k.
  - cbn [filter_record]. now rewrite bool_decide_eq_false_2 by apply not_elem_of_nil.
  - cbn [filter_record]. fold (shown record col).
    assert (Hstep : forall acc, filter_record record rest
                                  match shown record col with
                                  | Some v => <[col := v]> acc
                                  | None => acc
                                  end
                                = match record !! col with
                                  | Some v => filter_record record rest (<[col := v]> acc)
                                  | None =>
                                      match after_dot col ≫= (fun base => record !! base) with
                                      | Some v => filter_record record rest (<[col := v]> acc)
                                      | None => filter_record record rest acc
                                      end
                                  end).
    { intros acc. unfold shown. destruct (record !! col); [reflexivity|].
      now destruct (after_dot col ≫= _). }
    rewrite <- Hstep, IH. clear Hstep.
    destruct (decide (col = k)) as [->|Hne].
    + rewrite (bool_decide_eq_true_2 (k ∈ k :: rest)) by (apply elem_of_cons; now left).
      destruct (shown record k) as [v|] eqn:Hshown.
      * destruct (bool_decide (k ∈ rest)); [reflexivity|apply lookup_insert_eq].
      * now destruct (bool_decide (k ∈ rest)).
    + assert (Hin : bool_decide (k ∈ col :: rest) = bool_decide (k ∈ rest)).
      { apply bool_decide_ext. rewrite elem_of_cons. intuition congruence. }
      rewrite Hin.
      assert (Hacc : match shown record col with
                     | Some v => <[col := v]> filtered
                     | None => filtered
                     end !! k = filtered !! k).
      { destruct (shown record col); [now apply lookup_insert_ne|reflexivity]. }
      now rewrite Hacc.
Qed.

(** X27. [filterRecordsByColumns] with the single column [*] returns the
    records as they are. With any other column list each record it returns
    is the projection of one of the records given, in order: it has a value
    exactly under the requested columns the record can show (under its own
    name, or under what follows the first dot), that value, and nothing
    else; a record that can show none of the columns is dropped. *)
Theorem projection_keeps_requested (records : list Rec) (columns : list string) :
  filterRecordsByColumns records ["*"%string] = records
  /\ (columns <> ["*"%string] ->
      filterRecordsByColumns records columns
      = List.filter (fun filtered => negb (bool_decide (filtered = ∅)))
          (map (fun record => filter_record record columns ∅) records)
      /\ (length (filterRecordsByColumns records columns) <= length records)%nat
      /\ Forall (fun filtered => filtered <> ∅) (filterRecordsByColumns records columns))
  /\ forall record k,
      filter_record record columns ∅ !! k
      = if bool_decide (k ∈ columns) then shown record k else None.
Proof.
  conjuncts.
  - unfold filterRecordsByColumns. now rewrite bool_decide_eq_true_2.
  - intros Hne. unfold filterRecordsByColumns. rewrite bool_decide_eq_false_2 by exact Hne.
    conjuncts.
    + reflexivity.
    + etransitivity; [apply List.filter_length_le|]. now rewrite length_map.
    + apply List.Forall_forall. intros filtered Hin.
      apply List.filter_In in Hin as [_ Hkeep].
      apply negb_true_iff, bool_decide_eq_false in Hkeep. exact Hkeep.
  - intros record k. rewrite filter_record_lookup, lookup_empty.
    destruct (bool_decide (k ∈ columns)); [|reflexivity].
    now destruct (shown record k).
Qed.

(** * Further properties of the index *)

(** With an index that lists the data file, the offsets stored under a key
    load the records of the file that hold this key, in file order. *)
Lemma listing_lookup (schema : TableSchema.t) (content : list Z) (tree : BPlusTree.t)
    (key : Z) (records : list (Z * Rec)) :
  scan schema content = Some records ->
  Forall2 (fun (stored_at : Z * Rec) (entry : Z * Z) =>
             snd entry = fst stored_at
             /\ snd stored_at !! primary_key_column schema = Some (FInt (fst entry)))
    records tree ->
  mapM (fun offset => load_at content offset schema) (BPlusTree.search key tree)
  = Some (List.filter (matches_key (primary_key_column schema) (FInt key))
            (map snd records)).
Proof.
  intros Hscan Hlisted.
  pose proof (scan_from_load_at schema _ [] content records Hscan) as Hload.
  simpl in Hload. clear Hscan. unfold BPlusTree.search.
  induction Hlisted as [|[offset record] [k o] records tree [Ho Hk] Hrest IH];
    [reflexivity|].
  simpl in Ho, Hk. subst o.
  inversion Hload as [|? ? Hhere Hload']; subst. simpl in Hhere.
  specialize (IH Hload'). simpl.
  unfold matches_key at 1. rewrite Hk. simpl.
  destruct (k =? key).
  - simpl. rewrite Hhere. simpl. rewrite IH. reflexivity.
  - exact IH.
Qed.

Lemma condition_holds_key (record : Rec) (column : string) (key : Z) :
  condition_holds record (column, FInt key, "="%string)
  = matches_key column (FInt key) record.
Proof.
  unfold condition_holds, matches_key. destruct (record !! column) as [v|]; [|reflexivity].
  unfold compareValues. destruct v; reflexivity.
Qed.

Lemma filter_filter {A} (f g : A -> bool) (l : list A) :
  List.filter f (List.filter g l) = List.filter (fun x => g x && f x) l.
Proof.
  induction l as [|x l IH]; [reflexivity|]. simpl.
  destruct (g x); simpl; [destruct (f x); now rewrite IH|exact IH].
Qed.

(** X9. Using the index changes nothing in what a filtered search
    returns. When the index of the table lists its data file,
    [searchRecordsAdvanced] returns the records of the file that satisfy
    every condition, in file order, whether it goes through the index or
    scans the file. *)
Theorem advanced_search_is_a_filter
    (st : State) (table_name : string) (conditions : list condition)
    (schema : TableSchema.t) (content : list Z) (records : list (Z * Rec)) :
  find_table (catalog st) table_name = Some schema ->
  files st !! TableSchema.data_file_path schema = Some content ->
  scan schema content = Some records ->
  (forall handle,
      indexes st !! table_name = Some handle ->
      indexes_file schema content (tree_of handle st)) ->
  searchRecordsAdvanced st table_name conditions
  = Returned
      (List.filter (fun record => forallb (condition_holds record) conditions)
         (map snd records))
      st.
Proof.
  intros Hfind Hfile Hscan Hlisting. unfold searchRecordsAdvanced.
  rewrite Hfind, Hfile.
  destruct (useIndex st schema table_name conditions) eqn:Huse.
  - unfold useIndex in Huse.
    destruct conditions as [|[[col val] op] others]; [discriminate|].
    apply andb_true_iff in Huse as [Huse Hhandle].
    apply andb_true_iff in Huse as [Huse Hint].
    apply andb_true_iff in Huse as [Hcol Hop].
    apply String.eqb_eq in Hcol, Hop. subst col op.
    destruct val as [key| | |]; try discriminate.
    apply bool_decide_eq_true in Hhandle as [handle Hhandle].
    destruct (Hlisting handle Hhandle) as (records' & Hscan' & Hlisted).
    rewrite Hscan in Hscan'. injection Hscan' as <-.
    unfold advanced_by_index. rewrite Hhandle.
    rewrite (listing_lookup schema content _ key records Hscan Hlisted).
    simpl. rewrite filter_filter. f_equal.
    apply filter_ext. intros record.
    rewrite <- (condition_holds_key record (primary_key_column schema) key). reflexivity.
  - unfold advanced_by_scan. rewrite Hscan. reflexivity.
Qed.

Lemma advanced_search_is_a_filter_witness :
  searchRecordsAdvanced two_rows "t" two_conditions
  = Returned
      (List.filter (fun record => forallb (condition_holds record) two_conditions)
         (map snd two_rows_records))
      two_rows.
Proof.
  apply (advanced_search_is_a_filter two_rows "t" two_conditions t_schema
           (content_of "data/t.dat" two_rows) two_rows_records).
  - vm_compute. reflexivity.
  - vm_compute. reflexivity.
  - vm_compute. reflexivity.
  - intros handle Hhandle. vm_compute in Hhandle. injection Hhandle as <-.
    exists two_rows_records. split; [vm_compute; reflexivity|].
    repeat constructor.
Defined.

(** * Reading a rewritten file *)

Lemma rebuild_index_catalog
    (reindex : BPlusTree.t -> list Rec -> BPlusTree.t -> option BPlusTree.t)
    (schema : TableSchema.t) (table_name handle : string) (st st' : State) (b : bool) :
  rebuild_index reindex schema table_name handle st = Returned b st' ->
  catalog st' = catalog st.
Proof.
  unfold rebuild_index.
  destruct (open_tree_frame (TableSchema.index_file_path schema +:+ ".tmp") st)
    as (Hcat & _).
  destruct (getAllRecords (open_tree (TableSchema.index_file_path schema +:+ ".tmp") st)
              table_name) as [all_records st2| |] eqn:Hall; try discriminate.
  apply getAllRecords_catalog in Hall.
  destruct (reindex _ all_records _) as [new_index|]; [|discriminate].
  unfold rename_index_file. simpl. rewrite lookup_insert_eq.
  intros Hres. inversion Hres; subst st'; clear Hres.
  match goal with
  | |- catalog (set_indexes _ (open_tree ?p ?s)) = _ =>
      change (catalog (open_tree p s) = catalog st);
        destruct (open_tree_frame p s) as (Hcat3 & _); rewrite Hcat3
  end.
  simpl. now rewrite Hall, Hcat.
Qed.

Lemma finish_rewrite_catalog
    (reindex : BPlusTree.t -> list Rec -> BPlusTree.t -> option BPlusTree.t)
    (wants_rebuild : bool) (schema : TableSchema.t) (table_name : string)
    (acc : rewrite) (st st' : State) (b : bool) :
  finish_rewrite reindex wants_rebuild schema table_name acc st = Returned b st' ->
  catalog st' = catalog st.
Proof.
  unfold finish_rewrite. destruct (negb (found acc)); [now intros [= _ <-]|].
  unfold rename_file. simpl. rewrite lookup_insert_eq. simpl.
  match goal with
  | |- match ?x with Some _ => _ | None => _ end = _ -> _ => destruct x as [handle|]
  end.
  - intros Hre. apply rebuild_index_catalog in Hre. exact Hre.
  - now intros [= _ <-].
Qed.

(** Scanning a file made of saved records, one after the other, reads them
    back one by one. *)
Lemma scan_from_chunks (schema : TableSchema.t) (chunks : list (list Z))
    (shown : list Rec) :
  Forall2 (fun chunk record =>
             chunk <> [] /\ loadRecord chunk schema = Some (record, []))
    chunks shown ->
  forall fuel offset,
    (length chunks <= fuel)%nat ->
    exists entries,
      scan_from fuel schema offset (concat chunks) = Some entries
      /\ map snd entries = shown.
Proof.
  induction 1 as [|chunk record chunks shown [Hne Hload] Hrest IH]; intros fuel offset Hfuel.
  - exists []. split; [|reflexivity]. now destruct fuel.
  - simpl in Hfuel. destruct fuel as [|fuel]; [lia|].
    destruct chunk as [|b chunk]; [contradiction|].
    pose proof (loadRecord_from_more _ (concat chunks) _ _ _ _ Hload) as Hmore.
    simpl in Hmore. cbn [concat].
    change ((b :: chunk) ++ concat chunks) with (b :: (chunk ++ concat chunks)).
    cbn [scan_from]. unfold loadRecord. rewrite Hmore. cbn [mbind option_bind].
    destruct (IH fuel
                (offset + Z.of_nat (length (b :: chunk ++ concat chunks)
                                    - length (concat chunks))))
      as (entries & Hscan & Hshown); [lia|].
    rewrite Hscan. eexists. split; [reflexivity|]. simpl. now rewrite Hshown.
Qed.

(** A file made of the bytes of [written], record after record, reads back
    as these records. *)
Lemma getAllRecords_of_written
    (st : State) (table_name : string) (schema : TableSchema.t) (written : list Rec) :
  find_table (catalog st) table_name = Some schema ->
  files st !! TableSchema.data_file_path schema
  = Some (concat (map (bytes_of schema) written)) ->
  well_formed schema ->
  int_lengths schema ->
  0 < record_size (TableSchema.columns schema) ->
  Forall (fun record => snd (saveRecord record (TableSchema.columns schema)) = true) written ->
  Forall (fits_columns schema) written ->
  exists shown,
    getAllRecords st table_name = Returned shown st
    /\ Forall2 (reads_back schema) written shown.
Proof.
  intros Hfind Hfile [Hnodup _] Hlens Hsize Hsaved Hfits.
  assert (Hchunks : exists shown,
             Forall2 (fun chunk record =>
                        chunk <> [] /\ loadRecord chunk schema = Some (record, []))
               (map (bytes_of schema) written) shown
             /\ Forall2 (reads_back schema) written shown).
  { clear Hfile. induction written as [|record more IH].
    - exists []. split; constructor.
    - inversion Hsaved as [|? ? Hs Hsaved']; subst.
      inversion Hfits as [|? ? Hf Hfits']; subst.
      destruct (IH Hsaved' Hfits') as (shown & Hload & Hback).
      unfold bytes_of in *.
      destruct (saveRecord record (TableSchema.columns schema)) as [bytes ok] eqn:Hsave.
      simpl in Hs. subst ok.
      destruct (loadRecord_from_saved record [] _ Hnodup Hlens Hf bytes ∅ Hsave)
        as (loaded & Hloaded & Hcols & _).
      rewrite app_nil_r in Hloaded.
      exists (loaded :: shown). split; constructor; auto.
      cbn [map]. rewrite Hsave. cbn [fst]. split; [|exact Hloaded].
      pose proof (length_saveRecord _ _ _ Hsave) as Hlen.
      intros ->. simpl in Hlen. lia. }
  destruct Hchunks as (shown & Hload & Hback).
  assert (Hfuel : (length (map (bytes_of schema) written)
                   <= length (concat (map (bytes_of schema) written)))%nat).
  { clear -Hload. induction Hload as [|chunk record chunks shown [Hne _] _ IH];
      [simpl; lia|].
    cbn [concat length]. rewrite length_app.
    destruct chunk; [contradiction|simpl in *; lia]. }
  destruct (scan_from_chunks schema _ _ Hload _ 0 Hfuel) as (entries & Hscan & Hshown).
  exists shown. split; [|exact Hback].
  unfold getAllRecords, scan. rewrite Hfind, Hfile, Hscan, Hshown. reflexivity.
Qed.

Lemma update_loop_saved (schema : TableSchema.t) (key_column : string)
    (key_value : FieldValue) (new_values : Rec) (records : list (Z * Rec)) :
  forall acc acc',
    rewrite_loop (update_step schema key_column key_value new_values) records acc
    = Some acc' ->
    Forall (fun record => snd (saveRecord record (TableSchema.columns schema)) = true)
      (map (fun entry => updated key_column key_value new_values (snd entry)) records).
Proof.
  induction records as [|[offset record] more IH]; intros acc acc' Hloop; [constructor|].
  simpl in Hloop.
  destruct (update_step schema key_column key_value new_values acc offset record)
    as [acc1|] eqn:Hstep; [|discriminate].
  simpl in Hloop. cbn [map snd]. constructor; [|now apply (IH acc1 acc')].
  unfold update_step, updated in *.
  destruct (matches_key key_column key_value record).
  - destruct (if assigns_primary_key schema new_values then _ else _) as [changed|];
      [|discriminate].
    cbn [mbind option_bind] in Hstep.
    destruct (saveRecord (new_values ∪ record) (TableSchema.columns schema)) as [bytes ok].
    now destruct ok.
  - cbn [mbind option_bind] in Hstep.
    destruct (saveRecord record (TableSchema.columns schema)) as [bytes ok].
    now destruct ok.
Qed.

Lemma delete_loop_saved (schema : TableSchema.t) (key_column : string)
    (key_value : FieldValue) (records : list (Z * Rec)) :
  forall acc acc',
    rewrite_loop (delete_step schema key_column key_value) records acc = Some acc' ->
    Forall (fun record => snd (saveRecord record (TableSchema.columns schema)) = true)
      (map snd (survivors key_column key_value records)).
Proof.
  induction records as [|[offset record] more IH]; intros acc acc' Hloop; [constructor|].
  simpl in Hloop.
  destruct (delete_step schema key_column key_value acc offset record)
    as [acc1|] eqn:Hstep; [|discriminate].
  simpl in Hloop. unfold survivors in *. cbn [List.filter snd].
  unfold delete_step in Hstep.
  destruct (matches_key key_column key_value record); cbn [negb].
  - now apply (IH acc1 acc').
  - cbn [map snd]. constructor; [|now apply (IH acc1 acc')].
    destruct (saveRecord record (TableSchema.columns schema)) as [bytes ok].
    now destruct ok.
Qed.

(** X19. What a read shows after an update that returned [true]: as many
    records as the file held, in the same order; a record that matched the
    key shows the new values laid over it, any other record its own values,
    each column as it reads back (a string cut or padded to the declared
    length, a missing column as its default). *)
Theorem update_then_getAllRecords
    (st st' : State) (table_name key_column : string) (key_value : FieldValue)
    (new_values : Rec) (schema : TableSchema.t) (content : list Z)
    (records : list (Z * Rec)) :
  find_table (catalog st) table_name = Some schema ->
  files st !! TableSchema.data_file_path schema = Some content ->
  scan schema content = Some records ->
  well_formed schema ->
  int_lengths schema ->
  0 < record_size (TableSchema.columns schema) ->
  Forall (fits_columns schema)
    (map (fun entry => updated key_column key_value new_values (snd entry)) records) ->
  updateRecord st table_name key_column key_value new_values = Returned true st' ->
  exists shown,
    getAllRecords st' table_name = Returned shown st'
    /\ Forall2 (reads_back schema)
         (map (fun entry => updated key_column key_value new_values (snd entry)) records)
         shown.
Proof.
  intros Hfind Hfile Hscan Hwf Hlens Hsize Hfits Hupdate.
  assert (Hstate : catalog st' = catalog st
                   /\ files st' !! TableSchema.data_file_path schema
                      = Some (concat
                                (map (bytes_of schema)
                                   (map (fun entry =>
                                           updated key_column key_value new_values
                                             (snd entry))
                                      records)))
                   /\ Forall (fun record =>
                                snd (saveRecord record (TableSchema.columns schema)) = true)
                        (map (fun entry =>
                                updated key_column key_value new_values (snd entry))
                           records)).
  { unfold updateRecord, rewrite_table in Hupdate.
    rewrite Hfind, Hfile, Hscan in Hupdate.
    destruct (rewrite_loop _ records rewrite_start) as [acc|] eqn:Hloop; [|discriminate].
    destruct (finish_rewrite_files _ _ _ _ _ _ _ Hupdate) as (_ & Hdata & _).
    destruct (update_loop_temp _ _ _ _ _ _ _ Hloop) as (Hbytes & _).
    simpl in Hbytes. conjuncts.
    - now apply finish_rewrite_catalog in Hupdate.
    - rewrite Hdata, Hbytes, map_map. reflexivity.
    - now apply (update_loop_saved _ _ _ _ _ _ _ Hloop). }
  destruct Hstate as (Hcat & Hdata & Hsaved).
  apply (getAllRecords_of_written st' table_name schema); auto.
  now rewrite Hcat.
Qed.

(** X20. What a read shows after a delete that returned [true]: the records
    that did not match the key, in the order the file held them, each
    column as it reads back; no record that matched is left. *)
Theorem delete_then_getAllRecords
    (st st' : State) (table_name key_column : string) (key_value : FieldValue)
    (schema : TableSchema.t) (content : list Z) (records : list (Z * Rec)) :
  find_table (catalog st) table_name = Some schema ->
  files st !! TableSchema.data_file_path schema = Some content ->
  scan schema content = Some records ->
  well_formed schema ->
  int_lengths schema ->
  0 < record_size (TableSchema.columns schema) ->
  Forall (fits_columns schema) (map snd (survivors key_column key_value records)) ->
  deleteRecord st table_name key_column key_value = Returned true st' ->
  exists shown,
    getAllRecords st' table_name = Returned shown st'
    /\ Forall2 (reads_back schema)
         (map snd (survivors key_column key_value records)) shown.
Proof.
  intros Hfind Hfile Hscan Hwf Hlens Hsize Hfits Hdelete.
  assert (Hstate : catalog st' = catalog st
                   /\ files st' !! TableSchema.data_file_path schema
                      = Some (concat
                                (map (bytes_of schema)
                                   (map snd (survivors key_column key_value records))))
                   /\ Forall (fun record =>
                                snd (saveRecord record (TableSchema.columns schema)) = true)
                        (map snd (survivors key_column key_value records))).
  { unfold deleteRecord, rewrite_table in Hdelete.
    rewrite Hfind, Hfile, Hscan in Hdelete.
    destruct (rewrite_loop _ records rewrite_start) as [acc|] eqn:Hloop; [|discriminate].
    destruct (finish_rewrite_files _ _ _ _ _ _ _ Hdelete) as (_ & Hdata & _).
    destruct (delete_loop_temp _ _ _ _ _ _ Hloop) as (Hbytes & _).
    simpl in Hbytes. conjuncts.
    - now apply finish_rewrite_catalog in Hdelete.
    - rewrite Hdata, Hbytes, map_map. reflexivity.
    - now apply (delete_loop_saved _ _ _ _ _ _ Hloop). }
  destruct Hstate as (Hcat & Hdata & Hsaved).
  apply (getAllRecords_of_written st' table_name schema); auto.
  now rewrite Hcat.
Qed.

Lemma update_then_getAllRecords_witness :
  exists shown,
    getAllRecords (after (updateRecord two_rows "t" "id" (FInt 2) set_v)) "t"
    = Returned shown (after (updateRecord two_rows "t" "id" (FInt 2) set_v))
    /\ Forall2 (reads_back t_schema)
         (map (fun entry => updated "id" (FInt 2) set_v (snd entry)) two_rows_records)
         shown.
Proof.
  apply (update_then_getAllRecords two_rows
           (after (updateRecord two_rows "t" "id" (FInt 2) set_v))
           "t" "id" (FInt 2) set_v t_schema (content_of "data/t.dat" two_rows)
           two_rows_records).
  - vm_compute. reflexivity.
  - vm_compute. reflexivity.
  - vm_compute. reflexivity.
  - exact t_schema_well_formed.
  - repeat constructor.
  - vm_compute. reflexivity.
  - repeat first [constructor | progress unfold fits_columns];
      vm_compute; intuition discriminate.
  - vm_compute. reflexivity.
Defined.

Lemma delete_then_getAllRecords_witness :
  exists shown,
    getAllRecords (after (deleteRecord two_rows "t" "id" (FInt 1))) "t"
    = Returned shown (after (deleteRecord two_rows "t" "id" (FInt 1)))
    /\ Forall2 (reads_back t_schema)
         (map snd (survivors "id" (FInt 1) two_rows_records)) shown.
Proof.
  apply (delete_then_getAllRecords two_rows
           (after (deleteRecord two_rows "t" "id" (FInt 1)))
           "t" "id" (FInt 1) t_schema (content_of "data/t.dat" two_rows)
           two_rows_records).
  - vm_compute. reflexivity.
  - vm_compute. reflexivity.
  - vm_compute. reflexivity.
  - exact t_schema_well_formed.
  - repeat constructor.
  - vm_compute. reflexivity.
  - repeat first [constructor | progress unfold fits_columns];
      vm_compute; intuition discriminate.
  - vm_compute. reflexivity.
Defined.

(** * Further properties of the literals *)

Lemma digit_is_plain (c : ascii) (v : Z) :
  Strto.digit c = Some v ->
  0 <= v <= 9
  /\ Strto.isspace c = false
  /\ forall s, Strto.sign (String c s) = (false, String c s).
Proof.
  intros H.
  destruct c as [[] [] [] [] [] [] [] []];
    try (vm_compute in H; discriminate H);
    vm_compute in H; injection H as <-;
    (split; [lia|split; [reflexivity|intros s; reflexivity]]).
Qed.

Lemma digits_none (s : string) :
  fst (Strto.digits Strto.digit s) = [] -> Strto.digits Strto.digit s = ([], s).
Proof.
  destruct s as [|c s]; [reflexivity|]. simpl.
  destruct (Strto.digit c); [|reflexivity].
  destruct (Strto.digits Strto.digit s). discriminate.
Qed.

Lemma digits_append (ds tail : string) :
  only_digits ds ->
  leading_digits tail = [] ->
  Strto.digits Strto.digit (ds +:+ tail) = (leading_digits ds, tail).
Proof.
  unfold only_digits, leading_digits. intros Hds Htail.
  induction ds as [|c ds IH].
  - simpl. now apply digits_none.
  - change (String c ds +:+ tail)%string with (String c (ds +:+ tail)).
    simpl in *. destruct (Strto.digit c) as [v|]; [|discriminate].
    destruct (Strto.digits Strto.digit ds) as [vs rest] eqn:Hrest.
    simpl in Hds. rewrite (IH Hds). reflexivity.
Qed.

Lemma leading_digits_range (s : string) :
  Forall (fun v => 0 <= v <= 9) (leading_digits s).
Proof.
  unfold leading_digits. induction s as [|c s IH]; simpl; [constructor|].
  destruct (Strto.digit c) as [v|] eqn:Hc; [|constructor].
  destruct (Strto.digits Strto.digit s) as [vs rest]. simpl in *.
  constructor; [|exact IH]. now apply (digit_is_plain c v).
Qed.

Lemma number_nonneg (ds : list Z) :
  Forall (fun v => 0 <= v <= 9) ds -> 0 <= Strto.number 10 ds.
Proof.
  unfold Strto.number. intros Hds.
  assert (Hgen : forall acc, 0 <= acc -> 0 <= fold_left (fun acc d => acc * 10 + d) ds acc).
  { induction Hds as [|d ds Hd _ IH]; intros acc Hacc; simpl; [exact Hacc|].
    apply IH. lia. }
  apply Hgen. lia.
Qed.

(** X28. A literal that starts with decimal digits is an [int], whatever
    follows the digits: [parseValue] takes the value of the digits (below
    [2^31]) and ignores the rest, with a minus sign in front as well. A
    decimal point and a fraction after the digits are dropped, so such a
    literal is never a [float]. *)
Theorem parseValue_integer_prefix (ds tail : string) :
  ds <> ""%string ->
  only_digits ds ->
  leading_digits tail = [] ->
  Strto.number 10 (leading_digits ds) < 2 ^ 31 ->
  parseValue (ds +:+ tail) = FInt (Strto.number 10 (leading_digits ds))
  /\ parseValue (String "-" (ds +:+ tail)) = FInt (- Strto.number 10 (leading_digits ds)).
Proof.
  intros Hne Hds Htail Hrange.
  pose proof (digits_append ds tail Hds Htail) as Happ.
  pose proof (number_nonneg _ (leading_digits_range ds)) as Hpos.
  destruct ds as [|c ds]; [contradiction|].
  assert (Hc : exists v, Strto.digit c = Some v).
  { unfold only_digits in Hds. simpl in Hds.
    destruct (Strto.digit c) as [v|]; [eauto|discriminate]. }
  destruct Hc as [v Hc].
  destruct (digit_is_plain c v Hc) as (_ & Hspace & Hsign).
  assert (Hsome : leading_digits (String c ds) <> []).
  { unfold leading_digits. simpl. rewrite Hc.
    destruct (Strto.digits Strto.digit ds). discriminate. }
  change (String c ds +:+ tail)%string with (String c (ds +:+ tail)) in *.
  assert (Hstoi : Strto.stoi (String c (ds +:+ tail))
                  = Some (Strto.number 10 (leading_digits (String c ds)))).
  { unfold Strto.stoi. cbn [Strto.skip_spaces]. rewrite Hspace, Hsign, Happ.
    destruct (leading_digits (String c ds)) as [|d more] eqn:Hds'; [contradiction|].
    cbn [Strto.signed].
    destruct (Z.leb_spec (- 2 ^ 31) (Strto.number 10 (d :: more))); [|lia].
    destruct (Z.ltb_spec (Strto.number 10 (d :: more)) (2 ^ 31)); [|lia].
    reflexivity. }
  assert (Hneg : Strto.stoi (String "-" (String c (ds +:+ tail)))
                 = Some (- Strto.number 10 (leading_digits (String c ds)))).
  { unfold Strto.stoi.
    change (Strto.skip_spaces (String "-" (String c (ds +:+ tail))))
      with (String "-" (String c (ds +:+ tail))).
    change (Strto.sign (String "-" (String c (ds +:+ tail))))
      with (true, String c (ds +:+ tail)).
    cbv beta iota. rewrite Happ.
    destruct (leading_digits (String c ds)) as [|d more] eqn:Hds'; [contradiction|].
    cbn [Strto.signed].
    destruct (Z.leb_spec (- 2 ^ 31) (- Strto.number 10 (d :: more))); [|lia].
    destruct (Z.ltb_spec (- Strto.number 10 (d :: more)) (2 ^ 31)); [|lia].
    reflexivity. }
  unfold parseValue. now rewrite Hstoi, Hneg.
Qed.

Lemma parseValue_integer_prefix_witness :
  parseValue ("3" +:+ ".14") = FInt (Strto.number 10 (leading_digits "3"))
  /\ parseValue (String "-" ("3" +:+ ".14")) = FInt (- Strto.number 10 (leading_digits "3")).
Proof.
  apply (parseValue_integer_prefix "3" ".14").
  - discriminate.
  - reflexivity.
  - reflexivity.
  - vm_compute. reflexivity.
Defined.

(** * The listing invariant on the sample tables *)

Lemma insert_keeps_listing_witness :
  indexes (after (insertRecord_on at_end two_rows "t" (row 3 30))) !! "t"
  = Some (handle_for two_rows "t" t_schema)
  /\ indexes_file t_schema
       (content_of (TableSchema.data_file_path t_schema)
          (after (insertRecord_on at_end two_rows "t" (row 3 30))))
       (tree_of (handle_for two_rows "t" t_schema)
          (after (insertRecord_on at_end two_rows "t" (row 3 30)))).
Proof.
  apply (insert_keeps_listing at_end two_rows
           (after (insertRecord_on at_end two_rows "t" (row 3 30)))
           "t" (row 3 30) t_schema id_column).
  - vm_compute. reflexivity.
  - exact t_schema_well_formed.
  - repeat constructor.
  - vm_compute. reflexivity.
  - intros k Hk. vm_compute in Hk. injection Hk as <-. lia.
  - exists two_rows_records. split; [vm_compute; reflexivity|repeat constructor].
  - vm_compute. reflexivity.
  - vm_compute. reflexivity.
  - vm_compute. reflexivity.
Defined.

Lemma scan_agrees_with_listing_index_witness :
  search_by_index t_schema (content_of "data/t.dat" two_rows)
    (tree_of "data/t.idx" two_rows) (FInt 2)
  = search_by_scan t_schema (content_of "data/t.dat" two_rows)
      (primary_key_column t_schema) (FInt 2).
Proof.
  apply (scan_agrees_with_listing_index t_schema (content_of "data/t.dat" two_rows)
           (tree_of "data/t.idx" two_rows) 2).
  exists two_rows_records. split; [vm_compute; reflexivity|].
  repeat constructor.
Defined.

(** * Further properties of SELECT statements and of quoted literals *)

Lemma parse_where_frame (tokens : list string) (q : Query.t) :
  Query.table_name (snd (parse_where tokens q)) = Query.table_name q
  /\ Query.join_table_name (snd (parse_where tokens q)) = Query.join_table_name q
  /\ Query.select_columns (snd (parse_where tokens q)) = Query.select_columns q.
Proof.
  unfold parse_where, fail.
  destruct (find_token "WHERE" tokens <? length tokens)%nat; [|conjuncts; reflexivity].
  destruct (parse_conditions _ [] []) as [[conditions operators] complete].
  destruct (negb complete); [conjuncts; reflexivity|].
  destruct (mismatched conditions operators); conjuncts; reflexivity.
Qed.

Lemma parse_join_frame (tokens : list string) (q : Query.t) :
  Query.table_name (snd (parse_join tokens q)) = Query.table_name q.
Proof.
  unfold parse_join, fail.
  repeat match goal with
         | |- context [if ?b then _ else _] => destruct b
         end; reflexivity.
Qed.

Lemma projection_nonempty (tokens : list string) (from_pos : nat) :
  projection tokens from_pos <> [].
Proof.
  unfold projection. destruct (List.filter _ _); discriminate.
Qed.

(** X29. A SELECT statement that parses names a table of the catalog, a
    join table of the catalog when the query has one, and a projection that
    is never empty: either it starts with [*], or every column in it is a
    column of the table or of the join table, bare or qualified by the
    table name. *)
Theorem parsed_select_is_valid (db : State) (tokens : list string) (q q' : Query.t) :
  parseSelect db tokens q = (true, q') ->
  table_exists db (Query.table_name q')
  /\ Query.table_name q' = token tokens (find_token "FROM" tokens + 1)
  /\ (Query.join_table_name q' <> ""%string -> table_exists db (Query.join_table_name q'))
  /\ Query.select_columns q' = projection tokens (find_token "FROM" tokens)
  /\ Query.select_columns q' <> []
  /\ (hd ""%string (Query.select_columns q') <> "*"%string ->
      Forall (column_exists db q') (Query.select_columns q')).
Proof.
  unfold parseSelect, fail.
  destruct (length tokens <? 4)%nat; [discriminate|].
  destruct (_ =? length tokens)%nat; [discriminate|].
  destruct (length tokens <=? _)%nat; [discriminate|].
  set (q2 := Query.set_table_name _ (Query.set_type SELECT q)).
  pose proof (parse_join_frame tokens q2) as Hjoin.
  destruct (parse_join tokens q2) as [joined q3]. simpl in Hjoin.
  destruct joined; [|discriminate]. cbn [negb].
  destruct (String.eqb_spec (TableSchema.name (getTableSchema db (Query.table_name q3))) "")
    as [|Htable]; [discriminate|].
  destruct (negb (String.eqb (Query.join_table_name q3) "")
            && String.eqb
                 (TableSchema.name (getTableSchema db (Query.join_table_name q3))) "")
    eqn:Hjoined; [discriminate|].
  set (columns := projection tokens (find_token "FROM" tokens)).
  destruct (if String.eqb (hd "" columns) "*" then None else unknown_column db q3 columns)
    as [col|] eqn:Hunknown; [discriminate|].
  destruct (parse_where_frame tokens (Query.set_select_columns columns q3))
    as (Hname & Hjoinname & Hcols).
  destruct (parse_where tokens (Query.set_select_columns columns q3)) as [ok q4].
  simpl in Hname, Hjoinname, Hcols. intros [= -> <-].
  unfold table_exists, column_exists. rewrite Hname, Hjoinname, Hcols. conjuncts.
  - exact Htable.
  - rewrite Hjoin. reflexivity.
  - intros Hne. apply andb_false_iff in Hjoined as [Hj|Hj].
    + apply negb_false_iff, String.eqb_eq in Hj. contradiction.
    + now apply String.eqb_neq in Hj.
  - reflexivity.
  - apply projection_nonempty.
  - intros Hstar. apply String.eqb_neq in Hstar. rewrite Hstar in Hunknown.
    unfold unknown_column in Hunknown.
    apply List.Forall_forall. intros col Hin.
    pose proof (find_none _ _ Hunknown col Hin) as Hfound.
    apply negb_false_iff, orb_true_iff in Hfound as [Hfound|Hfound]; [now left|].
    right. apply andb_true_iff in Hfound as [Hj Hfound]. split; [|exact Hfound].
    now apply negb_true_iff, String.eqb_neq in Hj.
Qed.

Lemma parsed_select_is_valid_witness :
  table_exists two_rows (Query.table_name (snd (parseSelect two_rows select_tokens Query.empty)))
  /\ Query.table_name (snd (parseSelect two_rows select_tokens Query.empty))
     = token select_tokens (find_token "FROM" select_tokens + 1)
  /\ (Query.join_table_name (snd (parseSelect two_rows select_tokens Query.empty))
      <> ""%string ->
      table_exists two_rows
        (Query.join_table_name (snd (parseSelect two_rows select_tokens Query.empty))))
  /\ Query.select_columns (snd (parseSelect two_rows select_tokens Query.empty))
     = projection select_tokens (find_token "FROM" select_tokens)
  /\ Query.select_columns (snd (parseSelect two_rows select_tokens Query.empty)) <> []
  /\ (hd ""%string (Query.select_columns (snd (parseSelect two_rows select_tokens Query.empty)))
      <> "*"%string ->
      Forall (column_exists two_rows (snd (parseSelect two_rows select_tokens Query.empty)))
        (Query.select_columns (snd (parseSelect two_rows select_tokens Query.empty)))).
Proof.
  apply (parsed_select_is_valid two_rows select_tokens Query.empty).
  vm_compute. reflexivity.
Defined.

Lemma quoted_body (body : string) :
  no_quote body = true ->
  forall rest tokens current_token,
    tokenize_from (body +:+ rest) tokens current_token true
    = tokenize_from rest tokens (current_token +:+ body) true.
Proof.
  unfold no_quote. induction body as [|c body IH]; intros Hquote rest tokens current_token.
  - now rewrite append_nil_r.
  - cbn [all_chars] in Hquote. apply andb_true_iff in Hquote as [Hc Hquote].
    apply negb_true_iff in Hc.
    change (String c body +:+ rest)%string with (String c (body +:+ rest)).
    cbn [tokenize_from]. rewrite Hc. cbn [negb andb].
    rewrite (IH Hquote). f_equal.
    rewrite append_assoc. reflexivity.
Qed.

Lemma parseValue_quoted (body : string) :
  parseValue (String "'" (body +:+ "'")) = FStr body.
Proof.
  unfold parseValue.
  change (Strto.stoi (String "'" (body +:+ "'"))) with (@None Z).
  change (Strto.stof (String "'" (body +:+ "'"))) with (@None Z).
  change (String.eqb (String "'" (body +:+ "'")) "true") with false.
  change (String.eqb (String "'" (body +:+ "'")) "TRUE") with false.
  change (String.eqb (String "'" (body +:+ "'")) "false") with false.
  change (String.eqb (String "'" (body +:+ "'")) "FALSE") with false.
  simpl orb. cbv iota. now rewrite unquote_quoted.
Qed.

(** The first loop of [tokenize] has no quote test: it treats what is
    between the quotes like the rest, and leaves the quotes in place. *)
Lemma squeeze_quoted (body : string) :
  squeeze (String "'" (body +:+ "'")) = String "'" (squeeze body +:+ "'").
Proof.
  cbn [squeeze]. change (Strto.code "'") with 39. cbn [Z.eqb Pos.eqb orb].
  change (Ascii.eqb "'" " ") with false. cbn [andb]. f_equal.
  induction body as [|c body IH]; [reflexivity|].
  change (String c body +:+ "'")%string with (String c (body +:+ "'")).
  cbn [squeeze]. rewrite IH.
  assert (Hhead : match (body +:+ "'")%string with
                  | String " " _ => true
                  | _ => false
                  end
                  = match body with
                    | String " " _ => true
                    | _ => false
                    end).
  { destruct body; reflexivity. }
  rewrite Hhead.
  destruct (_ || _); [reflexivity|].
  destruct (_ && _); reflexivity.
Qed.

Lemma trim_leading_quote (l : list ascii) :
  trim_leading ("'"%char :: l) = "'"%char :: l.
Proof. reflexivity. Qed.

(** Trimming leaves a string between quotes as it is. *)
Lemma trim_quoted (body : string) :
  trim (String "'" (body +:+ "'")) = String "'" (body +:+ "'").
Proof.
  unfold trim.
  assert (Hlist : list_ascii_of_string (String "'" (body +:+ "'"))
                  = "'"%char :: (list_ascii_of_string body ++ ["'"%char])).
  { cbn [list_ascii_of_string]. f_equal.
    induction body as [|c body IH]; [reflexivity|].
    change (String c body +:+ "'")%string with (String c (body +:+ "'")).
    cbn [list_ascii_of_string]. now rewrite IH. }
  rewrite Hlist, trim_leading_quote.
  change (rev ("'"%char :: (list_ascii_of_string body ++ ["'"%char])))
    with (rev (list_ascii_of_string body ++ ["'"%char]) ++ ["'"%char]).
  rewrite rev_app_distr. cbn [rev app].
  rewrite trim_leading_quote.
  change (rev ("'"%char :: (rev (list_ascii_of_string body) ++ ["'"%char])))
    with (rev (rev (list_ascii_of_string body) ++ ["'"%char]) ++ ["'"%char]).
  rewrite rev_app_distr, rev_involutive. cbn [rev app].
  rewrite <- Hlist. apply string_of_list_ascii_of_string.
Qed.

(** X30. A literal between single quotes is one token: commas,
    parentheses, semicolons and spaces between the quotes do not split it.
    The cleaning pass that runs before the tokenizer loop has no quote test,
    so between the quotes too a tab, a carriage return or a line feed has
    become a space and a space followed by a space has been erased: the
    token of [tokenize] is the cleaned body between the quotes, and
    [parseValue] reads it as that string; it is the string as typed when the
    cleaning leaves the body as it is. *)
Theorem quoted_literal_is_one_token (body : string) :
  no_quote body = true ->
  (forall rest tokens current_token,
      tokenize_from (String "'" (body +:+ String "'" rest)) tokens current_token false
      = tokenize_from rest tokens (current_token +:+ String "'" (body +:+ "'")) false)
  /\ cleaned (String "'" (body +:+ "'")) = String "'" (squeeze body +:+ "'")
  /\ tokenize (String "'" (body +:+ "'")) = [String "'" (squeeze body +:+ "'")]
  /\ map parseValue (tokenize (String "'" (body +:+ "'"))) = [FStr (squeeze body)]
  /\ (squeeze body = body ->
      map parseValue (tokenize (String "'" (body +:+ "'"))) = [FStr body]).
Proof.
  intros Hquote.
  assert (Hwhole : forall text, no_quote text = true ->
             forall rest tokens current_token,
               tokenize_from (String "'" (text +:+ String "'" rest)) tokens
                 current_token false
               = tokenize_from rest tokens
                   (current_token +:+ String "'" (text +:+ "'")) false).
  { intros text Htext rest tokens current_token.
    cbn [tokenize_from]. change (Ascii.eqb "'" "'") with true. cbv iota. cbn [negb].
    rewrite (quoted_body text Htext). cbn [tokenize_from].
    change (Ascii.eqb "'" "'") with true. cbv iota. cbn [negb].
    f_equal. rewrite !append_assoc. reflexivity. }
  assert (Hkept : no_quote (squeeze body) = true).
  { unfold no_quote. now apply all_chars_squeeze. }
  assert (Hclean : cleaned (String "'" (body +:+ "'")) = String "'" (squeeze body +:+ "'")).
  { unfold cleaned. now rewrite squeeze_quoted, trim_quoted. }
  assert (Hone : tokenize (String "'" (body +:+ "'")) = [String "'" (squeeze body +:+ "'")]).
  { unfold tokenize. rewrite Hclean, (Hwhole _ Hkept "" [] ""). reflexivity. }
  conjuncts.
  - now apply Hwhole.
  - exact Hclean.
  - exact Hone.
  - rewrite Hone. cbn [map]. now rewrite parseValue_quoted.
  - intros Hsame. rewrite Hone, Hsame. cbn [map]. now rewrite parseValue_quoted.
Qed.

Lemma quoted_literal_is_one_token_witness :
  tokenize "'a,  (b) ; c'" = ["'a, (b) ; c'"]
  /\ map parseValue (tokenize "'a,  (b) ; c'") = [FStr "a, (b) ; c"]
  /\ map parseValue (tokenize "'a, (b) ; c'") = [FStr "a, (b) ; c"].
Proof.
  destruct (quoted_literal_is_one_token "a,  (b) ; c" eq_refl) as (_ & _ & Hone & Hread & _).
  destruct (quoted_literal_is_one_token "a, (b) ; c" eq_refl) as (_ & _ & _ & _ & Hsame).
  split; [exact Hone|]. split; [exact Hread|]. now apply Hsame.
Defined.

(** * C8: the index after a rewrite *)

(** ** Offsets of the records of a file *)




(** ** The temporary file and the offset map after a rewrite loop *)

Section RewriteLoop.

Variables (schema : TableSchema.t) (step : rewrite -> Z -> Rec -> option rewrite)
          (writes : Rec -> option Rec).

Hypothesis step_writes :
  forall acc old_offset record acc',
    step acc old_offset record = Some acc' ->
    match writes record with
    | Some written =>
        exists bytes,
          saveRecord written (TableSchema.columns schema) = (bytes, true)
          /\ temp acc' = temp acc ++ bytes
          /\ offset_map acc'
             = <[old_offset := Z.of_nat (length (temp acc))]> (offset_map acc)
    | None => temp acc' = temp acc /\ offset_map acc' = offset_map acc
    end.



End RewriteLoop.



(** ** Reading the rewritten file *)




(** ** The offsets the old index gives *)










(** ** The rebuild *)





(** An update that gives a record a new key goes through
    [index->search(key)[0]] with the new key, which the index that is being
    replaced does not list for that record: with a key the index does not
    hold the empty vector is indexed; with a key another record holds, the
    new index gets that record's offset for both. *)
Example update_with_a_new_key :
  updateRecord two_rows "t" "id" (FInt 1) (<["id" := FInt 5]> ∅) = Failed
  /\ exists st',
      updateRecord two_rows "t" "id" (FInt 1) (<["id" := FInt 2]> ∅) = Returned true st'
      /\ files st' !! "data/t.dat"
         = Some [2; 0; 0; 0; 10; 0; 0; 0; 2; 0; 0; 0; 20; 0; 0; 0]
      /\ index_files st' !! "data/t.idx" = Some [(2, 8); (2, 8)].
Proof.
  split; [vm_compute; reflexivity|].
  eexists. split; [reflexivity|]. split; vm_compute; reflexivity.
Qed.
